(** * PyClutterCutter: reachability analysis and interactive disposition

    A shallow embedding of [PyClutterCutter.py] and the properties of its
    import extractor, inventory scan, selection menu and delete / archive
    workflow.

    Conventions.
    - Python [str] is [string]; a path is a [string].  Where the number
      of characters matters (tables, the ignore file) a [str] is [text],
      the list of its code points.
    - Python [set] is stdpp's [gset], [dict] is [gmap].
    - A call that may raise returns a [result]: [Ok v] or [Raise e].
    - The interpreter, the operating system and [importlib] are not part of
      the program: they are the fields of the records [system] and
      [machine], so every theorem holds for every behaviour they may have.
    - A program that waits for a key or a line that never comes is
      [Blocked]; nothing follows it. *)

From stdpp Require Import gmap strings list fin_maps pretty.
From Stdlib Require Import ZArith Ascii.

Local Open Scope string_scope.
Local Open Scope list_scope.
Set Warnings "-register-all,-clear-no-such-hyp".

Abbreviation path := string (only parsing).

(** ** Exceptions *)

Inductive exn_class :=
| ImportError
| ModuleNotFoundError
| AttributeError
| ValueError
| SyntaxError
| OSError
| IndexError
| RecursionError.

Record exn := Exn { exn_cls : exn_class; exn_str : string }.

Inductive result (A : Type) :=
| Ok (a : A)
| Raise (e : exn).
Arguments Ok {A} a.
Arguments Raise {A} e.

(** Truthiness of a Python [str]: only the empty string is falsy. *)
Definition truthy (s : string) : bool :=
  match s with
  | EmptyString => false
  | String _ _ => true
  end.

(** ** The syntax tree seen by [get_imported_modules]

    Only two node classes are inspected, [ast.Import] and [ast.ImportFrom];
    each carries its list of [ast.alias].  Every other node class is
    [Other], with the child nodes [ast.iter_child_nodes] yields for it. *)

Record alias := Alias { alias_name : string; alias_asname : option string }.

Inductive node :=
| Import (names : list alias)
| ImportFrom (module : option string) (names : list alias) (level : nat)
| Other (children : list node).

(** [ast.walk]: the node itself and all its descendants.  Python leaves the
    order unspecified; the extractor accumulates into a set, so any
    enumeration gives the same result. *)
Fixpoint walk (n : node) : list node :=
  n :: match n with
       | Other children =>
           (fix walk_all (l : list node) : list node :=
              match l with
              | [] => []
              | c :: l' => walk c ++ walk_all l'
              end) children
       | _ => []
       end.

(** [n] occurs in [tree]: the tree itself or a descendant of it. *)
Inductive occurs (n : node) : node → Prop :=
| occurs_here : occurs n n
| occurs_child children c :
    c ∈ children → occurs n c → occurs n (Other children).

(** [module = node.module if node.module else ''] *)
Definition from_module (module : option string) : string :=
  match module with
  | Some m => if truthy m then m else EmptyString
  | None => EmptyString
  end.

(** The body of the [for node in ast.walk(tree)] loop. *)
Definition add_node_imports (imports : gset string) (n : node) : gset string :=
  match n with
  | Import names =>
      foldl (λ acc a, acc ∪ {[ alias_name a ]}) imports names
  | ImportFrom module names _ =>
      let module := from_module module in
      foldl (λ acc a, acc ∪ {[ module +:+ "." +:+ alias_name a ]}) imports names
  | Other _ => imports
  end.

Definition imports_of_tree (tree : node) : gset string :=
  foldl add_node_imports ∅ (walk tree).

(** The names one node contributes. *)
Definition contributes (n : node) (x : string) : Prop :=
  match n with
  | Import names => ∃ a, a ∈ names ∧ x = alias_name a
  | ImportFrom module names _ =>
      ∃ a, a ∈ names ∧ x = from_module module +:+ "." +:+ alias_name a
  | Other _ => False
  end.

(** ** Strings: the [str] and [os.path] operations the program uses *)

(** [s.startswith(p)] *)
Definition startswith (s p : string) : bool := String.prefix p s.

(** [s.endswith(p)] *)
Definition endswith (s p : string) : bool :=
  String.prefix (String.rev p) (String.rev s).

(** [s.split('.')[0]]: the text before the first dot. *)
Fixpoint split_dot_head (s : string) : string :=
  match s with
  | EmptyString => EmptyString
  | String c rest =>
      if Ascii.eqb c "."%char then EmptyString else String c (split_dot_head rest)
  end.

(** [os.path.basename(p)]: the text after the last slash. *)
Fixpoint basename_from (cur p : string) : string :=
  match p with
  | EmptyString => cur
  | String c rest =>
      if Ascii.eqb c "/"%char then basename_from EmptyString rest
      else basename_from (cur +:+ String c EmptyString) rest
  end.

Definition basename (p : string) : string := basename_from EmptyString p.

(** ** Configuration *)

Record config := Config {
  MAIN_FILE : string;
  IGNORE_DIRS : gset string;
  EXTENSIONS : gset string;
  SIZE_THRESHOLD : Z;
  EXCLUDE_SELF : bool;
  ARCHIVE_FOLDER : string;
  USE_PARALLEL : bool;
  MAX_THREADS : Z
}.

Definition DEFAULT_CONFIG : config := {|
  MAIN_FILE := "app.py";
  IGNORE_DIRS := {[ "venv"; ".git"; "__pycache__"; "node_modules" ]};
  EXTENSIONS := {[ ".py" ]};
  SIZE_THRESHOLD := 1024 * 1024;
  EXCLUDE_SELF := true;
  ARCHIVE_FOLDER := "Guido_Gallery";
  USE_PARALLEL := true;
  MAX_THREADS := 4
|}.

(** ** File metadata and module specs *)

Record file_info := FileInfo {
  size : Z;
  created : string;
  modified : string
}.

(** What [importlib.util.find_spec] returns when it finds a module: only
    [origin] is read, and it may be [None]. *)
Record module_spec := ModuleSpec { origin : option string }.

(** ** The environment of one run

    Everything the analysis reads from outside the program. *)
Record system := System {
  (** [os.path.abspath(__file__)] *)
  current_script : path;
  (** [os.walk(directory)], flattened: every [os.path.join(root, file)] in
      traversal order *)
  os_walk : path → list path;
  (** the patterns [parse_gitignore(directory)] collects *)
  parse_gitignore : path → gset string;
  (** [os.getcwd()]; [os.path.abspath(".")] is the same directory *)
  getcwd : path;
  (** [os.path.relpath(file_path, start)] *)
  relpath : path → path → string;
  (** [fnmatch.fnmatch(name, pattern)] *)
  fnmatch : string → string → bool;
  (** [os.stat], as read by [get_file_info] *)
  stat : path → file_info;
  (** [open(file_path).read()] followed by [ast.parse] *)
  read_and_parse : path → result node;
  (** [importlib.util.find_spec(name)]: [Ok None] when nothing is found *)
  find_spec : string → result (option module_spec);
  (** the order in which Python iterates over a set: every element, once *)
  set_order : gset string → list string;
  set_order_perm : ∀ s, set_order s ≡ₚ elements s
}.

(** ** Output of the program *)

Inductive action := delete | archive.

Inductive message :=
| MsgVersionWarning
| MsgRunningWithPython
| MsgBanner
| MsgErrorProcessing (file_path : path) (err : string)
| MsgUnusedTable (rows : list path)
| MsgNoUnusedFound
| MsgProblematicTable (rows : gset (string * string))
| MsgLargeTable (rows : list path)
| MsgDisclaimer
| MsgTimeToDecide
| MsgMenu (options : list string) (selected : list bool) (current : Z)
| MsgClearPreviousMenu
| MsgOperationCancelled
| MsgNoFilesSelected
| MsgFilesSelected (a : action) (files : list path)
| MsgPreparingDelete (files : list path)
| MsgDeleted (file : path)
| MsgErrorDeleting (file : path) (err : string)
| MsgCleanupComplete
| MsgDeletionCancelled
| MsgPreparingArchive (archive_path : path)
| MsgMoved (file : path)
| MsgErrorMoving (file : path) (err : string)
| MsgArchivingComplete
| MsgArchivingCancelled
| MsgActionCancelled (a : action)
| MsgDryRunCompleted
| MsgNoUnusedToProcess
| MsgRemember.

(** ** The inventory scan and the reachability sets *)

Record scan_state := ScanState {
  used_files : gset string;
  all_files : gmap string file_info;
  problematic_imports : gset (string * string);
  large_files : gset string;
  scan_printed : list message
}.

Definition set_used (f : gset string → gset string) (st : scan_state) :=
  ScanState (f (used_files st)) (all_files st) (problematic_imports st)
            (large_files st) (scan_printed st).
Definition set_all (f : gmap string file_info → gmap string file_info) (st : scan_state) :=
  ScanState (used_files st) (f (all_files st)) (problematic_imports st)
            (large_files st) (scan_printed st).
Definition set_problematic
    (f : gset (string * string) → gset (string * string)) (st : scan_state) :=
  ScanState (used_files st) (all_files st) (f (problematic_imports st))
            (large_files st) (scan_printed st).
Definition set_large (f : gset string → gset string) (st : scan_state) :=
  ScanState (used_files st) (all_files st) (problematic_imports st)
            (f (large_files st)) (scan_printed st).
Definition scan_print (m : message) (st : scan_state) :=
  ScanState (used_files st) (all_files st) (problematic_imports st)
            (large_files st) (scan_printed st ++ [m]).

(** [except (ImportError, AttributeError, ModuleNotFoundError)] *)
Definition caught_by_resolver (e : exn) : bool :=
  match exn_cls e with
  | ImportError | ModuleNotFoundError | AttributeError => true
  | _ => false
  end.

(** [spec and spec.origin], as a condition; the origin when it holds. *)
Definition spec_origin (spec : option module_spec) : option string :=
  match spec with
  | Some s =>
      match origin s with
      | Some o => if truthy o then Some o else None
      | None => None
      end
  | None => None
  end.

(** The exceptions that count as a failed import: [ImportError],
    [ModuleNotFoundError] and [AttributeError], by name. *)
Definition import_failure (e : exn) : Prop :=
  exn_cls e = ImportError ∨ exn_cls e = ModuleNotFoundError
  ∨ exn_cls e = AttributeError.

(** What resolving one import name can give: the origin of the module
    found, or the text of an exception of one of those three classes. *)
Definition resolves_to (E : system) (import_name : string) (o : string) : Prop :=
  ∃ spec, find_spec E (split_dot_head import_name) = Ok spec ∧ spec_origin spec = Some o.

Definition fails_with (E : system) (import_name : string) (reason : string) : Prop :=
  ∃ e, find_spec E (split_dot_head import_name) = Raise e
       ∧ import_failure e ∧ reason = exn_str e.

(** The lookup raises no exception of another class. *)
Definition no_stray_exception (E : system) (import_name : string) : Prop :=
  ∀ e, find_spec E (split_dot_head import_name) = Raise e → import_failure e.

(** The lookup raises an exception of another class. *)
Definition stray_exception (E : system) (import_name : string) (e : exn) : Prop :=
  find_spec E (split_dot_head import_name) = Raise e ∧ ¬ import_failure e.

Section Scan.
(** [CONFIG] is loaded once, when the module is loaded. *)
Variable CONFIG : config.
Variable E : system.

Definition should_ignore (file_path : path)
    (ignore_patterns standard_ignores : gset string) : bool :=
  let relative_path := relpath E file_path (getcwd E) in
  existsb (λ ignore, startswith relative_path ignore) (elements standard_ignores)
  || existsb (λ pattern, fnmatch E relative_path pattern) (elements ignore_patterns).

(** [get_imported_modules]: a failure to read or parse propagates. *)
Definition get_imported_modules (file_path : path) : result (gset string) :=
  match read_and_parse E file_path with
  | Ok tree => Ok (imports_of_tree tree)
  | Raise e => Raise e
  end.

Definition get_file_info (file_path : path) : file_info := stat E file_path.

Definition process_file
    (args : path * gset string * gset string * string)
    : option (path * file_info * bool) :=
  let '(file_path, ignore_patterns, standard_ignores, main_file) := args in
  if negb (should_ignore file_path ignore_patterns standard_ignores)
     && existsb (λ ext, endswith file_path ext) (elements (EXTENSIONS CONFIG))
  then
    let file_info := get_file_info file_path in
    let is_main := String.eqb (basename file_path) main_file in
    Some (file_path, file_info, is_main)
  else None.

(** One iteration of [for import_name in imports] with its inner [try].
    The second component is an exception the inner [except] does not
    catch: it leaves the loop. *)
Definition resolve_import (import_name : string) (st : scan_state)
    : scan_state * option exn :=
  match find_spec E (split_dot_head import_name) with
  | Ok spec =>
      match spec_origin spec with
      | Some o => (set_used (λ u, u ∪ {[ o ]}) st, None)
      | None => (st, None)
      end
  | Raise e =>
      if caught_by_resolver e
      then (set_problematic (λ p, p ∪ {[ (import_name, exn_str e) ]}) st, None)
      else (st, Some e)
  end.

Fixpoint resolve_imports (imports : list string) (st : scan_state)
    : scan_state * option exn :=
  match imports with
  | [] => (st, None)
  | import_name :: rest =>
      match resolve_import import_name st with
      | (st', None) => resolve_imports rest st'
      | (st', Some e) => (st', Some e)
      end
  end.

(** The [if is_main:] block, with the outer [try ... except Exception]. *)
Definition process_main (file_path : path) (st : scan_state) : scan_state :=
  let st := set_used (λ u, u ∪ {[ file_path ]}) st in
  match get_imported_modules file_path with
  | Ok imports =>
      match resolve_imports (set_order E imports) st with
      | (st', None) => st'
      | (st', Some e) => scan_print (MsgErrorProcessing file_path (exn_str e)) st'
      end
  | Raise e => scan_print (MsgErrorProcessing file_path (exn_str e)) st
  end.

(** The body of [for result in results]. *)
Definition process_result (st : scan_state)
    (result : option (path * file_info * bool)) : scan_state :=
  match result with
  | Some (file_path, file_info, is_main) =>
      let st := set_all (λ a, <[ file_path := file_info ]> a) st in
      let st :=
        if (size file_info >? SIZE_THRESHOLD CONFIG)%Z
        then set_large (λ l, l ∪ {[ file_path ]}) st else st in
      if is_main then process_main file_path st else st
  | None => st
  end.

Definition file_list (directory : path)
    : list (path * gset string * gset string * string) :=
  let ignore_patterns := parse_gitignore E directory in
  (λ file_path,
     (file_path, ignore_patterns, IGNORE_DIRS CONFIG, MAIN_FILE CONFIG))
  <$> filter (λ file_path,
        ¬ (EXCLUDE_SELF CONFIG = true ∧ file_path = current_script E))
      (os_walk E directory).

(** [pool.map] and [map] both give the results in the order of
    [file_list]. *)
Definition scan_results (directory : path) : list (option (path * file_info * bool)) :=
  process_file <$> file_list directory.

Definition initial_scan : scan_state := ScanState ∅ ∅ ∅ ∅ [].

(** The state of the four collections when the loop ends. *)
Definition scan (directory : path) : scan_state :=
  foldl process_result initial_scan (scan_results directory).

(** [unused_files = set(all_files.keys()) - used_files] *)
Definition unused_files (st : scan_state) : gset string :=
  dom (all_files st) ∖ used_files st.

Definition find_unused_files (directory : path)
    : gset string * gset (string * string) * gset string * gmap string file_info :=
  let st := scan directory in
  (unused_files st, problematic_imports st, large_files st, all_files st).

End Scan.

(** ** The selection menu: [interactive_select] *)

(** A character as [get_char] returns it.  [str.lower] changes only the
    letters A to Z among the characters the program compares with. *)
Definition lower_char (c : ascii) : ascii :=
  let n := N_of_ascii c in
  if ((65 <=? n) && (n <=? 90))%N then ascii_of_N (n + 32) else c.

Fixpoint lower (s : string) : string :=
  match s with
  | EmptyString => EmptyString
  | String c rest => String (lower_char c) (lower rest)
  end.

(** [l[i]] for a Python [int]: a negative index counts from the end, an
    index out of range raises [IndexError]. *)
Definition py_index (len : nat) (i : Z) : option nat :=
  if ((0 <=? i) && (i <? Z.of_nat len))%Z then Some (Z.to_nat i)
  else if ((- Z.of_nat len <=? i) && (i <? 0))%Z then Some (Z.to_nat (i + Z.of_nat len))
  else None.

Definition index_error : exn := Exn IndexError "list index out of range".

Record menu := Menu {
  selected : list bool;
  current : Z
}.

(** [sum(selected)] *)
Definition sum_selected (selected : list bool) : Z :=
  foldl (λ acc (b : bool), if b then acc + 1 else acc)%Z 0%Z selected.

(** [[options[i] for i in range(len(options)) if selected[i]]] *)
Definition selected_options (options : list string) (selected : list bool)
    : result (list string) :=
  foldr (λ i acc,
           match selected !! i, options !! i, acc with
           | Some true, Some o, Ok l => Ok (o :: l)
           | Some false, _, Ok l => Ok l
           | Some _, _, Raise e => Raise e
           | _, _, _ => Raise index_error
           end)
        (Ok []) (seq 0 (length options)).

Definition ESC : ascii := "027"%char.
Definition KEY_UP : string := String ESC "[A".
Definition KEY_DOWN : string := String ESC "[B".

(** The three-character branch: [key == '\x1b'] extended by two reads. *)
Definition on_escape (options : list string) (key : string) (m : menu) : menu :=
  if String.eqb key KEY_UP && (current m >? 0)%Z
  then Menu (selected m) (current m - 1)
  else if String.eqb key KEY_DOWN && (current m <? Z.of_nat (length options) - 1)%Z
  then Menu (selected m) (current m + 1)
  else m.

Inductive key_effect :=
| Redraw (m : menu)
| Return (r : option (list string * action))
| Fails (e : exn).

(** [selected[current] = not selected[current]] *)
Definition toggle (m : menu) : key_effect :=
  match py_index (length (selected m)) (current m) with
  | Some i =>
      match selected m !! i with
      | Some b => Redraw (Menu (<[ i := negb b ]> (selected m)) (current m))
      | None => Fails index_error
      end
  | None => Fails index_error
  end.

Definition return_selected (options : list string) (m : menu) (a : action)
    : key_effect :=
  match selected_options options (selected m) with
  | Ok l => Return (Some (l, a))
  | Raise e => Fails e
  end.

(** The [elif] chain on a key that is not the escape character. *)
Definition on_key (options : list string) (key : string) (m : menu) : key_effect :=
  if String.eqb key " " then toggle m
  else if String.eqb (lower key) "a"
  then Redraw (Menu (replicate (length options) true) (current m))
  else if String.eqb (lower key) "n"
  then Redraw (Menu (replicate (length options) false) (current m))
  else if String.eqb (lower key) "q" then Return None
  else if String.eqb (lower key) "d" then return_selected options m delete
  else if String.eqb (lower key) "m" then return_selected options m archive
  else Redraw m.

(** How a call ends: with a value, waiting for input that never comes, or
    with an exception. *)
Inductive outcome (A : Type) :=
| Val (a : A)
| Blocked
| Raised (e : exn).
Arguments Val {A} a.
Arguments Blocked {A}.
Arguments Raised {A} e.

Definition redraw (options : list string) (m : menu) : list message :=
  [MsgClearPreviousMenu; MsgMenu options (selected m) (current m)].

(** The [while True] loop over the characters typed.  The result carries
    the characters not read, the messages printed and the menu state the
    loop ended in. *)
Fixpoint select_loop (options : list string) (keys : list ascii) (m : menu)
    (printed : list message)
    : outcome (option (list string * action)) * list ascii * list message * menu :=
  match keys with
  | [] => (Blocked, [], printed, m)
  | c :: keys1 =>
      if Ascii.eqb c ESC then
        match keys1 with
        | c1 :: c2 :: keys3 =>
            let key := String c (String c1 (String c2 EmptyString)) in
            let m' := on_escape options key m in
            select_loop options keys3 m' (printed ++ redraw options m')
        | _ => (Blocked, [], printed, m)
        end
      else
        match on_key options (String c EmptyString) m with
        | Redraw m' => select_loop options keys1 m' (printed ++ redraw options m')
        | Return r => (Val r, keys1, printed, m)
        | Fails e => (Raised e, keys1, printed, m)
        end
  end.

Definition initial_menu (options : list string) : menu :=
  Menu (replicate (length options) false) 0.

Definition interactive_select (options : list string) (keys : list ascii)
    : outcome (option (list string * action)) * list ascii * list message * menu :=
  let m := initial_menu options in
  select_loop options keys m [MsgMenu options (selected m) (current m)].

(** ** The machine: file system, terminal and standard input *)

(** [os.path.join(a, b)] *)
Definition path_join (a b : string) : string :=
  if startswith b "/" then b
  else if negb (truthy a) || endswith a "/" then a +:+ b
  else a +:+ "/" +:+ b.

(** The operating system.  A call returns the new state of the file system
    and the exception it raised, if any; a failed call may still have
    changed something.  [observe] is what an analysis run reads from a
    given state of the file system. *)
Record machine := Machine {
  FS : Type;
  observe : FS → system;
  os_remove : path → FS → FS * option exn;
  os_path_exists : path → FS → bool;
  os_makedirs : path → FS → FS * option exn;
  shutil_move : path → path → FS → FS * option exn
}.

Inductive prompt :=
| PromptConfirm (a : action)
| PromptFinalDelete
| PromptFinalArchive.

Inductive event :=
| EvPrint (m : message)
| EvInput (p : prompt) (answer : string)
| EvRemove (file : path)
| EvMakedirs (dir : path)
| EvMove (src dst : path).

Section Program.
Variable M : machine.
Variable CONFIG : config.
(** [__name__] of the module, and [args.dry_run] *)
Variable name : string.
Variable dry_run : bool.

Record world := World {
  fs : FS M;
  keys : list ascii;
  lines : list string;
  trace : list event
}.

Definition prog (A : Type) : Type := world → outcome A * world.

Definition ret {A} (a : A) : prog A := λ w, (Val a, w).

Definition bind {A B} (c : prog A) (k : A → prog B) : prog B :=
  λ w, match c w with
       | (Val a, w') => k a w'
       | (Blocked, w') => (Blocked, w')
       | (Raised e, w') => (Raised e, w')
       end.

Notation "x <~ c ;; k" := (bind c (λ x, k))
  (at level 100, c at next level, right associativity).
Notation "c ;;; k" := (bind c (λ _, k))
  (at level 100, right associativity).

Definition emit (e : event) : prog unit :=
  λ w, (Val tt, World (fs w) (keys w) (lines w) (trace w ++ [e])).

Definition print (m : message) : prog unit := emit (EvPrint m).

(** [input(prompt)]: the next line typed.  Without one the call does not
    return a line, and nothing after it runs. *)
Definition input (p : prompt) : prog string :=
  λ w, match lines w with
       | [] => (Blocked, w)
       | answer :: rest =>
           (Val answer, World (fs w) (keys w) rest (trace w ++ [EvInput p answer]))
       end.

(** A call into the operating system that changes the file system. *)
Definition syscall (e : event) (op : FS M → FS M * option exn) : prog (option exn) :=
  λ w, let '(fs', err) := op (fs w) in
       (Val err, World fs' (keys w) (lines w) (trace w ++ [e])).

Definition read_fs {A} (f : FS M → A) : prog A := λ w, (Val (f (fs w)), w).

Definition raise {A} (e : exn) : prog A := λ w, (Raised e, w).

(** [interactive_select], reading from the keys of the world. *)
Definition run_interactive_select (options : list string)
    : prog (option (list string * action)) :=
  λ w, let '(r, keys', printed, _) := interactive_select options (keys w) in
       (r, World (fs w) keys' (lines w) (trace w ++ (EvPrint <$> printed))).

Fixpoint delete_files (files_to_delete : list path) : prog unit :=
  match files_to_delete with
  | [] => ret tt
  | file :: rest =>
      (err <~ syscall (EvRemove file) (os_remove M file) ;;
       match err with
       | None => print (MsgDeleted file)
       | Some e => print (MsgErrorDeleting file (exn_str e))
       end) ;;;
      delete_files rest
  end.

Fixpoint move_each (files_to_move : list path) (archive_folder : path) : prog unit :=
  match files_to_move with
  | [] => ret tt
  | file :: rest =>
      (let dest := path_join archive_folder (basename file) in
       err <~ syscall (EvMove file dest) (shutil_move M file dest) ;;
       match err with
       | None => print (MsgMoved file)
       | Some e => print (MsgErrorMoving file (exn_str e))
       end) ;;;
      move_each rest archive_folder
  end.

Definition move_to_archive (files_to_move : list path) (archive_folder : path)
    : prog unit :=
  pexists <~ read_fs (os_path_exists M archive_folder) ;;
  (if negb pexists then
     err <~ syscall (EvMakedirs archive_folder) (os_makedirs M archive_folder) ;;
     match err with
     | None => ret tt
     | Some e => raise e
     end
   else ret tt) ;;;
  move_each files_to_move archive_folder.

(** The analysis as [main] calls it, on the current file system. *)
Definition run_find_unused_files (directory : path)
    : prog (gset string * gset (string * string) * gset string
            * gmap string file_info * system) :=
  λ w, let E := observe M (fs w) in
       let st := scan CONFIG E directory in
       (Val (find_unused_files CONFIG E directory, E),
        World (fs w) (keys w) (lines w) (trace w ++ (EvPrint <$> scan_printed st))).

(** [answer.lower() == 'y'] *)
Definition affirmative (answer : string) : bool := String.eqb (lower answer) "y".

(** What follows [interactive_select] inside [if unused and not
    args.dry_run].  [false] is a [return] out of [main]; [true] means the
    branch ran to its end. *)
Definition dispose (app_directory archive_path : path)
    (result : option (list string * action)) : prog bool :=
  match result with
  | None => print MsgOperationCancelled ;;; ret false
  | Some (selected_files, a) =>
      let files_to_process := path_join app_directory <$> selected_files in
      match files_to_process with
      | [] => print MsgNoFilesSelected ;;; ret false
      | _ :: _ =>
          print (MsgFilesSelected a files_to_process) ;;;
          confirm <~ input (PromptConfirm a) ;;
          (if affirmative confirm then
             match a with
             | delete =>
                 print (MsgPreparingDelete files_to_process) ;;;
                 final_confirm <~ input PromptFinalDelete ;;
                 if affirmative final_confirm then
                   delete_files files_to_process ;;;
                   print MsgCleanupComplete
                 else print MsgDeletionCancelled
             | archive =>
                 print (MsgPreparingArchive archive_path) ;;;
                 final_confirm <~ input PromptFinalArchive ;;
                 if affirmative final_confirm then
                   move_to_archive files_to_process archive_path ;;;
                   print MsgArchivingComplete
                 else print MsgArchivingCancelled
             end
           else print (MsgActionCancelled a)) ;;;
          ret true
      end
  end.

(** [main] up to, and without, its last two lines. *)
Definition main_body : prog bool :=
  app_directory <~ read_fs (λ f, getcwd (observe M f)) ;;
  let archive_path := path_join app_directory (ARCHIVE_FOLDER CONFIG) in
  print MsgBanner ;;;
  found <~ run_find_unused_files app_directory ;;
  let '(unused, problematic, large, all_files, E) := found in
  let relative := λ file, relpath E file app_directory in
  (if bool_decide (unused ≠ ∅)
   then print (MsgUnusedTable (relative <$> set_order E unused))
   else print MsgNoUnusedFound) ;;;
  (if bool_decide (problematic ≠ ∅)
   then print (MsgProblematicTable problematic)
   else ret tt) ;;;
  (if bool_decide (large ≠ ∅)
   then print (MsgLargeTable (relative <$> set_order E large))
   else ret tt) ;;;
  print MsgDisclaimer ;;;
  reached_end <~
    (if bool_decide (unused ≠ ∅) && negb dry_run then
       let relative_paths := relative <$> set_order E unused in
       print MsgTimeToDecide ;;;
       result <~ run_interactive_select relative_paths ;;
       dispose app_directory archive_path result
     else if dry_run then print MsgDryRunCompleted ;;; ret true
     else print MsgNoUnusedToProcess ;;; ret true) ;;
  if reached_end : bool then print MsgRemember ;;; ret true else ret false.

(** [main]: its body, then the last two lines of the file, which are
    indented under [def main():] and so belong to it:
    [if __name__ == "__main__": main()].  [depth] bounds how deep the calls
    of [main] may nest; when it is used up the call does not return.  The
    bound stands for the interpreter's recursion limit, which in a run is
    reached somewhere inside the deepest call: where, and with which
    exception the run then ends, is not part of this model, and nothing
    below depends on the exception recorded here. *)
Fixpoint main (depth : nat) : prog unit :=
  match depth with
  | 0 => raise (Exn RecursionError "maximum recursion depth exceeded")
  | S depth' =>
      reached_end <~ main_body ;;
      if reached_end : bool then
        if String.eqb name "__main__" then main depth' else ret tt
      else ret tt
  end.

End Program.

(** ** The module as a script

    The statements at the top level of the file, in the order in which the
    interpreter runs them when the file is executed or imported. *)

Inductive function_name :=
| f_load_config | f_parse_gitignore | f_should_ignore | f_get_imported_modules
| f_get_file_info | f_format_size | f_format_date | f_print_table | f_get_char
| f_interactive_select | f_process_file | f_find_unused_files | f_delete_files
| f_move_to_archive | f_parse_arguments | f_main.

Inductive statement :=
| Imports                             (* import os ... import termios *)
| AssignConstant                      (* REQUIRED_PYTHON_VERSION, DEFAULT_CONFIG *)
| VersionCheck                        (* if sys.version_info < ...: print x 3 *)
| PrintRunning                        (* print(f"Running PyClutterCutter ...") *)
| Def (f : function_name)             (* def f(...): binds f, runs nothing *)
| AssignConfig                        (* CONFIG = load_config() *)
| IfNameIsMain (body : list statement) (* if __name__ == "__main__": body *)
| CallMain.                           (* main() *)

(** The top level of [PyClutterCutter.py].  The file ends with
    [def main():]; the guard on [__name__] and the call of [main] are lines
    of that function's body (see [main]), not statements of this list. *)
Definition module_body : list statement :=
  [ Imports; AssignConstant; VersionCheck; PrintRunning; AssignConstant;
    Def f_load_config; AssignConfig;
    Def f_parse_gitignore; Def f_should_ignore; Def f_get_imported_modules;
    Def f_get_file_info; Def f_format_size; Def f_format_date;
    Def f_print_table; Def f_get_char; Def f_interactive_select;
    Def f_process_file; Def f_find_unused_files; Def f_delete_files;
    Def f_move_to_archive; Def f_parse_arguments; Def f_main ].

(** The same file with the last two lines moved to the top level, as the
    usual idiom has them. *)
Definition module_body_with_guard : list statement :=
  module_body ++ [ IfNameIsMain [ CallMain ] ].

Section Script.
Variable M : machine.
Variable name : string.
Variable dry_run : bool.
(** [sys.version_info < REQUIRED_PYTHON_VERSION] *)
Variable old_python : bool.
(** the content of [config.yml], when the file exists *)
Variable config_yml : option (config → config).
(** frames the interpreter allows *)
Variable depth : nat.

(** [load_config]: the defaults, overlaid with [config.yml] when it
    exists. *)
Definition load_config : config :=
  match config_yml with
  | Some overlay => overlay DEFAULT_CONFIG
  | None => DEFAULT_CONFIG
  end.

(** One statement; [CONFIG] is the value the global has at that point. *)
Fixpoint exec (s : statement) (CONFIG : config) : prog M config :=
  match s with
  | Imports | AssignConstant | Def _ => ret M CONFIG
  | VersionCheck =>
      bind M (if old_python then print M MsgVersionWarning else ret M tt)
           (λ _, ret M CONFIG)
  | PrintRunning => bind M (print M MsgRunningWithPython) (λ _, ret M CONFIG)
  | AssignConfig => ret M load_config
  | IfNameIsMain body =>
      if String.eqb name "__main__" then
        (fix exec_all (l : list statement) (CONFIG : config) : prog M config :=
           match l with
           | [] => ret M CONFIG
           | s :: l' => bind M (exec s CONFIG) (exec_all l')
           end) body CONFIG
      else ret M CONFIG
  | CallMain => bind M (main M CONFIG name dry_run depth) (λ _, ret M CONFIG)
  end.

Fixpoint exec_all (l : list statement) (CONFIG : config) : prog M config :=
  match l with
  | [] => ret M CONFIG
  | s :: l' => bind M (exec s CONFIG) (exec_all l')
  end.

(** Running the file: [python PyClutterCutter.py] when [name] is
    [__main__], an import otherwise. *)
Definition run_module : prog M config := exec_all module_body DEFAULT_CONFIG.

End Script.

Arguments World {M} fs keys lines trace.
Arguments fs {M} w.
Arguments keys {M} w.
Arguments lines {M} w.
Arguments trace {M} w.

(** The unused set the analysis finds in a world, and the options [main]
    passes to the menu for it. *)
Definition unused_found (M : machine) (CONFIG : config) (w : world M) : gset string :=
  let E := observe M (fs w) in
  unused_files (scan CONFIG E (getcwd E)).

Definition menu_options (M : machine) (CONFIG : config) (w : world M) : list string :=
  let E := observe M (fs w) in
  (λ file, relpath E file (getcwd E)) <$> set_order E (unused_found M CONFIG w).

(** [archive_path] in [main] *)
Definition archive_path_of (M : machine) (CONFIG : config) (w : world M) : path :=
  path_join (getcwd (observe M (fs w))) (ARCHIVE_FOLDER CONFIG).
Arguments ret {M A} a w.
Arguments bind {M A B} c k w.
Arguments emit {M} e w.
Arguments print {M} m w.
Arguments input {M} p w.
Arguments syscall {M} e op w.
Arguments read_fs {M A} f w.
Arguments raise {M A} e w.

(** ** Confirmation before mutation, as a monitor on the events

    The monitor follows the answers to the two prompts and accepts a call
    that changes the file system only after two affirmative answers for the
    same action. *)

Definition is_mutation (e : event) : bool :=
  match e with
  | EvRemove _ | EvMakedirs _ | EvMove _ _ => true
  | EvPrint _ | EvInput _ _ => false
  end.

Inductive guard_state :=
| NotConfirmed
| ConfirmedOnce (a : action)
| ConfirmedTwice (a : action).

Definition guard_step (s : guard_state) (e : event) : option guard_state :=
  match e with
  | EvPrint _ => Some s
  | EvInput (PromptConfirm a) answer =>
      Some (if affirmative answer then ConfirmedOnce a else NotConfirmed)
  | EvInput PromptFinalDelete answer =>
      Some (match s with
            | ConfirmedOnce delete =>
                if affirmative answer then ConfirmedTwice delete else NotConfirmed
            | _ => NotConfirmed
            end)
  | EvInput PromptFinalArchive answer =>
      Some (match s with
            | ConfirmedOnce archive =>
                if affirmative answer then ConfirmedTwice archive else NotConfirmed
            | _ => NotConfirmed
            end)
  | EvRemove _ =>
      match s with ConfirmedTwice delete => Some s | _ => None end
  | EvMakedirs _ | EvMove _ _ =>
      match s with ConfirmedTwice archive => Some s | _ => None end
  end.

Fixpoint guard_run (s : guard_state) (evs : list event) : option guard_state :=
  match evs with
  | [] => Some s
  | e :: evs' =>
      match guard_step s e with
      | Some s' => guard_run s' evs'
      | None => None
      end
  end.

(** The next two lines typed are both affirmative. *)
Definition both_affirmative (ls : list string) : Prop :=
  ∃ a1 a2 rest, ls = a1 :: a2 :: rest ∧ affirmative a1 = true ∧ affirmative a2 = true.

(** The events of one attempt on each file, with its report. *)
Definition attempts (attempt : path → event) (files : list path)
    (reports : list message) : list event :=
  mjoin (zip_with (λ file report, [ attempt file; EvPrint report ]) files reports).

Definition delete_report (file : path) (report : message) : Prop :=
  report = MsgDeleted file ∨ ∃ err, report = MsgErrorDeleting file err.

Definition move_report (file : path) (report : message) : Prop :=
  report = MsgMoved file ∨ ∃ err, report = MsgErrorMoving file err.
(** ** A project tree to run the analysis on

    [/proj] holds two files named [app.py], a helper, a large file and the
    tool itself.  The first [app.py] imports [os] (found), [requests] (not
    installed: [find_spec] returns [None]), [nspkg] (a namespace package,
    found without origin) and [broken] (whose lookup raises [ImportError]);
    the second imports [big].  No file imports [helpers] or [unrelated].
    For [__main__] the lookup raises [ValueError], as it does in a script
    that is run directly; any other name, the empty one included, is not
    found. *)

Definition ex_app_tree : node :=
  Other [ Import [ Alias "os" None; Alias "requests" None ];
          Other [ Import [ Alias "nspkg.part" None ];
                  ImportFrom (Some "broken") [ Alias "thing" (Some "t") ] 0 ] ].

Definition ex_old_app_tree : node :=
  Other [ ImportFrom (Some "big") [ Alias "table" None; Alias "rows" None ] 0 ].

Definition ex_find_spec (name : string) : result (option module_spec) :=
  if String.eqb name "os" then Ok (Some (ModuleSpec (Some "/usr/lib/python3/os.py")))
  else if String.eqb name "big" then Ok (Some (ModuleSpec (Some "/proj/big.py")))
  else if String.eqb name "nspkg" then Ok (Some (ModuleSpec None))
  else if String.eqb name "broken" then Raise (Exn ImportError "cannot import broken")
  else if String.eqb name "__main__"
  then Raise (Exn ValueError "__main__.__spec__ is None")
  else Ok None.

Definition ex_relpath (p start : string) : string :=
  if String.prefix (start +:+ "/") p
  then String.substring (S (String.length start))
                        (String.length p - S (String.length start)) p
  else p.

Definition ex_tree_files : list path :=
  [ "/proj/app.py"; "/proj/helpers.py"; "/proj/notes.txt";
    "/proj/PyClutterCutter.py"; "/proj/big.py"; "/proj/unrelated.py";
    "/proj/old/app.py" ].

(** What the analysis reads when the files [present] exist. *)
Definition ex_sys_on (present : gset string) : system := {|
  current_script := "/proj/PyClutterCutter.py";
  os_walk := λ _, filter (λ p, p ∈ present) ex_tree_files;
  parse_gitignore := λ _, ∅;
  getcwd := "/proj";
  relpath := ex_relpath;
  fnmatch := λ _ _, false;
  stat := λ p, if String.eqb p "/proj/big.py" then FileInfo (1024 * 1024 + 1) "c" "m"
               else if String.eqb p "/proj/app.py" then FileInfo (1024 * 1024) "c" "m"
               else FileInfo 100 "c" "m";
  read_and_parse := λ p, if String.eqb p "/proj/app.py" then Ok ex_app_tree
                         else if String.eqb p "/proj/old/app.py" then Ok ex_old_app_tree
                         else Ok (Other []);
  find_spec := ex_find_spec;
  set_order := elements;
  set_order_perm := λ s, reflexivity (elements s)
|}.

Definition ex_sys : system := ex_sys_on (list_to_set ex_tree_files).

Definition no_such_file : exn := Exn OSError "No such file or directory".

(** A file system that is just the set of existing paths. *)
Definition ex_machine : machine := {|
  FS := gset string;
  observe := ex_sys_on;
  os_remove := λ p present,
    if bool_decide (p ∈ present) then (present ∖ {[ p ]}, None)
    else (present, Some no_such_file);
  os_path_exists := λ p present, bool_decide (p ∈ present);
  os_makedirs := λ p present, (present ∪ {[ p ]}, None);
  shutil_move := λ src dst present,
    if bool_decide (src ∈ present) then (present ∖ {[ src ]} ∪ {[ dst ]}, None)
    else (present, Some no_such_file)
|}.

Definition ex_world (ks : list ascii) (ls : list string) : world ex_machine :=
  World (M := ex_machine) (list_to_set ex_tree_files) ks ls [].

(** ** The claims about the scan, as the specification words them *)

(** The files of the inventory that carry the entry basename, in the order
    of the traversal. *)
Definition entry_candidates (CONFIG : config) (E : system) (directory : path)
    : list path :=
  omap (λ r, match r with
             | Some (file_path, _, true) => Some file_path
             | _ => None
             end)
       (scan_results CONFIG E directory).

(** Resolution fails: the lookup raises, finds nothing, or finds a module
    without origin. *)
Definition resolution_fails (E : system) (import_name : string) : Prop :=
  match find_spec E (split_dot_head import_name) with
  | Ok spec => spec_origin spec = None
  | Raise _ => True
  end.

(** Worded from the specification: every import name of an entry file
    whose resolution fails is recorded, with a reason, among the
    problematic imports. *)
Definition failures_recorded (CONFIG : config) (E : system) (directory : path)
    : Prop :=
  ∀ file_path tree import_name,
    file_path ∈ entry_candidates CONFIG E directory →
    read_and_parse E file_path = Ok tree →
    import_name ∈ imports_of_tree tree →
    resolution_fails E import_name →
    ∃ reason, (import_name, reason) ∈ problematic_imports (scan CONFIG E directory).

(** Worded from the specification: the last candidate met during the
    traversal is the entry file; the used set is that file and what its
    imports resolve to. *)
Definition used_if_last_entry_wins (CONFIG : config) (E : system) (directory : path)
    : gset string :=
  match last (entry_candidates CONFIG E directory) with
  | Some entry => used_files (process_main E entry initial_scan)
  | None => ∅
  end.

(** Options, keys and a batch of files for the example tree. *)
Definition ex_options : list string := [ "unrelated.py"; "helpers.py" ].

Definition ex_keys : list ascii :=
  [ " "; ESC; "["; "B"; ESC; "["; "B"; " "; "a"; "x"; ESC; "["; "A"; "n"; " " ]%char.

Definition ex_batch : list path :=
  [ "/proj/helpers.py"; "/proj/gone.py"; "/proj/unrelated.py" ].

(** ** Invariants and properties of programs *)

(** The large set holds exactly the inventoried files over the threshold,
    and the inventory records for each file what [os.stat] gave. *)
Definition large_inv (CONFIG : config) (E : system) (st : scan_state) : Prop :=
  (∀ p, p ∈ large_files st ↔
     p ∈ dom (all_files st) ∧ (size (stat E p) > SIZE_THRESHOLD CONFIG)%Z)
  ∧ (∀ p info, all_files st !! p = Some info → info = stat E p).

(** The invariant of the selection state. *)
Definition menu_ok (options : list string) (m : menu) : Prop :=
  length (selected m) = length options
  ∧ (0 ≤ current m < Z.of_nat (length options))%Z
  ∧ (0 ≤ sum_selected (selected m) ≤ Z.of_nat (length options))%Z.

(** Accepted by the monitor, whatever state it starts in. *)
Definition accepted (evs : list event) : Prop := ∀ s, is_Some (guard_run s evs).

(** A program that only prints: the file system and the pending input lines
    are as before. *)
Definition quiet {M : machine} {A : Type} (c : prog M A) : Prop :=
  ∀ w, fs (c w).2 = fs w ∧ lines (c w).2 = lines w
       ∧ ∃ ms, trace (c w).2 = trace w ++ (EvPrint <$> ms).

(** A program whose events the monitor accepts. *)
Definition safe {M : machine} {A : Type} (c : prog M A) : Prop :=
  ∀ w, ∃ evs, trace (c w).2 = trace w ++ evs ∧ accepted evs.

(** A program that, besides, leaves the file system alone unless the next
    two lines typed are affirmative. *)
Definition confirmed {M : machine} {A : Type} (c : prog M A) : Prop :=
  ∀ w, ∃ evs, trace (c w).2 = trace w ++ evs ∧ accepted evs
    ∧ (¬ both_affirmative (lines w) →
         fs (c w).2 = fs w ∧ Forall (λ e, is_mutation e = false) evs).

(** A program that changes the file system only through calls that leave
    an event. *)
Definition traced {M : machine} {A : Type} (c : prog M A) : Prop :=
  ∀ w, ∃ evs, trace (c w).2 = trace w ++ evs
    ∧ (Forall (λ e, is_mutation e = false) evs → fs (c w).2 = fs w).

(** The world after some more messages. *)
Definition say {M : machine} (w : world M) (ms : list message) : world M :=
  World (fs w) (keys w) (lines w) (trace w ++ (EvPrint <$> ms)).

(** The call [move_to_archive] makes for one file. *)
Definition move_event (archive_folder : path) (file : path) : event :=
  EvMove file (path_join archive_folder (basename file)).

(** What the top level of the file prints. *)
Definition startup_events (old_python : bool) : list event :=
  (if old_python then [ EvPrint MsgVersionWarning ] else [])
  ++ [ EvPrint MsgRunningWithPython ].

(** ** Further vocabulary for the scan *)

(** The conditions under which a walked path enters the inventory. *)
Definition inventoried (CONFIG : config) (E : system) (directory : path)
    (p : path) : Prop :=
  p ∈ os_walk E directory
  ∧ ¬ (EXCLUDE_SELF CONFIG = true ∧ p = current_script E)
  ∧ should_ignore E p (parse_gitignore E directory) (IGNORE_DIRS CONFIG) = false
  ∧ ∃ ext, ext ∈ EXTENSIONS CONFIG ∧ endswith p ext = true.

(** The same environment with another traversal. *)
Definition with_walk (E : system) (walk : path → list path) : system :=
  System (current_script E) walk (parse_gitignore E) (getcwd E) (relpath E)
         (fnmatch E) (stat E) (read_and_parse E) (find_spec E)
         (set_order E) (set_order_perm E).

(** The same environment with other file contents. *)
Definition with_parse (E : system) (parse : path → result node) : system :=
  System (current_script E) (os_walk E) (parse_gitignore E) (getcwd E) (relpath E)
         (fnmatch E) (stat E) parse (find_spec E)
         (set_order E) (set_order_perm E).

(** The example tree when the configured entry name is [main.py], which no
    file carries. *)
Definition ex_config_no_entry : config :=
  Config "main.py" (IGNORE_DIRS DEFAULT_CONFIG) (EXTENSIONS DEFAULT_CONFIG)
         (SIZE_THRESHOLD DEFAULT_CONFIG) (EXCLUDE_SELF DEFAULT_CONFIG)
         (ARCHIVE_FOLDER DEFAULT_CONFIG) (USE_PARALLEL DEFAULT_CONFIG)
         (MAX_THREADS DEFAULT_CONFIG).

(** An entry file that imports [__main__]: in a script that is run
    directly [__main__.__spec__] is [None], and [find_spec] raises
    [ValueError] for that name. *)
Definition ex_stray_tree : node :=
  Other [ Import [ Alias "os" None ];
          Import [ Alias "__main__" None ];
          Import [ Alias "big" None ] ].

Definition ex_sys_stray : system :=
  with_parse ex_sys (λ _, Ok ex_stray_tree).

(** The example tree when no file parses. *)
Definition ex_sys_broken_entry : system :=
  with_parse ex_sys (λ _, Raise (Exn SyntaxError "invalid syntax")).

(** The example tree walked in the opposite order. *)
Definition ex_sys_reversed : system :=
  with_walk ex_sys (λ d, reverse (os_walk ex_sys d)).

(** ** Further vocabulary for the menu *)

(** The options whose flag is set, in menu order. *)
Fixpoint flagged (options : list string) (flags : list bool) : list string :=
  match options, flags with
  | o :: options', b :: flags' =>
      if b then o :: flagged options' flags' else flagged options' flags'
  | _, _ => []
  end.

(** The keys that end the menu: q, d and m, in either case. *)
Definition terminating (c : ascii) : bool :=
  Ascii.eqb (lower_char c) "q" || Ascii.eqb (lower_char c) "d"
  || Ascii.eqb (lower_char c) "m".

(** ** Further vocabulary for the disposition *)

(** The answers read at the prompts, in order. *)
Definition answers (evs : list event) : list string :=
  omap (λ e, match e with EvInput _ answer => Some answer | _ => None end) evs.

(** The calls into the file system an event may stand for, when only the
    files in [S] may be removed or moved and [archive_path] is the
    archive. *)
Definition targets_ok (S : path → Prop) (archive_path : path) (e : event) : Prop :=
  match e with
  | EvRemove file => S file
  | EvMove file dest => S file ∧ dest = path_join archive_path (basename file)
  | EvMakedirs dir => dir = archive_path
  | EvPrint _ | EvInput _ _ => True
  end.

(** A program all of whose calls into the file system are of that kind. *)
Definition targets {M : machine} {A : Type} (S : path → Prop) (archive_path : path)
    (c : prog M A) : Prop :=
  ∀ w, ∃ evs, trace (c w).2 = trace w ++ evs ∧ Forall (targets_ok S archive_path) evs.

(** What [main] prints last before it falls through to its final lines
    without having shown the menu. *)
Definition no_menu_message (dry_run : bool) : message :=
  if dry_run then MsgDryRunCompleted else MsgNoUnusedToProcess.

(** The events of a confirmed action up to the batch. *)
Definition confirmed_prefix (a : action) (files : list path) (archive_path : path)
    (a1 a2 : string) : list event :=
  match a with
  | delete =>
      [ EvPrint (MsgFilesSelected delete files); EvInput (PromptConfirm delete) a1;
        EvPrint (MsgPreparingDelete files); EvInput PromptFinalDelete a2 ]
  | archive =>
      [ EvPrint (MsgFilesSelected archive files); EvInput (PromptConfirm archive) a1;
        EvPrint (MsgPreparingArchive archive_path); EvInput PromptFinalArchive a2 ]
  end.

(** ** Tables: [print_table]

    Where the length of a [str] is what matters, the string is the list of
    its code points. *)

Definition text := list N.

Definition NEWLINE : N := 10.
Definition SPACE : N := 32.
Definition COLON : N := 58.
Definition BOX_HORIZONTAL : N := 9472.   (* U+2500 *)
Definition BOX_VERTICAL : N := 9474.     (* U+2502 *)
Definition BOX_TOP_LEFT : N := 9484.     (* U+250C *)
Definition BOX_TOP_RIGHT : N := 9488.    (* U+2510 *)
Definition BOX_TOP_TEE : N := 9516.      (* U+252C *)
Definition BOX_LEFT_TEE : N := 9500.     (* U+251C *)
Definition BOX_RIGHT_TEE : N := 9508.    (* U+2524 *)
Definition BOX_CROSS : N := 9532.        (* U+253C *)
Definition BOX_BOTTOM_LEFT : N := 9492.  (* U+2514 *)
Definition BOX_BOTTOM_RIGHT : N := 9496. (* U+2518 *)
Definition BOX_BOTTOM_TEE : N := 9524.   (* U+2534 *)

(** [sep.join(parts)] *)
Fixpoint join (sep : text) (parts : list text) : text :=
  match parts with
  | [] => []
  | part :: rest =>
      match rest with
      | [] => part
      | _ :: _ => part ++ sep ++ join sep rest
      end
  end.

(** [f"{col:<{width}}"] for a [str]: spaces are added on the right up to
    [width] and nothing is cut; a negative width is not a format
    specifier. *)
Definition format_left (col : text) (width : Z) : result text :=
  if (width <? 0)%Z
  then Raise (Exn ValueError "Sign not allowed in string format specifier")
  else Ok (col ++ replicate (Z.to_nat width - length col) SPACE).

(** The generator over [zip(columns, widths)], consumed by [join]. *)
Fixpoint format_cells (columns : list text) (widths : list Z) : result (list text) :=
  match columns, widths with
  | col :: columns', width :: widths' =>
      match format_left col width with
      | Ok cell =>
          match format_cells columns' widths' with
          | Ok cells => Ok (cell :: cells)
          | Raise e => Raise e
          end
      | Raise e => Raise e
      end
  | _, _ => Ok []
  end.

Definition print_row (columns : list text) (widths : list Z) : result text :=
  match format_cells columns widths with
  | Ok cells =>
      Ok ([ BOX_VERTICAL; SPACE ] ++ join [ SPACE; BOX_VERTICAL; SPACE ] cells
          ++ [ SPACE; BOX_VERTICAL ])
  | Raise e => Raise e
  end.

(** [horizontal] keeps its default at every call. *)
Definition print_separator (widths : list Z) (corner_left corner_right intersection : N)
    : text :=
  [ corner_left ]
  ++ join [ intersection ] ((λ w, replicate (Z.to_nat (w + 2)) BOX_HORIZONTAL) <$> widths)
  ++ [ corner_right ].

(** [sum(widths) + len(widths) * 3 + 1], which [print_table] computes and
    does not use. *)
Definition total_width (widths : list Z) : Z :=
  (foldl Z.add 0 widths + Z.of_nat (length widths) * 3 + 1)%Z.

(** The [for row in rows] loop: the lines printed, and the exception that
    ended it, if any. *)
Fixpoint print_rows (rows : list (list text)) (widths : list Z)
    : list text * option exn :=
  match rows with
  | [] => ([], None)
  | row :: rows' =>
      match print_row row widths with
      | Ok line =>
          let '(lines, err) := print_rows rows' widths in (line :: lines, err)
      | Raise e => ([], Some e)
      end
  end.

(** [print_table]: what [print] is called with, in order, and the
    exception that ended the call, if any. *)
Definition print_table (title : text) (headers : list text) (rows : list (list text))
    (widths : list Z) : list text * option exn :=
  let top := [ [ NEWLINE ] ++ title ++ [ COLON ];
               print_separator widths BOX_TOP_LEFT BOX_TOP_RIGHT BOX_TOP_TEE ] in
  match print_row headers widths with
  | Raise e => (top, Some e)
  | Ok header_line =>
      let middle := [ header_line;
                      print_separator widths BOX_LEFT_TEE BOX_RIGHT_TEE BOX_CROSS ] in
      match print_rows rows widths with
      | (lines, Some e) => (top ++ middle ++ lines, Some e)
      | (lines, None) =>
          (top ++ middle ++ lines
           ++ [ print_separator widths BOX_BOTTOM_LEFT BOX_BOTTOM_RIGHT BOX_BOTTOM_TEE ],
           None)
      end
  end.

(** A row whose cells all fit their columns, one cell for each column. *)
Definition fits (columns : list text) (widths : list Z) : Prop :=
  Forall2 (λ (col : text) (width : Z), (Z.of_nat (length col) ≤ width)%Z) columns widths.

(** A small table, and a row whose first cell is too long for it. *)
Definition ex_widths : list Z := [ 6; 4 ]%Z.
Definition ex_headers : list text := [ [ 70; 105; 108; 101 ]; [ 83; 105; 122; 101 ] ]%N.
Definition ex_rows : list (list text) :=
  [ [ [ 97; 46; 112; 121 ]; [ 49; 32; 66 ] ];
    [ [ 98; 46; 112; 121 ]; [ 50; 32; 75; 66 ] ] ]%N.
Definition ex_long_row : list text :=
  [ [ 108; 111; 110; 103; 101; 114; 46; 112; 121 ]; [ 49; 32; 66 ] ]%N.

(** ** Sizes: [format_size]

    [size] is an [int] at the call and a [float] from the first division
    on.  It is held here as the fraction [numerator / denominator]: the
    divisions by [1024.0] are exact in floating point for every size below
    [2 ^ 53]. *)

Record fraction := Fraction { numerator : N; denominator : N }.

(** [size < 1024.0] *)
Definition below_1024 (size : fraction) : bool :=
  (numerator size <? 1024 * denominator size)%N.

(** [size /= 1024.0] *)
Definition div_1024 (size : fraction) : fraction :=
  Fraction (numerator size) (denominator size * 1024).

(** [f"{size:.2f}"] gives the decimal with two places nearest to the value,
    a tie going to the even last digit.  [hundredths] is that decimal
    times one hundred. *)
Definition hundredths (size : fraction) : N :=
  let n := (100 * numerator size)%N in
  let d := denominator size in
  let q := (n / d)%N in
  let r := (n mod d)%N in
  if (d <? 2 * r)%N then (q + 1)%N
  else if (2 * r =? d)%N && N.odd q then (q + 1)%N
  else q.

Definition two_digits (x : N) : string :=
  if (x <? 10)%N then "0" +:+ pretty x else pretty x.

(** The digits of a number of hundredths, followed by the unit. *)
Definition shown (h : N) (unit : string) : string :=
  pretty (h / 100)%N +:+ "." +:+ two_digits (h mod 100)%N +:+ " " +:+ unit.

(** The [for unit in ...] loop, and the [return] after it. *)
Fixpoint format_size_loop (units : list string) (size : fraction) : string :=
  match units with
  | [] => shown (hundredths size) "TB"
  | unit :: units' =>
      if below_1024 size then shown (hundredths size) unit
      else format_size_loop units' (div_1024 size)
  end.

Definition format_size (size : N) : string :=
  format_size_loop [ "B"; "KB"; "MB"; "GB" ] (Fraction size 1).

(** The units in the order the function goes through them. *)
Definition size_units : list string := [ "B"; "KB"; "MB"; "GB"; "TB" ].

(** ** The ignore file: [parse_gitignore]

    The function as it is written, on the lines of [.gitignore] when the
    file exists.  The analysis above takes its result from the environment
    ([parse_gitignore] of [system]). *)

(** The characters for which [str.isspace] holds. *)
Definition WHITESPACE : list N :=
  [ 9; 10; 11; 12; 13; 28; 29; 30; 31; 32; 133; 160; 5760; 8192; 8193; 8194; 8195;
    8196; 8197; 8198; 8199; 8200; 8201; 8202; 8232; 8233; 8239; 8287; 12288 ]%N.

Definition isspace (c : N) : bool := bool_decide (c ∈ WHITESPACE).

Fixpoint lstrip (s : text) : text :=
  match s with
  | c :: s' => if isspace c then lstrip s' else s
  | [] => []
  end.

Definition rstrip (s : text) : text := reverse (lstrip (reverse s)).

(** [line.strip()] *)
Definition strip (s : text) : text := rstrip (lstrip s).

Definition HASH : N := 35.

(** [line.startswith('#')] *)
Definition is_comment (line : text) : bool :=
  match line with
  | c :: _ => (c =? HASH)%N
  | [] => false
  end.

(** The body of [for line in gitignore_file]. *)
Definition add_line (ignore_patterns : gset text) (line : text) : gset text :=
  let line := strip line in
  if bool_decide (line ≠ []) && negb (is_comment line)
  then ignore_patterns ∪ {[ line ]}
  else ignore_patterns.

(** [gitignore_file] is [None] when [.gitignore] does not exist. *)
Definition parse_gitignore_lines (gitignore_file : option (list text)) : gset text :=
  match gitignore_file with
  | Some lines => foldl add_line ∅ lines
  | None => ∅
  end.

(** ** The operations of the menu, as the specification words them *)

Inductive operation :=
| MoveUp
| MoveDown
| ToggleCurrent
| SelectAll
| DeselectAll
| NoOperation.

(** Up and down move the cursor by one and stop at the first and at the
    last option, without wrapping around; toggle flips the flag under the
    cursor; select-all and deselect-all set and clear every flag. *)
Definition operate (options : list string) (op : operation) (m : menu) : menu :=
  match op with
  | MoveUp => Menu (selected m) (Z.max 0 (current m - 1))
  | MoveDown =>
      Menu (selected m) (Z.min (Z.of_nat (length options) - 1) (current m + 1))
  | ToggleCurrent =>
      Menu (alter negb (Z.to_nat (current m)) (selected m)) (current m)
  | SelectAll => Menu (replicate (length options) true) (current m)
  | DeselectAll => Menu (replicate (length options) false) (current m)
  | NoOperation => m
  end.

(** The operation a key stands for: space toggles, [a] selects all, [n]
    deselects all, any other key but [q], [d] and [m] does nothing.
    [None] for the three keys that end the menu. *)
Definition operation_of_key (c : ascii) : option operation :=
  if Ascii.eqb c " " then Some ToggleCurrent
  else if Ascii.eqb (lower_char c) "a" then Some SelectAll
  else if Ascii.eqb (lower_char c) "n" then Some DeselectAll
  else if terminating c then None
  else Some NoOperation.

(** The two characters after an escape character: [[A] is the up arrow,
    [[B] the down arrow. *)
Definition operation_of_escape (c1 c2 : ascii) : operation :=
  if Ascii.eqb c1 "[" && Ascii.eqb c2 "A" then MoveUp
  else if Ascii.eqb c1 "[" && Ascii.eqb c2 "B" then MoveDown
  else NoOperation.

(** The operations a sequence of characters stands for, up to the key that
    ends the menu or to the end of the input. *)
Fixpoint operations (keys : list ascii) : list operation :=
  match keys with
  | [] => []
  | c :: keys1 =>
      if Ascii.eqb c ESC then
        match keys1 with
        | c1 :: c2 :: keys3 => operation_of_escape c1 c2 :: operations keys3
        | _ => []
        end
      else
        match operation_of_key c with
        | Some op => op :: operations keys1
        | None => []
        end
  end.

(** The states a sequence of operations leads through, one after each
    operation. *)
Fixpoint states (options : list string) (ops : list operation) (m : menu)
    : list menu :=
  match ops with
  | [] => []
  | op :: ops' => operate options op m :: states options ops' (operate options op m)
  end.

(** ** What a batch leaves *)

(** One call of [op] on each file in order, each on the file system the
    call before it left, whatever that call gave: the file system after the
    last call, and for each call its report, of success when the call
    returned and of failure, with the text of the exception, when it
    raised. *)
Fixpoint batch {M : machine} (op : path → FS M → FS M * option exn)
    (succeeded : path → message) (failed : path → string → message)
    (files : list path) (fs0 : FS M) : FS M * list message :=
  match files with
  | [] => (fs0, [])
  | file :: rest =>
      let call := op file fs0 in
      let report := match call.2 with
                    | None => succeeded file
                    | Some e => failed file (exn_str e)
                    end in
      let after := batch op succeeded failed rest call.1 in
      (after.1, report :: after.2)
  end.

(** The call [move_to_archive] makes for one file. *)
Definition move_call (M : machine) (archive_folder : path) (file : path)
    : FS M → FS M * option exn :=
  shutil_move M file (path_join archive_folder (basename file)).

(** ** Helper lemmas on the extractor *)

Lemma walk_all_concat (l : list node) :
  (fix walk_all (l : list node) : list node :=
     match l with
     | [] => []
     | c :: l' => walk c ++ walk_all l'
     end) l = mjoin (walk <$> l).
Proof. induction l as [|c l IH]; simpl; [done | by rewrite IH]. Qed.

Lemma walk_Other children :
  walk (Other children) = Other children :: mjoin (walk <$> children).
Proof. simpl. by rewrite walk_all_concat. Qed.

(** Induction on trees, with the hypothesis available for every child. *)
Lemma node_ind_children (P : node → Prop) :
  (∀ names, P (Import names)) →
  (∀ m names lvl, P (ImportFrom m names lvl)) →
  (∀ children, Forall P children → P (Other children)) →
  ∀ n, P n.
Proof.
  intros HI HF HO. fix IH 1. intros [names | m names lvl | children].
  - apply HI.
  - apply HF.
  - apply HO. induction children as [|c cs IHcs]; constructor; [apply IH | apply IHcs].
Qed.

Lemma elem_of_walk (n tree : node) : n ∈ walk tree ↔ occurs n tree.
Proof.
  split.
  - revert n. induction tree as [names | m names lvl | children IH]
      using node_ind_children; intros n Hn.
    + apply list_elem_of_singleton in Hn as ->. constructor.
    + apply list_elem_of_singleton in Hn as ->. constructor.
    + rewrite walk_Other in Hn. apply elem_of_cons in Hn as [-> | Hn]; [constructor |].
      apply list_elem_of_join in Hn as (l & Hn & Hl).
      apply list_elem_of_fmap in Hl as (c & -> & Hc).
      rewrite Forall_forall in IH.
      eapply occurs_child; [exact Hc | by apply IH].
  - induction 1 as [| children c Hc _ IH].
    + destruct n; simpl; left.
    + rewrite walk_Other. right. apply list_elem_of_join.
      exists (walk c). split; [done |]. apply list_elem_of_fmap. eauto.
Qed.

Lemma elem_of_foldl_add {A} (f : A → string) (acc : gset string) (l : list A) x :
  x ∈ foldl (λ acc a, acc ∪ {[ f a ]}) acc l ↔ x ∈ acc ∨ ∃ a, a ∈ l ∧ x = f a.
Proof.
  revert acc. induction l as [|a l IH]; intros acc; simpl.
  - split; [auto | intros [? | (a & Ha & _)]; [done | by apply elem_of_nil in Ha]].
  - rewrite IH. split.
    + intros [[H | H]%elem_of_union | (b & Hb & ->)].
      * by left.
      * apply elem_of_singleton in H as ->. right. exists a. split; [left | done].
      * right. exists b. split; [by right | done].
    + intros [H | (b & Hb & ->)].
      * left. apply elem_of_union. by left.
      * apply elem_of_cons in Hb as [-> | Hb]; [| right; eauto].
        left. apply elem_of_union. right. by apply elem_of_singleton.
Qed.

Lemma elem_of_add_node_imports imports n x :
  x ∈ add_node_imports imports n ↔ x ∈ imports ∨ contributes n x.
Proof.
  destruct n as [names | m names lvl | children]; simpl.
  - apply elem_of_foldl_add.
  - apply (elem_of_foldl_add (λ a, from_module m +:+ "." +:+ alias_name a)).
  - tauto.
Qed.

Lemma elem_of_foldl_add_node imports (l : list node) x :
  x ∈ foldl add_node_imports imports l ↔ x ∈ imports ∨ ∃ n, n ∈ l ∧ contributes n x.
Proof.
  revert imports. induction l as [|n l IH]; intros imports; simpl.
  - split; [auto | intros [? | (n & Hn & _)]; [done | by apply elem_of_nil in Hn]].
  - rewrite IH, elem_of_add_node_imports. split.
    + intros [[H | H] | (n' & Hn' & H)]; [by left | right ..].
      * exists n. split; [left | done].
      * exists n'. split; [by right | done].
    + intros [H | (n' & Hn' & H)]; [by left; left |].
      apply elem_of_cons in Hn' as [-> | Hn']; [by left; right | right; eauto].
Qed.

Lemma elem_of_imports_of_tree tree x :
  x ∈ imports_of_tree tree ↔ ∃ n, occurs n tree ∧ contributes n x.
Proof.
  unfold imports_of_tree. rewrite elem_of_foldl_add_node. split.
  - intros [H | (n & Hn & H)]; [set_solver |]. exists n. by rewrite <- elem_of_walk.
  - intros (n & Hn & H). right. exists n. by rewrite elem_of_walk.
Qed.

(** ** Facts about the scan *)

(** The resolver's [except] clause names exactly the three classes. *)
Lemma caught_by_resolver_spec (e : exn) :
  caught_by_resolver e = true ↔ import_failure e.
Proof.
  unfold caught_by_resolver, import_failure.
  destruct (exn_cls e); split; intros H; try done; try tauto;
    destruct H as [H | [H | H]]; discriminate.
Qed.

Lemma not_caught_by_resolver_spec (e : exn) :
  caught_by_resolver e = false ↔ ¬ import_failure e.
Proof.
  rewrite <- caught_by_resolver_spec. by destruct (caught_by_resolver e).
Qed.

Section ScanFacts.
Variable CONFIG : config.
Variable E : system.

Lemma elem_of_set_order (s : gset string) x : x ∈ set_order E s ↔ x ∈ s.
Proof. by rewrite (set_order_perm E s), elem_of_elements. Qed.

(** One import name: what the iteration does to the four collections. *)
Lemma resolve_import_spec import_name st :
  no_stray_exception E import_name →
  ∃ st', resolve_import E import_name st = (st', None)
    ∧ (∀ p, p ∈ used_files st' ↔ p ∈ used_files st ∨ resolves_to E import_name p)
    ∧ (∀ n r, (n, r) ∈ problematic_imports st' ↔
         (n, r) ∈ problematic_imports st ∨ (n = import_name ∧ fails_with E n r))
    ∧ all_files st' = all_files st
    ∧ large_files st' = large_files st
    ∧ scan_printed st' = scan_printed st.
Proof.
  intros Hstray. unfold resolve_import, resolves_to, fails_with.
  pose proof (Hstray) as Hcaught. unfold no_stray_exception in Hcaught.
  destruct (find_spec E (split_dot_head import_name)) as [spec | e] eqn:Hfs.
  - assert (Hnofail : ∀ n r, n = import_name ∧
              (∃ e, find_spec E (split_dot_head n) = Raise e
                    ∧ import_failure e ∧ r = exn_str e) → False).
    { intros n r (-> & e & He & _). congruence. }
    destruct (spec_origin spec) as [o |] eqn:Ho; eexists; (split; [reflexivity |]);
      simpl; (split; [| split; [| done]]).
    + intros p. rewrite elem_of_union, elem_of_singleton. split.
      * intros [H | ->]; [by left | right; eauto].
      * intros [H | (spec' & [= <-] & H)]; [by left | right; congruence].
    + intros n r. split; [by left | intros [H | H]; [done | destruct (Hnofail n r H)]].
    + intros p. split; [by left |].
      intros [H | (spec' & [= <-] & H)]; [done | congruence].
    + intros n r. split; [by left | intros [H | H]; [done | destruct (Hnofail n r H)]].
  - rewrite (proj2 (caught_by_resolver_spec e) (Hcaught e eq_refl)).
    eexists. split; [reflexivity |].
    simpl. split; [| split; [| done]].
    + intros p. split; [by left |].
      intros [H | (spec & He & _)]; [done | discriminate].
    + intros n r. rewrite elem_of_union, elem_of_singleton. split.
      * intros [H | [= -> ->]]; [by left |]. right. split; [done |].
        exists e. auto.
      * intros [H | (-> & e' & He & _ & ->)]; [by left |].
        right. congruence.
Qed.

(** The loop over the import names, when no stray exception leaves it. *)
Lemma resolve_imports_spec imports st :
  Forall (no_stray_exception E) imports →
  ∃ st', resolve_imports E imports st = (st', None)
    ∧ (∀ p, p ∈ used_files st' ↔
         p ∈ used_files st ∨ ∃ n, n ∈ imports ∧ resolves_to E n p)
    ∧ (∀ n r, (n, r) ∈ problematic_imports st' ↔
         (n, r) ∈ problematic_imports st ∨ (n ∈ imports ∧ fails_with E n r))
    ∧ all_files st' = all_files st
    ∧ large_files st' = large_files st
    ∧ scan_printed st' = scan_printed st.
Proof.
  intros Hall. revert st. induction Hall as [| n rest Hn Hrest IH]; intros st.
  - exists st. simpl. repeat split; try tauto.
    + intros [H | (n & Hn & _)]; [done | by apply elem_of_nil in Hn].
    + intros [H | (Hn & _)]; [done | by apply elem_of_nil in Hn].
  - destruct (resolve_import_spec n st Hn) as (st1 & Heq & Hu & Hp & Ha & Hl & Hpr).
    destruct (IH st1) as (st2 & Heq2 & Hu2 & Hp2 & Ha2 & Hl2 & Hpr2).
    exists st2. simpl. rewrite Heq, Heq2.
    split; [done |]. split; [| split; [| by rewrite Ha2, Hl2, Hpr2]].
    + intros p. rewrite Hu2, Hu. split.
      * intros [[H | H] | (m & Hm & H)]; [by left | right; exists n | right; exists m];
          (split; [| done]); [left | by right].
      * intros [H | (m & Hm & H)]; [by left; left |].
        apply elem_of_cons in Hm as [-> | Hm]; [by left; right | right; eauto].
    + intros m r. rewrite Hp2, Hp. split.
      * intros [[H | [-> H]] | [Hm H]]; [by left | right; split; [left | done] |].
        right. split; [by right | done].
      * intros [H | [Hm H]]; [by left; left |].
        apply elem_of_cons in Hm as [-> | Hm]; [by left; right | by right].
Qed.

(** Whatever happens, an iteration leaves the inventory and the large set
    alone and only adds to the other two. *)
Lemma resolve_import_grows import_name st :
  let st' := (resolve_import E import_name st).1 in
  used_files st ⊆ used_files st'
  ∧ problematic_imports st ⊆ problematic_imports st'
  ∧ all_files st' = all_files st ∧ large_files st' = large_files st.
Proof.
  unfold resolve_import.
  destruct (find_spec E (split_dot_head import_name)) as [spec | e].
  - destruct (spec_origin spec); simpl; repeat split; set_solver.
  - destruct (caught_by_resolver e); simpl; repeat split; set_solver.
Qed.

Lemma resolve_imports_grows imports st :
  let st' := (resolve_imports E imports st).1 in
  used_files st ⊆ used_files st'
  ∧ problematic_imports st ⊆ problematic_imports st'
  ∧ all_files st' = all_files st ∧ large_files st' = large_files st.
Proof.
  revert st. induction imports as [| n rest IH]; intros st; simpl; [done |].
  pose proof (resolve_import_grows n st) as (Hu & Hp & Ha & Hl).
  destruct (resolve_import E n st) as [st1 [e |]]; simpl in *; [done |].
  destruct (IH st1) as (Hu' & Hp' & Ha' & Hl').
  repeat split; [set_solver | set_solver | congruence | congruence].
Qed.

Lemma process_main_grows file_path st :
  let st' := process_main E file_path st in
  used_files st ⊆ used_files st' ∧ file_path ∈ used_files st'
  ∧ problematic_imports st ⊆ problematic_imports st'
  ∧ all_files st' = all_files st ∧ large_files st' = large_files st.
Proof.
  unfold process_main. destruct (get_imported_modules E file_path) as [imports | e].
  - pose proof (resolve_imports_grows (set_order E imports)
                  (set_used (λ u, u ∪ {[ file_path ]}) st)) as (Hu & Hp & Ha & Hl).
    destruct (resolve_imports _ _ _) as [st1 [e |]]; simpl in *;
      repeat split; set_solver.
  - simpl. repeat split; set_solver.
Qed.

Lemma process_result_grows st r :
  let st' := process_result CONFIG E st r in
  used_files st ⊆ used_files st'
  ∧ problematic_imports st ⊆ problematic_imports st'.
Proof.
  destruct r as [[[file_path info] is_main] |]; simpl; [| done].
  destruct is_main.
  - match goal with |- context [process_main E file_path ?s] =>
      pose proof (process_main_grows file_path s) as (Hu & _ & Hp & _) end.
    destruct (size info >? SIZE_THRESHOLD CONFIG)%Z; simpl in *; done.
  - by destruct (size info >? SIZE_THRESHOLD CONFIG)%Z.
Qed.

Lemma foldl_process_result_grows results st :
  let st' := foldl (process_result CONFIG E) st results in
  used_files st ⊆ used_files st'
  ∧ problematic_imports st ⊆ problematic_imports st'.
Proof.
  revert st. induction results as [| r results IH]; intros st; simpl; [done |].
  destruct (IH (process_result CONFIG E st r)) as [Hu Hp].
  destruct (process_result_grows st r) as [Hu' Hp']. split; set_solver.
Qed.

End ScanFacts.

(** Membership in a concrete set, decided by evaluation. *)
Ltac decide_by_computation :=
  apply (bool_decide_unpack _); vm_compute; exact I.

(** ** Facts about the example tree *)

Lemma ex_app_is_candidate :
  "/proj/app.py" ∈ entry_candidates DEFAULT_CONFIG ex_sys "/proj".
Proof. decide_by_computation. Qed.

Lemma ex_old_app_is_candidate :
  "/proj/old/app.py" ∈ entry_candidates DEFAULT_CONFIG ex_sys "/proj".
Proof. decide_by_computation. Qed.

(** ** Import extraction (claim C6) *)

(** C6.  For every source file that parses, [get_imported_modules] returns
    a set (no name twice) in which every [import M] found anywhere in the
    tree contributes [M], every [from X import Y] contributes [X.Y] for
    each imported name [Y], a from-import without module component
    contributes [.Y], and nothing else is in the set. *)
Theorem get_imported_modules_names (E : system) (file_path : path) (tree : node) :
  read_and_parse E file_path = Ok tree →
  ∃ imports, get_imported_modules E file_path = Ok imports
    ∧ NoDup (elements imports)
    ∧ (∀ names a, occurs (Import names) tree → a ∈ names →
         alias_name a ∈ imports)
    ∧ (∀ X names lvl a, occurs (ImportFrom (Some X) names lvl) tree → a ∈ names →
         X +:+ "." +:+ alias_name a ∈ imports)
    ∧ (∀ names lvl a, occurs (ImportFrom None names lvl) tree → a ∈ names →
         "." +:+ alias_name a ∈ imports)
    ∧ (∀ x, x ∈ imports → ∃ n, occurs n tree ∧ contributes n x).
Proof.
  intros Hparse. exists (imports_of_tree tree).
  unfold get_imported_modules. rewrite Hparse.
  split; [done |]. split; [apply NoDup_elements |].
  repeat split.
  - intros names a Hocc Ha. apply elem_of_imports_of_tree.
    exists (Import names). split; [done |]. simpl. eauto.
  - intros X names lvl a Hocc Ha. apply elem_of_imports_of_tree.
    exists (ImportFrom (Some X) names lvl). split; [done |]. simpl.
    exists a. split; [done |]. by destruct X.
  - intros names lvl a Hocc Ha. apply elem_of_imports_of_tree.
    exists (ImportFrom None names lvl). split; [done |]. simpl. eauto.
  - intros x Hx. by apply elem_of_imports_of_tree.
Qed.

Lemma get_imported_modules_names_witness :
  ∃ imports, get_imported_modules ex_sys "/proj/app.py" = Ok imports
    ∧ "os" ∈ imports ∧ "broken.thing" ∈ imports.
Proof.
  destruct (get_imported_modules_names ex_sys "/proj/app.py" ex_app_tree eq_refl)
    as (imports & Heq & _ & Himp & Hfrom & _).
  exists imports. split; [exact Heq |]. split.
  - apply (Himp [ Alias "os" None; Alias "requests" None ] (Alias "os" None)).
    + eapply occurs_child; [left | constructor].
    + left.
  - apply (Hfrom "broken" [ Alias "thing" (Some "t") ] 0 (Alias "thing" (Some "t"))).
    + eapply occurs_child; [right; left |].
      eapply occurs_child; [right; left | constructor].
    + left.
Defined.

(** ** Resolution of the entry file's imports (claim C1) *)

(** C1, as the specification words it, fails: [requests] is imported by the
    entry file and is not found, yet no pair for it is recorded. *)
Lemma failures_recorded_counterexample :
  ¬ failures_recorded DEFAULT_CONFIG ex_sys "/proj".
Proof.
  intros H.
  destruct (H "/proj/app.py" ex_app_tree "requests") as [reason Hin].
  - vm_compute. left.
  - reflexivity.
  - apply elem_of_imports_of_tree.
    exists (Import [ Alias "os" None; Alias "requests" None ]). split.
    + eapply occurs_child; [left | constructor].
    + exists (Alias "requests" None). split; [right; left | done].
  - reflexivity.
  - apply elem_of_elements in Hin.
    replace (elements (problematic_imports (scan DEFAULT_CONFIG ex_sys "/proj")))
      with [ ("broken.thing", "cannot import broken") ] in Hin
      by (vm_compute; reflexivity).
    apply list_elem_of_singleton in Hin. discriminate.
Qed.

(** C1.  The code at the example tree.  The entry file imports [requests],
    which is not found ([find_spec] returns [None]), [nspkg.part], whose
    package has no origin, and [broken.thing], whose lookup raises
    [ImportError].  Resolution fails for all three, yet only the one that
    raised is recorded as problematic; the other two are recorded nowhere,
    neither as problematic nor in the used set. *)
Theorem unfound_imports_are_recorded_nowhere :
  let st := process_main ex_sys "/proj/app.py" initial_scan in
  read_and_parse ex_sys "/proj/app.py" = Ok ex_app_tree
  ∧ elements (imports_of_tree ex_app_tree)
    = [ "os"; "nspkg.part"; "requests"; "broken.thing" ]
  ∧ find_spec ex_sys (split_dot_head "requests") = Ok None
  ∧ find_spec ex_sys (split_dot_head "nspkg.part") = Ok (Some (ModuleSpec None))
  ∧ find_spec ex_sys (split_dot_head "broken.thing")
    = Raise (Exn ImportError "cannot import broken")
  ∧ resolution_fails ex_sys "requests"
  ∧ resolution_fails ex_sys "nspkg.part"
  ∧ resolution_fails ex_sys "broken.thing"
  ∧ elements (problematic_imports st) = [ ("broken.thing", "cannot import broken") ]
  ∧ elements (problematic_imports (scan DEFAULT_CONFIG ex_sys "/proj"))
    = [ ("broken.thing", "cannot import broken") ]
  ∧ elements (used_files st) = [ "/usr/lib/python3/os.py"; "/proj/app.py" ].
Proof.
  cbv zeta. repeat split; vm_compute; reflexivity.
Qed.

(** ** Which file is the entry file (claim C3) *)

Lemma elem_of_entry_candidates CONFIG E directory p :
  p ∈ entry_candidates CONFIG E directory ↔
  ∃ info, Some (p, info, true) ∈ scan_results CONFIG E directory.
Proof.
  unfold entry_candidates. rewrite list_elem_of_omap. split.
  - intros (r & Hr & Hp). destruct r as [[[q info] [|]] |]; try discriminate.
    injection Hp as ->. eauto.
  - intros [info Hin]. eexists. split; [exact Hin | done].
Qed.

(** C3, as the specification words it, fails: with two files named
    [app.py] the first one met is in the used set as well, which it would
    not be if only the last one were the entry file. *)
Lemma last_entry_wins_counterexample :
  entry_candidates DEFAULT_CONFIG ex_sys "/proj" = [ "/proj/app.py"; "/proj/old/app.py" ]
  ∧ "/proj/app.py" ∈ used_files (scan DEFAULT_CONFIG ex_sys "/proj")
  ∧ ("/proj/app.py" ∉ used_if_last_entry_wins DEFAULT_CONFIG ex_sys "/proj")
  ∧ (used_files (scan DEFAULT_CONFIG ex_sys "/proj")
     ≠ used_if_last_entry_wins DEFAULT_CONFIG ex_sys "/proj").
Proof.
  assert (Hnot : "/proj/app.py" ∉ used_if_last_entry_wins DEFAULT_CONFIG ex_sys "/proj")
    by decide_by_computation.
  assert (Hin : "/proj/app.py" ∈ used_files (scan DEFAULT_CONFIG ex_sys "/proj"))
    by decide_by_computation.
  split; [vm_compute; reflexivity |]. split; [exact Hin |]. split; [exact Hnot |].
  intros Heq. apply Hnot. by rewrite <- Heq.
Qed.

(** ** The unused set (claim C4) *)

(** C4.  Whatever the inventory and the used set hold (the used set may
    name files outside the inventory), the unused set the analysis returns
    is [all − used], and that is [all − (used ∩ all)]. *)
Theorem unused_is_all_minus_used (CONFIG : config) (E : system) (directory : path) :
  (∀ st : scan_state,
     unused_files st = dom (all_files st) ∖ used_files st
     ∧ unused_files st = dom (all_files st) ∖ (used_files st ∩ dom (all_files st))
     ∧ ∀ p, p ∈ unused_files st ↔ p ∈ dom (all_files st) ∧ p ∉ used_files st)
  ∧ let '(unused, _, _, all) := find_unused_files CONFIG E directory in
    let used := used_files (scan CONFIG E directory) in
    unused = dom all ∖ used ∧ unused = dom all ∖ (used ∩ dom all).
Proof.
  assert (Hgen : ∀ st : scan_state,
     unused_files st = dom (all_files st) ∖ used_files st
     ∧ unused_files st = dom (all_files st) ∖ (used_files st ∩ dom (all_files st))
     ∧ ∀ p, p ∈ unused_files st ↔ p ∈ dom (all_files st) ∧ p ∉ used_files st).
  { intros st. unfold unused_files. split; [done |]. split.
    - apply set_eq. intros p.
      rewrite !elem_of_difference, elem_of_intersection. tauto.
    - intros p. by rewrite elem_of_difference. }
  split; [exact Hgen |].
  unfold find_unused_files. simpl.
  destruct (Hgen (scan CONFIG E directory)) as (H1 & H2 & _). by split.
Qed.

(** ** The large set (claim C5) *)

Section LargeFacts.
Variable CONFIG : config.
Variable E : system.

Lemma large_inv_initial : large_inv CONFIG E initial_scan.
Proof.
  split.
  - intros p. simpl. rewrite dom_empty_L. set_solver.
  - intros p info. simpl. by rewrite lookup_empty.
Qed.

Lemma process_file_info args file_path info is_main :
  process_file CONFIG E args = Some (file_path, info, is_main) →
  info = stat E file_path.
Proof.
  destruct args as [[[fp pats] std] mainf]. unfold process_file, get_file_info.
  destruct (_ && _); [| discriminate]. by intros [= <- <- _].
Qed.

Lemma large_inv_step st file_path is_main :
  large_inv CONFIG E st →
  large_inv CONFIG E
    (process_result CONFIG E st (Some (file_path, stat E file_path, is_main))).
Proof.
  intros [Hl Ha]. simpl.
  set (st1 := set_all (λ a, <[ file_path := stat E file_path ]> a) st).
  set (st2 := if (size (stat E file_path) >? SIZE_THRESHOLD CONFIG)%Z
              then set_large (λ l, l ∪ {[ file_path ]}) st1 else st1).
  assert (Hinv2 : large_inv CONFIG E st2).
  { subst st2 st1. split.
    - intros p. destruct (size (stat E file_path) >? SIZE_THRESHOLD CONFIG)%Z eqn:Hgt;
        simpl; rewrite dom_insert_L.
      + apply Z.gtb_gt in Hgt.
        rewrite !elem_of_union, elem_of_singleton, Hl. split.
        * intros [[H1 H2] | ->]; auto.
        * intros [[-> | H1] H2]; auto.
      + assert (¬ (size (stat E file_path) > SIZE_THRESHOLD CONFIG)%Z) as Hle.
        { intros H%Z.gtb_gt. congruence. }
        rewrite elem_of_union, elem_of_singleton, Hl. split.
        * intros [H1 H2]; auto.
        * intros [[-> | H1] H2]; [done | auto].
    - intros p info.
      assert (all_files
                (if (size (stat E file_path) >? SIZE_THRESHOLD CONFIG)%Z
                 then set_large (λ l, l ∪ {[ file_path ]})
                        (set_all (λ a, <[ file_path := stat E file_path ]> a) st)
                 else set_all (λ a, <[ file_path := stat E file_path ]> a) st)
              = <[ file_path := stat E file_path ]> (all_files st)) as ->
        by (by destruct (_ >? _)%Z).
      rewrite lookup_insert. case_decide as Heq.
      + subst. by intros [= <-].
      + apply Ha. }
  destruct is_main; [| exact Hinv2].
  destruct (process_main_grows E file_path st2) as (_ & _ & _ & Hall & Hlarge).
  destruct Hinv2 as [Hl2 Ha2]. split.
  - intros p. rewrite Hlarge, Hall. apply Hl2.
  - intros p info. rewrite Hall. apply Ha2.
Qed.

Lemma large_inv_scan directory : large_inv CONFIG E (scan CONFIG E directory).
Proof.
  unfold scan, scan_results.
  generalize (file_list CONFIG E directory). intros l.
  assert (Hgen : ∀ st, large_inv CONFIG E st →
            large_inv CONFIG E
              (foldl (process_result CONFIG E) st (process_file CONFIG E <$> l))).
  { induction l as [| args l IH]; intros st Hst; simpl; [done |].
    apply IH. destruct (process_file CONFIG E args) as [[[fp info] is_main] |] eqn:Hpf.
    - rewrite (process_file_info _ _ _ _ Hpf). by apply large_inv_step.
    - exact Hst. }
  apply Hgen, large_inv_initial.
Qed.

End LargeFacts.

(** C5.  An inventoried file is in the large set exactly when its size is
    strictly greater than the threshold: a file of exactly the threshold is
    not in it, a file one byte over is, and whether the file is used or
    unused plays no part. *)
Theorem large_iff_size_exceeds_threshold (CONFIG : config) (E : system)
    (directory : path) :
  let st := scan CONFIG E directory in
  (∀ p, p ∈ dom (all_files st) →
     (p ∈ large_files st ↔ (size (stat E p) > SIZE_THRESHOLD CONFIG)%Z)
     ∧ all_files st !! p = Some (stat E p))
  ∧ (∀ p, p ∈ dom (all_files st) → size (stat E p) = SIZE_THRESHOLD CONFIG →
       p ∉ large_files st)
  ∧ (∀ p, p ∈ dom (all_files st) →
       size (stat E p) = (SIZE_THRESHOLD CONFIG + 1)%Z → p ∈ large_files st)
  ∧ (∀ p, p ∈ large_files st → p ∈ dom (all_files st))
  ∧ (∀ p, p ∈ dom (all_files st) →
       (p ∈ used_files st → (p ∈ large_files st ↔
                               (size (stat E p) > SIZE_THRESHOLD CONFIG)%Z))
       ∧ (p ∈ unused_files st → (p ∈ large_files st ↔
                                   (size (stat E p) > SIZE_THRESHOLD CONFIG)%Z))).
Proof.
  intros st. destruct (large_inv_scan CONFIG E directory) as [Hl Ha]. fold st in Hl, Ha.
  assert (Hiff : ∀ p, p ∈ dom (all_files st) →
            (p ∈ large_files st ↔ (size (stat E p) > SIZE_THRESHOLD CONFIG)%Z)).
  { intros p Hp. rewrite Hl. tauto. }
  repeat split.
  - by apply Hiff.
  - by apply Hiff.
  - apply elem_of_dom in H as [info Hinfo]. by rewrite Hinfo, (Ha p info Hinfo).
  - intros p Hp Hsize Hin. apply Hiff in Hin; [lia | done].
  - intros p Hp Hsize. apply Hiff; [done | lia].
  - intros p Hp. by apply Hl in Hp as [Hp _].
  - by apply Hiff.
  - by apply Hiff.
  - by apply Hiff.
  - by apply Hiff.
Qed.

Lemma ex_app_inventoried :
  "/proj/app.py" ∈ dom (all_files (scan DEFAULT_CONFIG ex_sys "/proj")).
Proof. decide_by_computation. Qed.

Lemma ex_big_inventoried :
  "/proj/big.py" ∈ dom (all_files (scan DEFAULT_CONFIG ex_sys "/proj")).
Proof. decide_by_computation. Qed.

(** In the example tree the entry file has exactly the size of the
    threshold and [big.py] is one byte larger; both are used, only the
    second is large. *)
Lemma large_iff_size_exceeds_threshold_witness :
  ("/proj/app.py" ∉ large_files (scan DEFAULT_CONFIG ex_sys "/proj"))
  ∧ "/proj/big.py" ∈ large_files (scan DEFAULT_CONFIG ex_sys "/proj").
Proof.
  destruct (large_iff_size_exceeds_threshold DEFAULT_CONFIG ex_sys "/proj")
    as (_ & Hequal & Hover & _).
  split.
  - exact (Hequal "/proj/app.py" ex_app_inventoried eq_refl).
  - exact (Hover "/proj/big.py" ex_big_inventoried eq_refl).
Defined.

(** ** The selection menu (claim C7) *)

Lemma sum_selected_from (acc : Z) (l : list bool) :
  (acc ≤ foldl (λ acc (b : bool), if b then acc + 1 else acc) acc l
       ≤ acc + Z.of_nat (length l))%Z.
Proof.
  revert acc. induction l as [| b l IH]; intros acc; simpl; [lia |].
  destruct b; [specialize (IH (acc + 1)%Z) | specialize (IH acc)]; lia.
Qed.

Lemma sum_selected_bounds (l : list bool) :
  (0 ≤ sum_selected l ≤ Z.of_nat (length l))%Z.
Proof. unfold sum_selected. pose proof (sum_selected_from 0 l). lia. Qed.

Lemma menu_ok_intro options sel cur :
  length sel = length options →
  (0 ≤ cur < Z.of_nat (length options))%Z →
  menu_ok options (Menu sel cur).
Proof.
  intros Hlen Hcur. split; [done |]. split; [done |]. simpl.
  rewrite <- Hlen. apply sum_selected_bounds.
Qed.

Lemma initial_menu_ok options : options ≠ [] → menu_ok options (initial_menu options).
Proof.
  intros Hne. apply menu_ok_intro.
  - apply length_replicate.
  - destruct options; [done | simpl; lia].
Qed.

Lemma on_escape_ok options key m :
  menu_ok options m → menu_ok options (on_escape options key m).
Proof.
  intros (Hlen & Hcur & Hsum). unfold on_escape.
  destruct (String.eqb key KEY_UP && (current m >? 0)%Z) eqn:Hup.
  - apply andb_prop in Hup as [_ Hgt%Z.gtb_gt]. apply menu_ok_intro; [done | lia].
  - destruct (String.eqb key KEY_DOWN
              && (current m <? Z.of_nat (length options) - 1)%Z) eqn:Hdown.
    + apply andb_prop in Hdown as [_ Hlt%Z.ltb_lt]. apply menu_ok_intro; [done | lia].
    + done.
Qed.

(** Up and down move the cursor by one and stop at the ends. *)
Lemma on_escape_moves options m :
  menu_ok options m →
  on_escape options KEY_UP m = Menu (selected m) (Z.max 0 (current m - 1))
  ∧ on_escape options KEY_DOWN m
    = Menu (selected m) (Z.min (Z.of_nat (length options) - 1) (current m + 1)).
Proof.
  intros (Hlen & Hcur & Hsum). unfold on_escape. destruct m as [sel cur]. simpl in *.
  split.
  - replace (String.eqb KEY_UP KEY_UP) with true by (symmetry; apply String.eqb_refl).
    replace (String.eqb KEY_UP KEY_DOWN) with false by (vm_compute; reflexivity).
    simpl. destruct (cur >? 0)%Z eqn:Hgt.
    + apply Z.gtb_gt in Hgt. f_equal. lia.
    + assert (cur = 0%Z) as -> by (pose proof (Zgt_cases cur 0); rewrite Hgt in *; lia).
      done.
  - replace (String.eqb KEY_DOWN KEY_UP) with false by (vm_compute; reflexivity).
    replace (String.eqb KEY_DOWN KEY_DOWN) with true by (symmetry; apply String.eqb_refl).
    simpl. destruct (cur <? Z.of_nat (length options) - 1)%Z eqn:Hlt.
    + apply Z.ltb_lt in Hlt. f_equal. lia.
    + apply Z.ltb_ge in Hlt. f_equal. lia.
Qed.

Lemma py_index_in_range len i :
  (0 ≤ i < Z.of_nat len)%Z → py_index len i = Some (Z.to_nat i).
Proof.
  intros Hi. unfold py_index.
  replace (0 <=? i)%Z with true by (symmetry; apply Z.leb_le; lia).
  replace (i <? Z.of_nat len)%Z with true by (symmetry; apply Z.ltb_lt; lia).
  done.
Qed.

Lemma toggle_redraws options m :
  menu_ok options m →
  ∃ b, selected m !! Z.to_nat (current m) = Some b
       ∧ toggle m = Redraw (Menu (<[ Z.to_nat (current m) := negb b ]> (selected m))
                                 (current m)).
Proof.
  intros (Hlen & Hcur & _). unfold toggle.
  rewrite py_index_in_range by lia.
  destruct (lookup_lt_is_Some_2 (selected m) (Z.to_nat (current m))) as [b Hb]; [lia |].
  exists b. by rewrite Hb.
Qed.

Lemma selected_options_total options sel :
  length sel = length options → ∃ l, selected_options options sel = Ok l.
Proof.
  intros Hlen. unfold selected_options.
  assert (Hgen : ∀ idx : list nat, (∀ i, i ∈ idx → i < length options) →
    ∃ l, foldr (λ i acc,
             match sel !! i, options !! i, acc with
             | Some true, Some o, Ok l => Ok (o :: l)
             | Some false, _, Ok l => Ok l
             | Some _, _, Raise e => Raise e
             | _, _, _ => Raise index_error
             end) (Ok []) idx = Ok l).
  { induction idx as [| i idx IH]; intros Hidx; simpl; [eauto |].
    destruct IH as [l ->]; [intros j Hj; apply Hidx; by right |].
    assert (i < length options) as Hi by (apply Hidx; left).
    destruct (lookup_lt_is_Some_2 sel i) as [b ->]; [lia |].
    destruct (lookup_lt_is_Some_2 options i) as [o ->]; [lia |].
    destruct b; eauto. }
  apply Hgen. intros i Hi. apply elem_of_seq in Hi. lia.
Qed.

Lemma on_key_ok options key m :
  menu_ok options m →
  (∀ e, on_key options key m ≠ Fails e)
  ∧ (∀ m', on_key options key m = Redraw m' → menu_ok options m').
Proof.
  intros Hok. pose proof Hok as (Hlen & Hcur & Hsum). unfold on_key, return_selected.
  destruct (selected_options_total options (selected m) Hlen) as [l Hl].
  destruct (toggle_redraws options m Hok) as (b & Hb & Htoggle).
  repeat case_match; try rewrite Htoggle in *; split; intros; try congruence;
    simplify_eq; apply menu_ok_intro; try done.
  - by rewrite length_insert.
  - apply length_replicate.
  - apply length_replicate.
Qed.

(** The loop, from any state that satisfies the invariant. *)
Lemma select_loop_ok options :
  ∀ keys m printed,
    menu_ok options m →
    (∀ sel cur, MsgMenu options sel cur ∈ printed → menu_ok options (Menu sel cur)) →
    let '(out, _, printed', m') := select_loop options keys m printed in
    (∀ e, out ≠ Raised e)
    ∧ menu_ok options m'
    ∧ (∀ sel cur, MsgMenu options sel cur ∈ printed' → menu_ok options (Menu sel cur)).
Proof.
  intros keys. remember (length keys) as n eqn:Hn. revert keys Hn.
  induction n as [n IH] using lt_wf_ind. intros keys Hn m printed Hok Hprinted.
  assert (Hredrawn : ∀ m1, menu_ok options m1 →
            ∀ sel cur, MsgMenu options sel cur ∈ printed ++ redraw options m1 →
                       menu_ok options (Menu sel cur)).
  { intros m1 Hm1 sel cur [Hin | Hin]%elem_of_app; [by apply Hprinted |].
    unfold redraw in Hin. apply elem_of_cons in Hin as [Hin | Hin]; [discriminate |].
    apply list_elem_of_singleton in Hin as [= -> ->]. by destruct m1. }
  destruct keys as [| c keys1]; simpl; [done |].
  destruct (Ascii.eqb c ESC).
  - destruct keys1 as [| c1 [| c2 keys3]]; [done | done |].
    apply (IH (length keys3)); [simpl in Hn; lia | done | by apply on_escape_ok |].
    apply Hredrawn. by apply on_escape_ok.
  - destruct (on_key_ok options (String c EmptyString) m Hok) as [Hnofail Hredraw].
    destruct (on_key options (String c EmptyString) m) as [m1 | r | e] eqn:Hkey.
    + apply (IH (length keys1)); [simpl in Hn; lia | done | by apply Hredraw |].
      apply Hredrawn. by apply Hredraw.
    + done.
    + by destruct (Hnofail e).
Qed.

Lemma alter_negb_insert (l : list bool) (i : nat) (b : bool) :
  l !! i = Some b → alter negb i l = <[ i := negb b ]> l.
Proof.
  revert i. induction l as [| x l IH]; intros [| i] Hi; simpl in *; try done.
  - by injection Hi as ->.
  - f_equal. by apply IH.
Qed.

Lemma on_escape_operate options (c1 c2 : ascii) m :
  menu_ok options m →
  on_escape options (String ESC (String c1 (String c2 EmptyString))) m
  = operate options (operation_of_escape c1 c2) m.
Proof.
  intros Hok. destruct (on_escape_moves options m Hok) as [Hup Hdown].
  unfold operation_of_escape.
  destruct (Ascii.eqb_spec c1 "[") as [-> | Hc1]; simpl.
  - destruct (Ascii.eqb_spec c2 "A") as [-> | Hc2A]; [exact Hup |].
    destruct (Ascii.eqb_spec c2 "B") as [-> | Hc2B]; [exact Hdown |].
    unfold on_escape.
    rewrite (proj2 (String.eqb_neq _ KEY_UP)) by (intros [= H]; done).
    rewrite (proj2 (String.eqb_neq _ KEY_DOWN)) by (intros [= H]; done).
    done.
  - unfold on_escape.
    rewrite (proj2 (String.eqb_neq _ KEY_UP)) by (intros [= H]; done).
    rewrite (proj2 (String.eqb_neq _ KEY_DOWN)) by (intros [= H]; done).
    done.
Qed.

Lemma on_key_operate options (c : ascii) m :
  menu_ok options m →
  match operation_of_key c with
  | Some op => on_key options (String c EmptyString) m = Redraw (operate options op m)
  | None => ∃ r, on_key options (String c EmptyString) m = Return r
  end.
Proof.
  intros Hok. pose proof Hok as (Hlen & _ & _).
  destruct (toggle_redraws options m Hok) as (b & Hb & Htoggle).
  unfold operation_of_key, on_key, terminating.
  change (lower (String c EmptyString)) with (String (lower_char c) EmptyString).
  cbn [String.eqb].
  destruct (Ascii.eqb c " "); cbv beta iota.
  { rewrite Htoggle. simpl. by rewrite (alter_negb_insert _ _ b). }
  destruct (Ascii.eqb (lower_char c) "a"); cbv beta iota; [done |].
  destruct (Ascii.eqb (lower_char c) "n"); cbv beta iota; [done |].
  destruct (selected_options_total options (selected m) Hlen) as [l Hl].
  unfold return_selected. rewrite Hl.
  destruct (Ascii.eqb (lower_char c) "q"); cbn [orb]; cbv beta iota; [by eexists |].
  destruct (Ascii.eqb (lower_char c) "d"); cbn [orb]; cbv beta iota; [by eexists |].
  destruct (Ascii.eqb (lower_char c) "m"); cbv beta iota; [by eexists | done].
Qed.

Lemma operate_ok options op m : menu_ok options m → menu_ok options (operate options op m).
Proof.
  intros Hok. pose proof Hok as (Hlen & Hcur & _).
  destruct op; simpl; try done; apply menu_ok_intro; simpl;
    rewrite ?length_alter, ?length_replicate; try done; lia.
Qed.

(** The loop, from any state that satisfies the invariant: the state it
    ends in and what it has drawn. *)
Lemma select_loop_run options :
  ∀ keys m printed,
    menu_ok options m →
    let '(_, _, printed', m') := select_loop options keys m printed in
    m' = foldl (λ m op, operate options op m) m (operations keys)
    ∧ printed' = printed ++ mjoin (redraw options <$> states options (operations keys) m).
Proof.
  intros keys. remember (length keys) as n eqn:Hn. revert keys Hn.
  induction n as [n IH] using lt_wf_ind. intros keys Hn m printed Hok.
  destruct keys as [| c keys1]; simpl; [by rewrite app_nil_r |].
  destruct (Ascii.eqb_spec c ESC) as [-> | Hc].
  - destruct keys1 as [| c1 [| c2 keys3]]; simpl; try by rewrite app_nil_r.
    rewrite on_escape_operate by done.
    specialize (IH (length keys3) ltac:(simpl in Hn; lia) keys3 eq_refl
                  (operate options (operation_of_escape c1 c2) m)
                  (printed ++ redraw options (operate options (operation_of_escape c1 c2) m))
                  (operate_ok _ _ _ Hok)).
    destruct (select_loop options keys3 _ _) as [[[out rest] printed'] m'].
    destruct IH as [-> ->]. split; [done |]. by rewrite <- app_assoc.
  - pose proof (on_key_operate options c m Hok) as Hkey.
    destruct (operation_of_key c) as [op |].
    + rewrite Hkey.
      specialize (IH (length keys1) ltac:(simpl in Hn; lia) keys1 eq_refl
                    (operate options op m)
                    (printed ++ redraw options (operate options op m))
                    (operate_ok _ _ _ Hok)).
      destruct (select_loop options keys1 _ _) as [[[out rest] printed'] m'].
      destruct IH as [-> ->]. split; [done |]. simpl. by rewrite <- app_assoc.
    + destruct Hkey as [r ->]. simpl. by rewrite app_nil_r.
Qed.

(** C7.  For a non-empty list of options and any characters typed, the
    loop never raises, and every state the menu is drawn in, as well as the
    state the loop ends in, has one flag per option, the cursor on an
    option, and between zero and [len(options)] flags set.  The loop
    carries out the operations the characters stand for, one after the
    other from the initial state, and draws the menu after each: the up and
    down keys move the cursor by one and stop at the first and last option,
    space flips the flag under the cursor, [a] and [n] set and clear every
    flag. *)
Theorem selection_state_invariant (options : list string) (keys : list ascii) :
  options ≠ [] →
  let '(out, _, printed, m) := interactive_select options keys in
  (∀ e, out ≠ Raised e)
  ∧ menu_ok options m
  ∧ (∀ sel cur, MsgMenu options sel cur ∈ printed → menu_ok options (Menu sel cur))
  ∧ m = foldl (λ m op, operate options op m) (initial_menu options) (operations keys)
  ∧ printed
    = MsgMenu options (selected (initial_menu options)) (current (initial_menu options))
      :: mjoin (redraw options
                <$> states options (operations keys) (initial_menu options))
  ∧ (∀ m0 op, menu_ok options m0 → menu_ok options (operate options op m0))
  ∧ (∀ m0, menu_ok options m0 →
       on_escape options KEY_UP m0 = Menu (selected m0) (Z.max 0 (current m0 - 1))
       ∧ on_escape options KEY_DOWN m0
         = Menu (selected m0)
                (Z.min (Z.of_nat (length options) - 1) (current m0 + 1)))
  ∧ (∀ m0 key m1, menu_ok options m0 →
       on_key options key m0 = Redraw m1 → menu_ok options m1).
Proof.
  intros Hne. unfold interactive_select.
  pose proof (select_loop_ok options keys (initial_menu options)
                [MsgMenu options (selected (initial_menu options))
                         (current (initial_menu options))]
                (initial_menu_ok options Hne)) as Hloop.
  pose proof (select_loop_run options keys (initial_menu options)
                [MsgMenu options (selected (initial_menu options))
                         (current (initial_menu options))]
                (initial_menu_ok options Hne)) as Hrun.
  destruct (select_loop options keys (initial_menu options) _)
    as [[[out rest] printed] m].
  destruct Hloop as (Hout & Hm & Hprinted).
  { intros sel cur Hin. apply list_elem_of_singleton in Hin as [= -> ->].
    by apply initial_menu_ok. }
  destruct Hrun as [Hfinal Hdrawn].
  split; [exact Hout |]. split; [exact Hm |]. split; [exact Hprinted |].
  split; [exact Hfinal |]. split; [exact Hdrawn |]. split; [| split].
  - intros m0 op. apply operate_ok.
  - intros m0 Hm0. by apply on_escape_moves.
  - intros m0 key m1 Hm0. by apply on_key_ok.
Qed.

(** ** Facts about the programs that run in the world *)

Lemma guard_run_app s evs1 evs2 :
  guard_run s (evs1 ++ evs2) = guard_run s evs1 ≫= λ s', guard_run s' evs2.
Proof.
  revert s. induction evs1 as [| e evs1 IH]; intros s; simpl; [done |].
  destruct (guard_step s e); simpl; [apply IH | done].
Qed.

Lemma guard_run_prints s ms : guard_run s (EvPrint <$> ms) = Some s.
Proof. induction ms as [| m ms IH]; simpl; [done | exact IH]. Qed.

Lemma prints_no_mutation ms : Forall (λ e, is_mutation e = false) (EvPrint <$> ms).
Proof. apply Forall_fmap, Forall_true. done. Qed.

Lemma accepted_app evs1 evs2 : accepted evs1 → accepted evs2 → accepted (evs1 ++ evs2).
Proof.
  intros H1 H2 s. rewrite guard_run_app. destruct (H1 s) as [s' ->]. simpl. apply H2.
Qed.

Lemma accepted_prints ms : accepted (EvPrint <$> ms).
Proof. intros s. rewrite guard_run_prints. eauto. Qed.

Lemma guard_run_removals files reports :
  guard_run (ConfirmedTwice delete) (attempts EvRemove files reports)
  = Some (ConfirmedTwice delete).
Proof.
  revert reports. induction files as [| f files IH]; intros [| r reports]; simpl; try done.
  apply IH.
Qed.

Lemma guard_run_moves (dest : path → path) files reports :
  guard_run (ConfirmedTwice archive) (attempts (λ f, EvMove f (dest f)) files reports)
  = Some (ConfirmedTwice archive).
Proof.
  revert reports. induction files as [| f files IH]; intros [| r reports]; simpl; try done.
  apply IH.
Qed.

Section ProgramFacts.
Variable M : machine.

Lemma quiet_ret {A} (a : A) : quiet (M := M) (ret a).
Proof. intros w. simpl. repeat split. exists []. by rewrite app_nil_r. Qed.

Lemma quiet_raise {A} (e : exn) : quiet (M := M) (raise (A := A) e).
Proof. intros w. simpl. repeat split. exists []. by rewrite app_nil_r. Qed.

Lemma quiet_print m : quiet (M := M) (print m).
Proof. intros w. simpl. repeat split. by exists [m]. Qed.

Lemma quiet_read_fs {A} (f : FS M → A) : quiet (read_fs f).
Proof. intros w. simpl. repeat split. exists []. by rewrite app_nil_r. Qed.

Lemma quiet_bind {A B} (c : prog M A) (k : A → prog M B) :
  quiet c → (∀ a, quiet (k a)) → quiet (bind c k).
Proof.
  intros Hc Hk w. unfold bind. specialize (Hc w).
  destruct (c w) as [[a | | e] w1]; simpl in Hc; [| done | done].
  destruct Hc as (Hfs1 & Hl1 & ms1 & Ht1).
  destruct (Hk a w1) as (Hfs2 & Hl2 & ms2 & Ht2).
  split; [congruence |]. split; [congruence |].
  exists (ms1 ++ ms2). by rewrite Ht2, Ht1, fmap_app, app_assoc.
Qed.

Lemma quiet_find CONFIG directory : quiet (run_find_unused_files M CONFIG directory).
Proof. intros w. simpl. repeat split. eauto. Qed.

Lemma quiet_select options : quiet (run_interactive_select M options).
Proof.
  intros w. unfold run_interactive_select.
  destruct (interactive_select options (keys w)) as [[[r k] printed] m]. simpl.
  repeat split. eauto.
Qed.

Lemma quiet_confirmed {A} (c : prog M A) : quiet c → confirmed c.
Proof.
  intros Hc w. destruct (Hc w) as (Hfs & _ & ms & Ht).
  exists (EvPrint <$> ms). split; [done |]. split; [apply accepted_prints |].
  intros _. split; [done | apply prints_no_mutation].
Qed.

Lemma confirmed_safe {A} (c : prog M A) : confirmed c → safe c.
Proof. intros Hc w. destruct (Hc w) as (evs & Ht & Hacc & _). eauto. Qed.

Lemma confirmed_after_quiet {A B} (c : prog M A) (k : A → prog M B) :
  quiet c → (∀ a, confirmed (k a)) → confirmed (bind c k).
Proof.
  intros Hc Hk w. unfold bind. specialize (Hc w).
  destruct (c w) as [[a | | e] w1]; simpl in Hc;
    destruct Hc as (Hfs1 & Hl1 & ms1 & Ht1).
  - destruct (Hk a w1) as (evs & Ht2 & Hacc & Hno).
    exists ((EvPrint <$> ms1) ++ evs). split; [by rewrite Ht2, Ht1, app_assoc |].
    split; [apply accepted_app; [apply accepted_prints | done] |].
    intros Hnot. rewrite <- Hl1 in Hnot. destruct (Hno Hnot) as [Hfs2 Hmut].
    split; [congruence |]. apply Forall_app. split; [apply prints_no_mutation | done].
  - exists (EvPrint <$> ms1). simpl. split; [done |]. split; [apply accepted_prints |].
    intros _. split; [done | apply prints_no_mutation].
  - exists (EvPrint <$> ms1). simpl. split; [done |]. split; [apply accepted_prints |].
    intros _. split; [done | apply prints_no_mutation].
Qed.

Lemma confirmed_then_quiet {A B} (c : prog M A) (k : A → prog M B) :
  confirmed c → (∀ a, quiet (k a)) → confirmed (bind c k).
Proof.
  intros Hc Hk w. unfold bind. specialize (Hc w).
  destruct (c w) as [[a | | e] w1]; simpl in Hc; [| done | done].
  destruct Hc as (evs & Ht1 & Hacc & Hno).
  destruct (Hk a w1) as (Hfs2 & _ & ms2 & Ht2).
  exists (evs ++ (EvPrint <$> ms2)). split; [by rewrite Ht2, Ht1, app_assoc |].
  split; [apply accepted_app; [done | apply accepted_prints] |].
  intros Hnot. destruct (Hno Hnot) as [Hfs1 Hmut].
  split; [congruence |]. apply Forall_app. split; [done | apply prints_no_mutation].
Qed.

Lemma safe_bind {A B} (c : prog M A) (k : A → prog M B) :
  safe c → (∀ a, safe (k a)) → safe (bind c k).
Proof.
  intros Hc Hk w. unfold bind. specialize (Hc w).
  destruct (c w) as [[a | | e] w1]; simpl in Hc; [| done | done].
  destruct Hc as (evs1 & Ht1 & Hacc1).
  destruct (Hk a w1) as (evs2 & Ht2 & Hacc2).
  exists (evs1 ++ evs2). split; [by rewrite Ht2, Ht1, app_assoc |].
  by apply accepted_app.
Qed.

(** [delete_files]: one attempt and one report for each file, in order,
    whatever the attempts give. *)
Lemma delete_files_spec files w :
  ∃ fs' reports,
    delete_files M files w
    = (Val tt, World fs' (keys w) (lines w)
                     (trace w ++ attempts EvRemove files reports))
    ∧ Forall2 delete_report files reports.
Proof.
  revert w. induction files as [| file rest IH]; intros w.
  - exists (fs w), []. simpl. unfold ret. rewrite app_nil_r. by destruct w.
  - simpl. unfold bind at 1. unfold bind at 1. unfold syscall at 1.
    destruct (os_remove M file (fs w)) as [fs1 [e |]]; simpl.
    + match goal with |- context [delete_files M rest ?w1] =>
        destruct (IH w1) as (fs' & reports & Heq & Hrep) end.
      exists fs', (MsgErrorDeleting file (exn_str e) :: reports).
      rewrite Heq. simpl. split; [| constructor; [right; eauto | done]].
      by rewrite <- !app_assoc.
    + match goal with |- context [delete_files M rest ?w1] =>
        destruct (IH w1) as (fs' & reports & Heq & Hrep) end.
      exists fs', (MsgDeleted file :: reports).
      rewrite Heq. simpl. split; [| constructor; [by left | done]].
      by rewrite <- !app_assoc.
Qed.

Lemma move_each_spec files archive_folder w :
  ∃ fs' reports,
    move_each M files archive_folder w
    = (Val tt, World fs' (keys w) (lines w)
                     (trace w ++ attempts (λ f, EvMove f (path_join archive_folder
                                                            (basename f)))
                                          files reports))
    ∧ Forall2 move_report files reports.
Proof.
  revert w. induction files as [| file rest IH]; intros w.
  - exists (fs w), []. simpl. unfold ret. rewrite app_nil_r. by destruct w.
  - simpl. unfold bind at 1. unfold bind at 1. unfold syscall at 1.
    destruct (shutil_move M file _ (fs w)) as [fs1 [e |]]; simpl.
    + match goal with |- context [move_each M rest archive_folder ?w1] =>
        destruct (IH w1) as (fs' & reports & Heq & Hrep) end.
      exists fs', (MsgErrorMoving file (exn_str e) :: reports).
      rewrite Heq. simpl. split; [| constructor; [right; eauto | done]].
      by rewrite <- !app_assoc.
    + match goal with |- context [move_each M rest archive_folder ?w1] =>
        destruct (IH w1) as (fs' & reports & Heq & Hrep) end.
      exists fs', (MsgMoved file :: reports).
      rewrite Heq. simpl. split; [| constructor; [by left | done]].
      by rewrite <- !app_assoc.
Qed.

End ProgramFacts.

Section DispositionFacts.
Variable M : machine.

(** [move_to_archive]: the directory is created when it is absent, and then
    every file is attempted; only a failure to create the directory stops
    the call. *)
Lemma move_to_archive_spec files archive_folder w :
  (os_path_exists M archive_folder (fs w) = true →
     ∃ fs' reports,
       move_to_archive M files archive_folder w
       = (Val tt, World fs' (keys w) (lines w)
                        (trace w ++ attempts (move_event archive_folder) files reports))
       ∧ Forall2 move_report files reports)
  ∧ (os_path_exists M archive_folder (fs w) = false →
     (os_makedirs M archive_folder (fs w)).2 = None →
     ∃ fs' reports,
       move_to_archive M files archive_folder w
       = (Val tt, World fs' (keys w) (lines w)
                        (trace w ++ EvMakedirs archive_folder
                                 :: attempts (move_event archive_folder) files reports))
       ∧ Forall2 move_report files reports)
  ∧ (os_path_exists M archive_folder (fs w) = false →
     ∀ e, (os_makedirs M archive_folder (fs w)).2 = Some e →
     move_to_archive M files archive_folder w
     = (Raised e, World (os_makedirs M archive_folder (fs w)).1 (keys w) (lines w)
                        (trace w ++ [ EvMakedirs archive_folder ]))).
Proof.
  unfold move_to_archive, bind, read_fs, syscall, ret, raise.
  destruct (os_path_exists M archive_folder (fs w)) eqn:Hex; simpl.
  - split; [| split; intros; discriminate]. intros _.
    destruct (move_each_spec M files archive_folder w) as (fs' & reports & Heq & Hrep).
    exists fs', reports. by rewrite Heq.
  - split; [intros; discriminate |].
    destruct (os_makedirs M archive_folder (fs w)) as [fs1 [e |]]; simpl.
    + split; [intros; discriminate |]. by intros _ e' [= <-].
    + split; [| intros; discriminate]. intros _ _.
      match goal with |- context [move_each M files archive_folder ?w1] =>
        destruct (move_each_spec M files archive_folder w1)
          as (fs' & reports & Heq & Hrep) end.
      exists fs', reports. rewrite Heq. simpl. split; [| done].
      by rewrite <- app_assoc.
Qed.

Lemma move_to_archive_accepted files archive_folder w :
  ∃ evs, trace (move_to_archive M files archive_folder w).2 = trace w ++ evs
    ∧ lines (move_to_archive M files archive_folder w).2 = lines w
    ∧ guard_run (ConfirmedTwice archive) evs = Some (ConfirmedTwice archive).
Proof.
  destruct (move_to_archive_spec files archive_folder w) as (Hex & Hmk & Hfail).
  destruct (os_path_exists M archive_folder (fs w)).
  - destruct Hex as (fs' & reports & -> & _); [done |].
    eexists. split; [done |]. split; [done |]. apply guard_run_moves.
  - destruct ((os_makedirs M archive_folder (fs w)).2) as [e |] eqn:Herr.
    + rewrite (Hfail eq_refl e eq_refl). by eexists.
    + destruct Hmk as (fs' & reports & -> & _); [done | done |].
      eexists. split; [done |]. split; [done |]. simpl. apply guard_run_moves.
Qed.

#[local] Arguments delete_files : simpl never.
#[local] Arguments move_to_archive : simpl never.

Lemma dispose_confirmed app_directory archive_path result :
  confirmed (dispose M app_directory archive_path result).
Proof.
  destruct result as [[selected_files a] |]; simpl;
    [| apply quiet_confirmed, quiet_bind; [apply quiet_print | intros; apply quiet_ret]].
  destruct (path_join app_directory <$> selected_files) as [| f files] eqn:Hfiles;
    [apply quiet_confirmed, quiet_bind; [apply quiet_print | intros; apply quiet_ret] |].
  intros w. unfold bind, print, emit, input, ret. simpl.
  destruct (lines w) as [| a1 ls1] eqn:Hl1; simpl.
  { eexists. split; [done |]. split; [by intros s |]. intros _. split; [done |].
    by repeat constructor. }
  destruct (affirmative a1) eqn:Ha1; simpl.
  2:{ eexists. rewrite <- !app_assoc. split; [done |].
      split; [intros s; simpl; rewrite Ha1; by eexists |]. intros _.
      split; [done | by repeat constructor]. }
  destruct a; simpl.
  - destruct ls1 as [| a2 ls2]; simpl.
    { eexists. rewrite <- !app_assoc. split; [done |].
      split; [intros s; simpl; rewrite Ha1; by eexists |]. intros _.
      split; [done | by repeat constructor]. }
    destruct (affirmative a2) eqn:Ha2; simpl.
    + match goal with |- context [delete_files M (f :: files) ?w1] =>
        destruct (delete_files_spec M (f :: files) w1) as (fs' & reports & Heq & Hrep) end.
      rewrite Heq. simpl. eexists. rewrite <- !app_assoc. split; [done |]. split.
      * intros s. cbn [app guard_run guard_step]. rewrite Ha1, Ha2.
        rewrite guard_run_app, guard_run_removals. by eexists.
      * intros Hnot. destruct Hnot. by exists a1, a2, ls2.
    + eexists. rewrite <- !app_assoc. split; [done |].
      split; [intros s; simpl; rewrite Ha1, Ha2; by eexists |]. intros _.
      split; [done | by repeat constructor].
  - destruct ls1 as [| a2 ls2]; simpl.
    { eexists. rewrite <- !app_assoc. split; [done |].
      split; [intros s; simpl; rewrite Ha1; by eexists |]. intros _.
      split; [done | by repeat constructor]. }
    destruct (affirmative a2) eqn:Ha2; simpl.
    + match goal with |- context [move_to_archive M (f :: files) archive_path ?w1] =>
        destruct (move_to_archive_accepted (f :: files) archive_path w1)
          as (evs & Ht & _ & Hacc);
        destruct (move_to_archive M (f :: files) archive_path w1) as [[[] | | e] w2]
      end; simpl in *; rewrite Ht.
      all: eexists; rewrite <- !app_assoc; (split; [done |]); split;
        [ intros s; cbn [app guard_run guard_step]; rewrite Ha1, Ha2;
          rewrite ?guard_run_app, Hacc; by eexists
        | intros Hnot; destruct Hnot; by exists a1, a2, ls2 ].
    + eexists. rewrite <- !app_assoc. split; [done |].
      split; [intros s; simpl; rewrite Ha1, Ha2; by eexists |]. intros _.
      split; [done | by repeat constructor].
Qed.

End DispositionFacts.

Section MainFacts.
Variable M : machine.
Variable CONFIG : config.

Lemma main_body_confirmed dry_run : confirmed (main_body M CONFIG dry_run).
Proof.
  unfold main_body.
  apply confirmed_after_quiet; [apply quiet_read_fs | intros app_directory].
  apply confirmed_after_quiet; [apply quiet_print | intros _].
  apply confirmed_after_quiet; [apply quiet_find | intros found].
  destruct found as [[[[unused problematic] large] all_files] E].
  apply confirmed_after_quiet; [case_match; apply quiet_print | intros _].
  apply confirmed_after_quiet;
    [case_match; [apply quiet_print | apply quiet_ret] | intros _].
  apply confirmed_after_quiet;
    [case_match; [apply quiet_print | apply quiet_ret] | intros _].
  apply confirmed_after_quiet; [apply quiet_print | intros _].
  apply confirmed_then_quiet.
  - destruct (bool_decide (unused ≠ ∅) && negb dry_run).
    + apply confirmed_after_quiet; [apply quiet_print | intros _].
      apply confirmed_after_quiet; [apply quiet_select | intros result].
      apply dispose_confirmed.
    + apply quiet_confirmed. destruct dry_run;
        (apply quiet_bind; [apply quiet_print | intros; apply quiet_ret]).
  - intros [|]; [| apply quiet_ret].
    apply quiet_bind; [apply quiet_print | intros; apply quiet_ret].
Qed.

Lemma main_safe name dry_run depth : safe (main M CONFIG name dry_run depth).
Proof.
  induction depth as [| depth IH]; simpl.
  - apply confirmed_safe, quiet_confirmed, quiet_raise.
  - apply safe_bind; [apply confirmed_safe, main_body_confirmed |].
    intros [|]; [| apply confirmed_safe, quiet_confirmed, quiet_ret].
    destruct (String.eqb name "__main__"); [exact IH |].
    apply confirmed_safe, quiet_confirmed, quiet_ret.
Qed.

Lemma say_say (w : world M) ms1 ms2 : say (say w ms1) ms2 = say w (ms1 ++ ms2).
Proof. unfold say. simpl. by rewrite fmap_app, app_assoc. Qed.

Lemma say_nil (w : world M) : say w [] = w.
Proof. unfold say. simpl. rewrite app_nil_r. by destruct w. Qed.

Lemma bind_print {B} m (k : () → prog M B) w : bind (print m) k w = k tt (say w [m]).
Proof. reflexivity. Qed.

Lemma bind_ret {A B} (a : A) (k : A → prog M B) w : bind (ret a) k w = k a w.
Proof. reflexivity. Qed.

Lemma bind_assoc {A B C} (c : prog M A) (k1 : A → prog M B) (k2 : B → prog M C) w :
  bind (bind c k1) k2 w = bind c (λ a, bind (k1 a) k2) w.
Proof. unfold bind. by destruct (c w) as [[a | | e] w1]. Qed.

Lemma bind_find {B} (directory : path)
    (k : (gset string * gset (string * string) * gset string
          * gmap string file_info * system)%type → prog M B) (w : world M) :
  bind (run_find_unused_files M CONFIG directory) k w
  = let E := observe M (fs w) in
    let st := scan CONFIG E directory in
    k (unused_files st, problematic_imports st, large_files st, all_files st, E)
      (say w (scan_printed st)).
Proof. reflexivity. Qed.

Lemma fs_say (w : world M) ms : fs (say w ms) = fs w.
Proof. reflexivity. Qed.

Lemma bind_ext {A B} (c : prog M A) (k1 k2 : A → prog M B) w :
  (∀ a w1, k1 a w1 = k2 a w1) → bind c k1 w = bind c k2 w.
Proof. intros Hk. unfold bind. destruct (c w) as [[a | | e] w1]; [apply Hk | done | done]. Qed.

(** With unused files and no dry run, [main] comes to the menu having only
    printed. *)
Lemma main_body_menu w :
  unused_found M CONFIG w ≠ ∅ →
  ∃ ms, main_body M CONFIG false w
    = bind (bind (run_interactive_select M (menu_options M CONFIG w))
                 (dispose M (getcwd (observe M (fs w))) (archive_path_of M CONFIG w)))
           (λ reached_end : bool,
              if reached_end then bind (print MsgRemember) (λ _, ret true)
              else ret false)
           (say w ms).
Proof.
  unfold menu_options, archive_path_of, unused_found. cbv zeta.
  set (E := observe M (fs w)). set (app_directory := getcwd E).
  set (unused := unused_files (scan CONFIG E app_directory)).
  intros Hne. unfold main_body.
  unfold bind at 1. unfold read_fs at 1. cbn beta iota.
  rewrite bind_print, bind_find. cbn beta iota zeta. rewrite !fs_say.
  fold E. fold app_directory. fold unused.
  rewrite (bool_decide_eq_true_2 _ Hne). cbn [andb negb].
  rewrite bind_print.
  destruct (bool_decide (problematic_imports (scan CONFIG E app_directory) ≠ ∅));
    [rewrite bind_print | rewrite bind_ret];
    (destruct (bool_decide (large_files (scan CONFIG E app_directory) ≠ ∅));
     [rewrite bind_print | rewrite bind_ret]);
    rewrite bind_print, bind_assoc, bind_print;
    rewrite ?say_say; eexists; reflexivity.
Qed.

End MainFacts.

(** ** The file system changes only through the calls that are traced *)

Section Traced.
Variable M : machine.

Lemma quiet_traced {A} (c : prog M A) : quiet c → traced c.
Proof. intros Hc w. destruct (Hc w) as (Hfs & _ & ms & Ht). eauto. Qed.

Lemma traced_input p : traced (input (M := M) p).
Proof.
  intros w. unfold input. destruct (lines w) as [| answer rest]; simpl.
  - exists []. by rewrite app_nil_r.
  - eauto.
Qed.

Lemma traced_syscall e op : is_mutation e = true → traced (syscall (M := M) e op).
Proof.
  intros He w. unfold syscall. destruct (op (fs w)) as [fs' err]. simpl.
  exists [e]. split; [done |]. intros Hno. apply Forall_cons in Hno as [Hno _]. congruence.
Qed.

Lemma traced_bind {A B} (c : prog M A) (k : A → prog M B) :
  traced c → (∀ a, traced (k a)) → traced (bind c k).
Proof.
  intros Hc Hk w. unfold bind. specialize (Hc w).
  destruct (c w) as [[a | | e] w1]; simpl in Hc; [| done | done].
  destruct Hc as (evs1 & Ht1 & Hfs1). destruct (Hk a w1) as (evs2 & Ht2 & Hfs2).
  exists (evs1 ++ evs2). split; [by rewrite Ht2, Ht1, app_assoc |].
  intros [H1 H2]%Forall_app. rewrite Hfs2, Hfs1; done.
Qed.

End Traced.

Ltac traced_step :=
  lazymatch goal with
  | |- traced (bind _ _) => apply traced_bind; [| intros ?]
  | |- traced (input _) => apply traced_input
  | |- traced (syscall _ _) => apply traced_syscall; reflexivity
  | |- traced (ret _) => apply quiet_traced, quiet_ret
  | |- traced (print _) => apply quiet_traced, quiet_print
  | |- traced (raise _) => apply quiet_traced, quiet_raise
  | |- traced (read_fs _) => apply quiet_traced, quiet_read_fs
  | |- traced (run_find_unused_files _ _ _) => apply quiet_traced, quiet_find
  | |- traced (run_interactive_select _ _) => apply quiet_traced, quiet_select
  | |- traced (match ?x with _ => _ end) => destruct x
  | |- traced (let _ := _ in _) => cbv zeta
  end.

Section TracedPrograms.
Variable M : machine.

Lemma delete_files_traced files : traced (delete_files M files).
Proof. induction files as [| file rest IH]; simpl; repeat traced_step. exact IH. Qed.

Lemma move_each_traced files archive_folder : traced (move_each M files archive_folder).
Proof. induction files as [| file rest IH]; simpl; repeat traced_step. exact IH. Qed.

Lemma move_to_archive_traced files archive_folder :
  traced (move_to_archive M files archive_folder).
Proof. unfold move_to_archive. repeat traced_step. apply move_each_traced. Qed.

Lemma dispose_traced app_directory archive_path result :
  traced (dispose M app_directory archive_path result).
Proof.
  unfold dispose. repeat traced_step;
    first [ apply delete_files_traced | apply move_to_archive_traced ].
Qed.

Lemma main_body_traced CONFIG dry_run : traced (main_body M CONFIG dry_run).
Proof.
  unfold main_body. repeat traced_step. apply dispose_traced.
Qed.

Lemma main_traced CONFIG name dry_run depth : traced (main M CONFIG name dry_run depth).
Proof.
  induction depth as [| depth IH]; simpl; repeat traced_step;
    first [ exact IH | apply main_body_traced ].
Qed.

End TracedPrograms.

(** ** Early returns of [main] *)


Lemma on_key_letter options key m (c : string) :
  String.eqb (lower key) c = true → c ≠ " " →
  on_key options key m
  = (if String.eqb c "a"
     then Redraw (Menu (replicate (length options) true) (current m))
     else if String.eqb c "n"
     then Redraw (Menu (replicate (length options) false) (current m))
     else if String.eqb c "q" then Return None
     else if String.eqb c "d" then return_selected options m delete
     else if String.eqb c "m" then return_selected options m archive
     else Redraw m).
Proof.
  intros Hc%String.eqb_eq Hspace. unfold on_key.
  destruct (String.eqb key " ") eqn:Hkey.
  - apply String.eqb_eq in Hkey. subst. by destruct Hspace.
  - by rewrite Hc.
Qed.

Section EarlyReturn.
Variable M : machine.
Variable CONFIG : config.

(** When the menu returns a result on which [dispose] only prints one
    message and returns, [main] returns at once. *)
Lemma main_returns_early name depth w r rest printed m msg :
  unused_found M CONFIG w ≠ ∅ →
  interactive_select (menu_options M CONFIG w) (keys w) = (Val r, rest, printed, m) →
  (∀ w', dispose M (getcwd (observe M (fs w))) (archive_path_of M CONFIG w) r w'
         = (Val false, say w' [msg])) →
  ∃ ms, main M CONFIG name false (S depth) w
        = (Val tt, World (fs w) rest (lines w)
                         (trace w ++ (EvPrint <$> ms) ++ [EvPrint msg])).
Proof.
  intros Hne Hsel Hdisp.
  destruct (main_body_menu M CONFIG w Hne) as [ms Hbody].
  exists (ms ++ printed). simpl. unfold bind at 1. rewrite Hbody.
  unfold bind at 1. unfold bind at 1. unfold run_interactive_select at 1.
  cbn [say keys]. rewrite Hsel. rewrite Hdisp. unfold say. simpl.
  by rewrite fmap_app, <- !app_assoc.
Qed.

End EarlyReturn.

(** ** Confirmation before mutation (claim C8) *)

(** C8.  The file system changes only after both confirmations.  For every
    run of [main]: the events are accepted by the monitor, which allows a
    removal, a directory creation or a move only after an affirmative
    answer to the first prompt and an affirmative answer to the final
    prompt for the same action, and without such an event the file system
    is as before.  For one pass through the body of [main]: unless the next
    two lines typed are both affirmative, the file system is unchanged and
    no such call is made.  The quit key makes the menu return [None], on
    which [main] prints the cancellation and returns, the file system and
    the pending input untouched. *)
Theorem mutation_requires_two_confirmations (M : machine) (CONFIG : config)
    (name : string) (dry_run : bool) :
  (∀ depth w, ∃ evs,
      trace (main M CONFIG name dry_run depth w).2 = trace w ++ evs
      ∧ is_Some (guard_run NotConfirmed evs)
      ∧ (Forall (λ e, is_mutation e = false) evs →
           fs (main M CONFIG name dry_run depth w).2 = fs w))
  ∧ (∀ w, ∃ evs,
       trace (main_body M CONFIG dry_run w).2 = trace w ++ evs
       ∧ (¬ both_affirmative (lines w) →
            fs (main_body M CONFIG dry_run w).2 = fs w
            ∧ Forall (λ e, is_mutation e = false) evs))
  ∧ (∀ options key m,
       String.eqb (lower key) "q" = true → on_key options key m = Return None)
  ∧ (∀ depth w rest printed m,
       unused_found M CONFIG w ≠ ∅ →
       interactive_select (menu_options M CONFIG w) (keys w)
       = (Val None, rest, printed, m) →
       ∃ ms, main M CONFIG name false (S depth) w
             = (Val tt, World (fs w) rest (lines w)
                              (trace w ++ (EvPrint <$> ms)
                                       ++ [EvPrint MsgOperationCancelled]))).
Proof.
  split; [| split; [| split]].
  - intros depth w.
    destruct (main_safe M CONFIG name dry_run depth w) as (evs & Ht & Hacc).
    destruct (main_traced M CONFIG name dry_run depth w) as (evs' & Ht' & Hfs).
    assert (evs' = evs) as -> by (rewrite Ht in Ht'; by apply app_inv_head in Ht').
    exists evs. split; [done |]. split; [apply Hacc | done].
  - intros w. destruct (main_body_confirmed M CONFIG dry_run w) as (evs & Ht & _ & Hno).
    eauto.
  - intros options key m Hq. by rewrite (on_key_letter options key m "q" Hq).
  - intros depth w rest printed m Hne Hsel.
    by apply (main_returns_early M CONFIG name depth w None rest printed m).
Qed.

(** ** Failure isolation in a batch (claim C9) *)

Section BatchFacts.
Variable M : machine.

Lemma batch_reports (op : path → FS M → FS M * option exn)
    (succeeded : path → message) (failed : path → string → message)
    (files : list path) (fs0 : FS M) :
  Forall2 (λ file report, report = succeeded file ∨ ∃ err, report = failed file err)
          files (batch op succeeded failed files fs0).2.
Proof.
  revert fs0. induction files as [| file rest IH]; intros fs0; simpl; constructor.
  - destruct (op file fs0).2 as [e |]; [right; eauto | by left].
  - apply IH.
Qed.

(** [delete_files] leaves what the batch of [os.remove] calls leaves. *)
Lemma delete_files_batch files (w : world M) :
  delete_files M files w
  = (Val tt,
     World (batch (os_remove M) MsgDeleted MsgErrorDeleting files (fs w)).1
           (keys w) (lines w)
           (trace w ++ attempts EvRemove files
                         (batch (os_remove M) MsgDeleted MsgErrorDeleting files (fs w)).2)).
Proof.
  revert w. induction files as [| file rest IH]; intros w.
  - simpl. unfold ret. rewrite app_nil_r. by destruct w.
  - cbn [delete_files batch]. unfold bind at 1. unfold bind at 1. unfold syscall at 1.
    destruct (os_remove M file (fs w)) as [fs1 [e |]]; cbn [fst snd];
      unfold print, emit; cbn [fst snd fs keys lines trace];
      rewrite IH; cbn [fst snd fs keys lines trace];
      unfold attempts; simpl; rewrite <- !app_assoc; reflexivity.
Qed.

(** [move_each] leaves what the batch of [shutil.move] calls leaves. *)
Lemma move_each_batch files archive_folder (w : world M) :
  move_each M files archive_folder w
  = (Val tt,
     World (batch (move_call M archive_folder) MsgMoved MsgErrorMoving files (fs w)).1
           (keys w) (lines w)
           (trace w ++ attempts (move_event archive_folder) files
                         (batch (move_call M archive_folder) MsgMoved MsgErrorMoving
                                files (fs w)).2)).
Proof.
  unfold move_call. revert w. induction files as [| file rest IH]; intros w.
  - simpl. unfold ret. rewrite app_nil_r. by destruct w.
  - cbn [move_each batch]. unfold bind at 1. unfold bind at 1. unfold syscall at 1.
    destruct (shutil_move M file _ (fs w)) as [fs1 [e |]]; cbn [fst snd];
      unfold print, emit; cbn [fst snd fs keys lines trace];
      rewrite IH; cbn [fst snd fs keys lines trace];
      unfold attempts, move_event; simpl; rewrite <- !app_assoc; reflexivity.
Qed.

Lemma move_to_archive_batch files archive_folder (w : world M) :
  (os_path_exists M archive_folder (fs w) = true →
     move_to_archive M files archive_folder w
     = (Val tt,
        World (batch (move_call M archive_folder) MsgMoved MsgErrorMoving files (fs w)).1
              (keys w) (lines w)
              (trace w ++ attempts (move_event archive_folder) files
                            (batch (move_call M archive_folder) MsgMoved MsgErrorMoving
                                   files (fs w)).2)))
  ∧ (os_path_exists M archive_folder (fs w) = false →
     (os_makedirs M archive_folder (fs w)).2 = None →
     move_to_archive M files archive_folder w
     = (Val tt,
        World (batch (move_call M archive_folder) MsgMoved MsgErrorMoving files
                     (os_makedirs M archive_folder (fs w)).1).1
              (keys w) (lines w)
              (trace w ++ EvMakedirs archive_folder
                 :: attempts (move_event archive_folder) files
                      (batch (move_call M archive_folder) MsgMoved MsgErrorMoving files
                             (os_makedirs M archive_folder (fs w)).1).2))).
Proof.
  unfold move_to_archive, bind, read_fs, syscall, ret, raise.
  destruct (os_path_exists M archive_folder (fs w)) eqn:Hex; simpl.
  - split; [| intros; discriminate]. intros _. by rewrite move_each_batch.
  - split; [intros; discriminate |]. intros _.
    destruct (os_makedirs M archive_folder (fs w)) as [fs1 [e |]]; simpl;
      [intros; discriminate |].
    intros _. rewrite move_each_batch. simpl. by rewrite <- app_assoc.
Qed.

End BatchFacts.

(** C9.  [delete_files] ends normally and makes, for every file in order,
    one call to [os.remove] followed by one report, of success or of
    failure with the text of the exception, and goes on with the rest of
    the list whatever the call gave: the file system it leaves is the one
    left by all the calls, each made on what the call before it left.
    [move_to_archive] creates the archive directory first when it does not
    exist and then does the same with one call to [shutil.move] for every
    file, into that directory under the file's base name. *)
Theorem batch_failures_are_isolated (M : machine) (files : list path)
    (archive_folder : path) (w : world M) :
  let deleted := batch (os_remove M) MsgDeleted MsgErrorDeleting files (fs w) in
  let moved from :=
    batch (move_call M archive_folder) MsgMoved MsgErrorMoving files from in
  delete_files M files w
  = (Val tt, World deleted.1 (keys w) (lines w)
                   (trace w ++ attempts EvRemove files deleted.2))
  ∧ Forall2 delete_report files deleted.2
  ∧ (∀ file rest,
       delete_files M (file :: rest) w
       = delete_files M rest
           (World (os_remove M file (fs w)).1 (keys w) (lines w)
                  (trace w ++ [ EvRemove file;
                                EvPrint match (os_remove M file (fs w)).2 with
                                        | None => MsgDeleted file
                                        | Some e => MsgErrorDeleting file (exn_str e)
                                        end ])))
  ∧ (∀ file rest,
       move_each M (file :: rest) archive_folder w
       = move_each M rest archive_folder
           (World (move_call M archive_folder file (fs w)).1 (keys w) (lines w)
                  (trace w
                   ++ [ move_event archive_folder file;
                        EvPrint match (move_call M archive_folder file (fs w)).2 with
                                | None => MsgMoved file
                                | Some e => MsgErrorMoving file (exn_str e)
                                end ])))
  ∧ (os_path_exists M archive_folder (fs w) = true →
     move_to_archive M files archive_folder w
     = (Val tt, World (moved (fs w)).1 (keys w) (lines w)
                      (trace w ++ attempts (move_event archive_folder) files
                                           (moved (fs w)).2))
     ∧ Forall2 move_report files (moved (fs w)).2)
  ∧ (os_path_exists M archive_folder (fs w) = false →
     (os_makedirs M archive_folder (fs w)).2 = None →
     move_to_archive M files archive_folder w
     = (Val tt, World (moved (os_makedirs M archive_folder (fs w)).1).1
                      (keys w) (lines w)
                      (trace w ++ EvMakedirs archive_folder
                         :: attempts (move_event archive_folder) files
                              (moved (os_makedirs M archive_folder (fs w)).1).2))
     ∧ Forall2 move_report files (moved (os_makedirs M archive_folder (fs w)).1).2).
Proof.
  intros deleted moved.
  destruct (move_to_archive_batch M files archive_folder w) as [Hex Hmk].
  split; [apply delete_files_batch |].
  split; [apply batch_reports |]. split; [| split; [| split]].
  - intros file rest. simpl. unfold bind at 1. unfold bind at 1. unfold syscall at 1.
    destruct (os_remove M file (fs w)) as [fs1 [e |]]; simpl;
      by rewrite <- app_assoc.
  - intros file rest. simpl. unfold bind at 1. unfold bind at 1. unfold syscall at 1.
    unfold move_call, move_event.
    destruct (shutil_move M file _ (fs w)) as [fs1 [e |]]; simpl;
      by rewrite <- app_assoc.
  - intros Hexists. split; [by apply Hex | apply batch_reports].
  - intros Habsent Hok. split; [by apply Hmk | apply batch_reports].
Qed.

(** ** An empty selection (claim C10) *)


(** ** Running the module (claim C2) *)

Section ModuleFacts.
Variable M : machine.

(** Every call of [main] that has a frame to run in starts by printing its
    banner. *)
Lemma main_prints_banner CONFIG name dry_run depth w :
  ∃ evs, trace (main M CONFIG name dry_run (S depth) w).2
         = trace w ++ EvPrint MsgBanner :: evs.
Proof.
  simpl. unfold main_body. rewrite !bind_assoc.
  unfold bind at 1. unfold read_fs at 1. cbn beta iota.
  rewrite bind_assoc, bind_print.
  match goal with |- context [trace (?c (say w [MsgBanner])).2] =>
    assert (Hrest : traced c) end.
  { repeat traced_step; first [ apply dispose_traced | apply main_traced ]. }
  destruct (Hrest (say w [MsgBanner])) as (evs & Ht & _).
  exists evs. rewrite Ht. simpl. by rewrite <- app_assoc.
Qed.

Lemma exec_all_app name dry_run old_python config_yml depth l1 l2 CONFIG w :
  exec_all M name dry_run old_python config_yml depth (l1 ++ l2) CONFIG w
  = bind (exec_all M name dry_run old_python config_yml depth l1 CONFIG)
         (exec_all M name dry_run old_python config_yml depth l2) w.
Proof.
  revert CONFIG w. induction l1 as [| s l1 IH]; intros CONFIG w; simpl; [done |].
  rewrite bind_assoc. apply bind_ext. intros c w1. apply IH.
Qed.

End ModuleFacts.

Lemma running_the_module_is_startup (M : machine) (name : string)
    (dry_run old_python : bool) (config_yml : option (config → config))
    (depth : nat) (w : world M) :
  run_module M name dry_run old_python config_yml depth w
  = (Val (load_config config_yml),
     World (fs w) (keys w) (lines w) (trace w ++ startup_events old_python)).
Proof.
  unfold run_module, module_body, startup_events.
  destruct old_python; simpl; unfold bind, print, emit, ret; simpl;
    by rewrite <- ?app_assoc.
Qed.

(** C2.  Running the file, under any [__name__], prints the start-up lines,
    binds [CONFIG] and ends: the file system, the keys and the input lines
    are untouched, and the banner every call of [main] starts with is not
    among the events, so [main] has not been called.  The guard on
    [__name__] and the call it protects are the last two lines of the body
    of [main] itself. *)
Theorem running_the_module_never_calls_main (M : machine) (name : string)
    (dry_run old_python : bool) (config_yml : option (config → config))
    (depth : nat) (w : world M) :
  run_module M name dry_run old_python config_yml depth w
  = (Val (load_config config_yml),
     World (fs w) (keys w) (lines w) (trace w ++ startup_events old_python))
  ∧ (EvPrint MsgBanner ∉ startup_events old_python)
  ∧ Forall (λ e, match e with EvPrint _ => True | _ => False end)
           (startup_events old_python)
  ∧ (∀ CONFIG d w0, ∃ evs,
       trace (main M CONFIG name dry_run (S d) w0).2
       = trace w0 ++ EvPrint MsgBanner :: evs)
  ∧ (∀ CONFIG d w0,
       main M CONFIG name dry_run (S d) w0
       = bind (main_body M CONFIG dry_run)
              (λ reached_end : bool,
                 if reached_end
                 then if String.eqb name "__main__"
                      then main M CONFIG name dry_run d else ret tt
                 else ret tt) w0).
Proof.
  split; [| split; [| split; [| split]]].
  - apply running_the_module_is_startup.
  - unfold startup_events. destruct old_python; simpl;
      intros H; repeat (apply elem_of_cons in H as [H | H]; [discriminate |]);
      by apply elem_of_nil in H.
  - unfold startup_events. destruct old_python; simpl; by repeat constructor.
  - intros CONFIG d w0. apply main_prints_banner.
  - reflexivity.
Qed.

(** Had the last two lines been at the top level, running the file as a
    script would have called [main]. *)
Lemma guard_at_top_level_calls_main (M : machine) (dry_run old_python : bool)
    (config_yml : option (config → config)) (depth : nat) (w : world M) :
  ∃ evs,
    trace (exec_all M "__main__" dry_run old_python config_yml (S depth)
             module_body_with_guard DEFAULT_CONFIG w).2
    = trace w ++ startup_events old_python ++ EvPrint MsgBanner :: evs.
Proof.
  unfold module_body_with_guard. rewrite exec_all_app. unfold bind at 1.
  fold (run_module M "__main__" dry_run old_python config_yml (S depth)).
  rewrite (running_the_module_is_startup M "__main__" dry_run old_python
             config_yml (S depth) w).
  cbn [exec_all exec String.eqb Ascii.eqb Bool.eqb]. unfold bind at 1. unfold bind at 1.
  unfold bind at 1.
  match goal with |- context [main M ?c _ _ _ ?w1] =>
    destruct (main_prints_banner M c "__main__" dry_run depth w1) as (evs & Ht);
    destruct (main M c "__main__" dry_run (S depth) w1) as [[[] | | e] w2]
  end; simpl in *; exists evs; by rewrite Ht, <- app_assoc.
Qed.

(** ** The theorems at work on the example tree *)

Lemma ex_options_nonempty : ex_options ≠ [].
Proof. discriminate. Qed.

(** The keys of the example: toggle, down twice (the second stops at the
    last option), toggle, select all, a key without meaning, up, deselect
    all, toggle. *)
Example ex_menu_run :
  operations ex_keys
  = [ ToggleCurrent; MoveDown; MoveDown; ToggleCurrent; SelectAll; NoOperation;
      MoveUp; DeselectAll; ToggleCurrent ]
  ∧ (interactive_select ex_options ex_keys).2 = Menu [ true; false ] 0.
Proof. split; vm_compute; reflexivity. Qed.

Lemma selection_state_invariant_witness :
  menu_ok ex_options (interactive_select ex_options ex_keys).2
  ∧ (interactive_select ex_options ex_keys).2
    = foldl (λ m op, operate ex_options op m) (initial_menu ex_options)
            (operations ex_keys).
Proof.
  pose proof (selection_state_invariant ex_options ex_keys ex_options_nonempty) as H.
  destruct (interactive_select ex_options ex_keys) as [[[out rest] printed] m].
  exact (conj (proj1 (proj2 H)) (proj1 (proj2 (proj2 (proj2 H))))).
Defined.

Lemma ex_unused_nonempty ks ls :
  unused_found ex_machine DEFAULT_CONFIG (ex_world ks ls) ≠ ∅.
Proof. decide_by_computation. Qed.

Lemma ex_menu_quit ls :
  interactive_select (menu_options ex_machine DEFAULT_CONFIG (ex_world [ "q"%char ] ls))
                     (keys (ex_world [ "q"%char ] ls))
  = (Val None, [], [ MsgMenu ex_options [ false; false ] 0 ], Menu [ false; false ] 0).
Proof. vm_compute. reflexivity. Qed.


(** Quit at the menu, with two affirmative lines waiting: nothing is
    removed and the lines are not read. *)
Lemma mutation_requires_two_confirmations_witness :
  ∃ ms, main ex_machine DEFAULT_CONFIG "PyClutterCutter" false 1
             (ex_world [ "q"%char ] [ "y"; "y" ])
        = (Val tt, World (M := ex_machine) (list_to_set ex_tree_files) [] [ "y"; "y" ]
                         ([] ++ (EvPrint <$> ms) ++ [ EvPrint MsgOperationCancelled ])).
Proof.
  destruct (mutation_requires_two_confirmations ex_machine DEFAULT_CONFIG
              "PyClutterCutter" false) as (_ & _ & _ & Hquit).
  exact (Hquit 0 (ex_world [ "q"%char ] [ "y"; "y" ]) _ _ _
               (ex_unused_nonempty _ _) (ex_menu_quit _)).
Defined.


Lemma ex_archive_absent :
  os_path_exists ex_machine "/proj/Guido_Gallery" (fs (ex_world [] [])) = false.
Proof. vm_compute. reflexivity. Qed.

Lemma ex_makedirs_succeeds :
  (os_makedirs ex_machine "/proj/Guido_Gallery" (fs (ex_world [] []))).2 = None.
Proof. reflexivity. Qed.

(** A batch whose second file does not exist: the third is still moved. *)
Lemma batch_failures_are_isolated_witness :
  move_to_archive ex_machine ex_batch "/proj/Guido_Gallery" (ex_world [] [])
  = (Val tt,
     World (M := ex_machine)
       (batch (move_call ex_machine "/proj/Guido_Gallery") MsgMoved MsgErrorMoving
              ex_batch
              (os_makedirs ex_machine "/proj/Guido_Gallery" (fs (ex_world [] []))).1).1
       [] []
       ([] ++ EvMakedirs "/proj/Guido_Gallery"
           :: attempts (move_event "/proj/Guido_Gallery") ex_batch
                (batch (move_call ex_machine "/proj/Guido_Gallery") MsgMoved
                       MsgErrorMoving ex_batch
                       (os_makedirs ex_machine "/proj/Guido_Gallery"
                                    (fs (ex_world [] []))).1).2)).
Proof.
  destruct (batch_failures_are_isolated ex_machine ex_batch "/proj/Guido_Gallery"
              (ex_world [] [])) as (_ & _ & _ & _ & _ & Hmk).
  exact (proj1 (Hmk ex_archive_absent ex_makedirs_succeeds)).
Defined.

Example ex_batch_run :
  let w := (move_to_archive ex_machine ex_batch "/proj/Guido_Gallery" (ex_world [] [])).2 in
  trace w = [ EvMakedirs "/proj/Guido_Gallery";
              EvMove "/proj/helpers.py" "/proj/Guido_Gallery/helpers.py";
              EvPrint (MsgMoved "/proj/helpers.py");
              EvMove "/proj/gone.py" "/proj/Guido_Gallery/gone.py";
              EvPrint (MsgErrorMoving "/proj/gone.py" "No such file or directory");
              EvMove "/proj/unrelated.py" "/proj/Guido_Gallery/unrelated.py";
              EvPrint (MsgMoved "/proj/unrelated.py") ]
  ∧ "/proj/Guido_Gallery/unrelated.py" ∈ fs w ∧ "/proj/unrelated.py" ∉ fs w.
Proof.
  split; [vm_compute; reflexivity |]. split; decide_by_computation.
Qed.

(** ** More about the inventory *)

Section InventoryFacts.
Variable CONFIG : config.
Variable E : system.

Lemma process_result_all_files st p info is_main :
  all_files (process_result CONFIG E st (Some (p, info, is_main)))
  = <[ p := info ]> (all_files st).
Proof.
  simpl. destruct is_main.
  - match goal with |- context [process_main E p ?s] =>
      destruct (process_main_grows E p s) as (_ & _ & _ & -> & _) end.
    by destruct (size info >? SIZE_THRESHOLD CONFIG)%Z.
  - by destruct (size info >? SIZE_THRESHOLD CONFIG)%Z.
Qed.

Lemma dom_all_files_foldl results st p :
  p ∈ dom (all_files (foldl (process_result CONFIG E) st results))
  ↔ p ∈ dom (all_files st) ∨ ∃ info is_main, Some (p, info, is_main) ∈ results.
Proof.
  revert st. induction results as [| r results IH]; intros st; simpl.
  - split; [auto |]. intros [H | (info & b & H)]; [done | by apply elem_of_nil in H].
  - rewrite IH. destruct r as [[[q info] b] |].
    + rewrite process_result_all_files, dom_insert_L, elem_of_union, elem_of_singleton.
      split.
      * intros [[-> | H] | (i & b' & H)]; [right | by left | right].
        -- exists info, b. left.
        -- exists i, b'. by right.
      * intros [H | (i & b' & H)]; [by left; right |].
        apply elem_of_cons in H as [[= -> -> ->] | H]; [by left; left | right; eauto].
    + simpl. split.
      * intros [H | (i & b' & H)]; [by left | right]. exists i, b'. by right.
      * intros [H | (i & b' & H)]; [by left |].
        apply elem_of_cons in H as [H | H]; [discriminate | right; eauto].
Qed.

Lemma existsb_elements (f : string → bool) (s : gset string) :
  existsb f (elements s) = true ↔ ∃ x, x ∈ s ∧ f x = true.
Proof.
  rewrite existsb_exists. split; intros (x & Hx & Hf); exists x; (split; [| done]).
  - by apply elem_of_elements, list_elem_of_In.
  - by apply list_elem_of_In, elem_of_elements.
Qed.

Lemma elem_of_scan_results directory p info is_main :
  Some (p, info, is_main) ∈ scan_results CONFIG E directory
  ↔ inventoried CONFIG E directory p
    ∧ info = stat E p
    ∧ is_main = String.eqb (basename p) (MAIN_FILE CONFIG).
Proof.
  unfold scan_results, file_list, inventoried.
  rewrite list_elem_of_fmap. split.
  - intros (args & Hres & Hargs). apply list_elem_of_fmap in Hargs as (q & -> & Hq).
    apply list_elem_of_filter in Hq as [Hself Hwalk].
    unfold process_file, get_file_info in Hres.
    destruct (should_ignore E q _ _) eqn:Hign; simpl in Hres; [discriminate |].
    destruct (existsb _ _) eqn:Hext; [| discriminate].
    injection Hres as -> -> ->. apply existsb_elements in Hext.
    repeat split; done.
  - intros ((Hwalk & Hself & Hign & Hext) & -> & ->).
    exists (p, parse_gitignore E directory, IGNORE_DIRS CONFIG, MAIN_FILE CONFIG).
    split.
    + unfold process_file, get_file_info. rewrite Hign. simpl.
      pose proof (proj2 (existsb_elements (λ ext, endswith p ext) _) Hext) as Hb.
      by rewrite Hb.
    + apply list_elem_of_fmap. exists p. split; [done |].
      by apply list_elem_of_filter.
Qed.

Lemma inventory_spec directory p :
  p ∈ dom (all_files (scan CONFIG E directory)) ↔ inventoried CONFIG E directory p.
Proof.
  unfold scan. rewrite dom_all_files_foldl. simpl. rewrite dom_empty_L. split.
  - intros [H | (info & b & H)]; [by apply not_elem_of_empty in H |].
    by apply elem_of_scan_results in H as [H _].
  - intros H. right. exists (stat E p), (String.eqb (basename p) (MAIN_FILE CONFIG)).
    by apply elem_of_scan_results.
Qed.

End InventoryFacts.

(** ** What one entry file contributes, whatever was collected before *)

Section ContributionFacts.
Variable CONFIG : config.
Variable E : system.

Lemma resolve_import_frame (n : string) (st st0 : scan_state)
    (B : gset string) (P : gset (string * string)) :
  used_files st = B ∪ used_files st0 →
  problematic_imports st = P ∪ problematic_imports st0 →
  (resolve_import E n st).2 = (resolve_import E n st0).2
  ∧ used_files (resolve_import E n st).1 = B ∪ used_files (resolve_import E n st0).1
  ∧ problematic_imports (resolve_import E n st).1
    = P ∪ problematic_imports (resolve_import E n st0).1.
Proof.
  intros Hu Hp. unfold resolve_import.
  destruct (find_spec E (split_dot_head n)) as [spec | e].
  - destruct (spec_origin spec); simpl; rewrite ?Hu, ?Hp; repeat split; set_solver.
  - destruct (caught_by_resolver e); simpl; rewrite ?Hu, ?Hp; repeat split; set_solver.
Qed.

Lemma resolve_imports_frame (names : list string) (st st0 : scan_state)
    (B : gset string) (P : gset (string * string)) :
  used_files st = B ∪ used_files st0 →
  problematic_imports st = P ∪ problematic_imports st0 →
  (resolve_imports E names st).2 = (resolve_imports E names st0).2
  ∧ used_files (resolve_imports E names st).1
    = B ∪ used_files (resolve_imports E names st0).1
  ∧ problematic_imports (resolve_imports E names st).1
    = P ∪ problematic_imports (resolve_imports E names st0).1.
Proof.
  revert st st0. induction names as [| n names IH]; intros st st0 Hu Hp; simpl; [done |].
  destruct (resolve_import_frame n st st0 B P Hu Hp) as (Hr & Hu1 & Hp1).
  destruct (resolve_import E n st) as [st1 r1], (resolve_import E n st0) as [st01 r01].
  simpl in *. subst r01. destruct r1 as [e |]; simpl; [done |]. by apply IH.
Qed.

Lemma process_main_frame p st :
  used_files (process_main E p st)
  = used_files st ∪ used_files (process_main E p initial_scan)
  ∧ problematic_imports (process_main E p st)
    = problematic_imports st ∪ problematic_imports (process_main E p initial_scan).
Proof.
  unfold process_main. destruct (get_imported_modules E p) as [imports | e].
  - destruct (resolve_imports_frame (set_order E imports)
                (set_used (λ u, u ∪ {[ p ]}) st)
                (set_used (λ u, u ∪ {[ p ]}) initial_scan)
                (used_files st) (problematic_imports st)) as (Hr & Hu & Hp).
    { simpl. set_solver. }
    { simpl. set_solver. }
    destruct (resolve_imports E _ (set_used _ st)) as [st1 r1],
             (resolve_imports E _ (set_used _ initial_scan)) as [st01 r01].
    simpl in *. subst r01. by destruct r1.
  - simpl. split; set_solver.
Qed.

Lemma process_result_sets st p info is_main :
  used_files (process_result CONFIG E st (Some (p, info, is_main)))
  = (if is_main then used_files st ∪ used_files (process_main E p initial_scan)
     else used_files st)
  ∧ problematic_imports (process_result CONFIG E st (Some (p, info, is_main)))
    = (if is_main
       then problematic_imports st ∪ problematic_imports (process_main E p initial_scan)
       else problematic_imports st).
Proof.
  simpl. destruct is_main.
  - match goal with |- context [process_main E p ?s] =>
      destruct (process_main_frame p s) as [-> ->] end.
    by destruct (size info >? SIZE_THRESHOLD CONFIG)%Z.
  - by destruct (size info >? SIZE_THRESHOLD CONFIG)%Z.
Qed.

Lemma foldl_sets_decompose results st :
  (∀ x, x ∈ used_files (foldl (process_result CONFIG E) st results)
        ↔ x ∈ used_files st
          ∨ ∃ p info, Some (p, info, true) ∈ results
                      ∧ x ∈ used_files (process_main E p initial_scan))
  ∧ (∀ y, y ∈ problematic_imports (foldl (process_result CONFIG E) st results)
          ↔ y ∈ problematic_imports st
            ∨ ∃ p info, Some (p, info, true) ∈ results
                        ∧ y ∈ problematic_imports (process_main E p initial_scan)).
Proof.
  revert st. induction results as [| r results IH]; intros st; simpl.
  - split; intros z; (split; [auto |]);
      intros [H | (p & info & H & _)]; done || by apply elem_of_nil in H.
  - destruct (IH (process_result CONFIG E st r)) as [IHu IHp].
    destruct r as [[[q info] b] |].
    + destruct (process_result_sets st q info b) as [Hu Hp].
      split; intros z; [rewrite IHu, Hu | rewrite IHp, Hp]; destruct b.
      * split.
        -- intros [[H | H]%elem_of_union | (p & i & H & Hz)]; [by left | right ..].
           ++ exists q, info. split; [left | done].
           ++ exists p, i. split; [by right | done].
        -- intros [H | (p & i & H & Hz)]; [left; apply elem_of_union; by left |].
           apply elem_of_cons in H as [H | H]; [| right; eauto].
           injection H as -> ->. left. apply elem_of_union. by right.
      * split.
        -- intros [H | (p & i & H & Hz)]; [by left | right].
           exists p, i. split; [by right | done].
        -- intros [H | (p & i & H & Hz)]; [by left |].
           apply elem_of_cons in H as [H | H]; [discriminate | right; eauto].
      * split.
        -- intros [[H | H]%elem_of_union | (p & i & H & Hz)]; [by left | right ..].
           ++ exists q, info. split; [left | done].
           ++ exists p, i. split; [by right | done].
        -- intros [H | (p & i & H & Hz)]; [left; apply elem_of_union; by left |].
           apply elem_of_cons in H as [H | H]; [| right; eauto].
           injection H as -> ->. left. apply elem_of_union. by right.
      * split.
        -- intros [H | (p & i & H & Hz)]; [by left | right].
           exists p, i. split; [by right | done].
        -- intros [H | (p & i & H & Hz)]; [by left |].
           apply elem_of_cons in H as [H | H]; [discriminate | right; eauto].
    + split; intros z; [rewrite IHu | rewrite IHp]; simpl.
      * split.
        -- intros [H | (p & i & H & Hz)]; [by left | right].
           exists p, i. split; [by right | done].
        -- intros [H | (p & i & H & Hz)]; [by left |].
           apply elem_of_cons in H as [H | H]; [discriminate | right; eauto].
      * split.
        -- intros [H | (p & i & H & Hz)]; [by left | right].
           exists p, i. split; [by right | done].
        -- intros [H | (p & i & H & Hz)]; [by left |].
           apply elem_of_cons in H as [H | H]; [discriminate | right; eauto].
Qed.

Lemma scan_sets_decompose directory :
  (∀ x, x ∈ used_files (scan CONFIG E directory)
        ↔ ∃ p, p ∈ entry_candidates CONFIG E directory
               ∧ x ∈ used_files (process_main E p initial_scan))
  ∧ (∀ y, y ∈ problematic_imports (scan CONFIG E directory)
          ↔ ∃ p, p ∈ entry_candidates CONFIG E directory
                 ∧ y ∈ problematic_imports (process_main E p initial_scan)).
Proof.
  destruct (foldl_sets_decompose (scan_results CONFIG E directory) initial_scan)
    as [Hu Hp].
  split; intros z; [rewrite (Hu z) | rewrite (Hp z)]; simpl.
  all: setoid_rewrite elem_of_entry_candidates; split;
    [ intros [H | (p & i & H & Hz)]; [by apply not_elem_of_empty in H | eauto]
    | intros (p & [i H] & Hz); eauto ].
Qed.

End ContributionFacts.

Section ScanEdgeFacts.
Variable CONFIG : config.
Variable E : system.

(** Results without an entry flag leave the used set, the problematic
    imports and the output alone. *)
Lemma foldl_without_entry results st :
  (∀ p info is_main, Some (p, info, is_main) ∈ results → is_main = false) →
  used_files (foldl (process_result CONFIG E) st results) = used_files st
  ∧ problematic_imports (foldl (process_result CONFIG E) st results)
    = problematic_imports st
  ∧ scan_printed (foldl (process_result CONFIG E) st results) = scan_printed st.
Proof.
  revert st. induction results as [| r results IH]; intros st Hno; simpl; [done |].
  destruct (IH (process_result CONFIG E st r)) as (-> & -> & ->).
  { intros p info b H. apply (Hno p info b). by right. }
  destruct r as [[[q info] b] |]; [| done].
  rewrite (Hno q info b) by left. simpl.
  by destruct (size info >? SIZE_THRESHOLD CONFIG)%Z.
Qed.

(** A lookup that raises outside the three caught classes ends the loop:
    the names after it are not looked up. *)
Lemma resolve_imports_stray pre n post e st :
  Forall (no_stray_exception E) pre →
  find_spec E (split_dot_head n) = Raise e →
  ¬ import_failure e →
  resolve_imports E (pre ++ n :: post) st = ((resolve_imports E pre st).1, Some e).
Proof.
  intros Hpre Hn He%not_caught_by_resolver_spec. revert st.
  induction Hpre as [| m pre Hm Hpre IH]; intros st; simpl.
  - unfold resolve_import. by rewrite Hn, He.
  - destruct (resolve_import_spec E m st Hm) as (st1 & -> & _). apply IH.
Qed.

End ScanEdgeFacts.

(** ** What an entry file contributes (claim C3) *)

(** The import names in iteration order split into those that are looked
    up and the rest: the loop stops at the first name whose lookup raises
    an exception of another class than the three it catches. *)
Lemma imports_split (E : system) (imports : list string) :
  ∃ processed rest,
    imports = processed ++ rest
    ∧ Forall (no_stray_exception E) processed
    ∧ (rest = [] ∨ ∃ n rest' e, rest = n :: rest' ∧ stray_exception E n e).
Proof.
  induction imports as [| n imports (processed & rest & -> & Hall & Hrest)].
  - exists [], []. split; [done |]. split; [constructor | by left].
  - destruct (find_spec E (split_dot_head n)) as [spec | e] eqn:Hfs.
    + exists (n :: processed), rest. split; [done |]. split; [| done].
      constructor; [| done]. intros e He. unfold no_stray_exception in *. congruence.
    + destruct (caught_by_resolver e) eqn:He.
      * exists (n :: processed), rest. split; [done |]. split; [| done].
        constructor; [| done]. intros e' He'.
        apply caught_by_resolver_spec. congruence.
      * exists [], (n :: processed ++ rest). split; [done |].
        split; [constructor |]. right. exists n, (processed ++ rest), e.
        split; [done |]. split; [done | by apply not_caught_by_resolver_spec].
Qed.

(** What the [if is_main:] block adds to the used set and to the
    problematic imports, in every case. *)
Lemma process_main_contribution (E : system) (file_path : path) (st : scan_state) :
  (∀ e, read_and_parse E file_path = Raise e →
     used_files (process_main E file_path st) = used_files st ∪ {[ file_path ]}
     ∧ problematic_imports (process_main E file_path st) = problematic_imports st)
  ∧ (∀ tree, read_and_parse E file_path = Ok tree →
       ∃ processed rest,
         set_order E (imports_of_tree tree) = processed ++ rest
         ∧ Forall (no_stray_exception E) processed
         ∧ (rest = [] ∨ ∃ n rest' e, rest = n :: rest' ∧ stray_exception E n e)
         ∧ (∀ x, x ∈ used_files (process_main E file_path st) ↔
              x ∈ used_files st ∨ x = file_path
              ∨ ∃ n, n ∈ processed ∧ resolves_to E n x)
         ∧ (∀ n r, (n, r) ∈ problematic_imports (process_main E file_path st) ↔
              (n, r) ∈ problematic_imports st ∨ (n ∈ processed ∧ fails_with E n r))).
Proof.
  split.
  - intros e He. unfold process_main, get_imported_modules. by rewrite He.
  - intros tree Htree.
    destruct (imports_split E (set_order E (imports_of_tree tree)))
      as (processed & rest & Horder & Hall & Hrest).
    exists processed, rest. split; [done |]. split; [done |]. split; [done |].
    unfold process_main, get_imported_modules. rewrite Htree, Horder.
    destruct (resolve_imports_spec E processed
                (set_used (λ u, u ∪ {[ file_path ]}) st) Hall)
      as (st1 & Heq & Hu & Hp & _).
    destruct Hrest as [-> | (n & rest' & e & -> & Hn & He)].
    + rewrite app_nil_r, Heq. split.
      * intros x. rewrite Hu. simpl. rewrite elem_of_union, elem_of_singleton. tauto.
      * intros n r. by rewrite Hp.
    + rewrite (resolve_imports_stray E processed n rest' e _ Hall Hn He), Heq.
      simpl. split.
      * intros x. rewrite Hu. simpl. rewrite elem_of_union, elem_of_singleton. tauto.
      * intros m r. by rewrite Hp.
Qed.

(** C3, amended.  Every inventoried file whose basename is the configured
    entry name is treated as an entry file, and none is singled out: each
    is in the used set, and the used set is exactly the union of what each
    of them contributes on its own.  A candidate that cannot be read or
    parsed contributes itself; one that parses contributes itself and the
    origins of its import names that resolve, taken in iteration order up
    to the first name, if any, whose lookup raises an exception other than
    [ImportError], [ModuleNotFoundError] or [AttributeError]. *)
Theorem every_entry_candidate_is_entry (CONFIG : config) (E : system)
    (directory : path) :
  let st := scan CONFIG E directory in
  let contribution p := used_files (process_main E p initial_scan) in
  (∀ p, p ∈ entry_candidates CONFIG E directory → p ∈ used_files st)
  ∧ (∀ x, x ∈ used_files st ↔
       ∃ p, p ∈ entry_candidates CONFIG E directory ∧ x ∈ contribution p)
  ∧ (∀ p e, read_and_parse E p = Raise e → contribution p = {[ p ]})
  ∧ (∀ p tree, read_and_parse E p = Ok tree →
       ∃ processed rest,
         set_order E (imports_of_tree tree) = processed ++ rest
         ∧ Forall (no_stray_exception E) processed
         ∧ (rest = [] ∨ ∃ n rest' e, rest = n :: rest' ∧ stray_exception E n e)
         ∧ ∀ x, x ∈ contribution p ↔
             x = p ∨ ∃ n, n ∈ processed ∧ resolves_to E n x).
Proof.
  intros st contribution.
  destruct (scan_sets_decompose CONFIG E directory) as [Hused _]. fold st in Hused.
  split; [| split; [exact Hused | split]].
  - intros p Hp. apply Hused. exists p. split; [done |].
    by destruct (process_main_grows E p initial_scan) as (_ & Hseed & _).
  - intros p e He. unfold contribution.
    destruct (process_main_contribution E p initial_scan) as [Hfail _].
    destruct (Hfail e He) as [-> _]. simpl. set_solver.
  - intros p tree Htree.
    destruct (process_main_contribution E p initial_scan) as [_ Hparse].
    destruct (Hparse tree Htree) as (processed & rest & Ho & Hall & Hrest & Hu & _).
    exists processed, rest. split; [done |]. split; [done |]. split; [done |].
    intros x. unfold contribution. rewrite Hu. simpl. set_solver.
Qed.

Lemma ex_os_contributed :
  "/usr/lib/python3/os.py" ∈ used_files (process_main ex_sys "/proj/app.py" initial_scan).
Proof. decide_by_computation. Qed.

(** Both files named [app.py] are in the used set, and so is what the
    first of them imports. *)
Lemma every_entry_candidate_is_entry_witness :
  "/proj/app.py" ∈ used_files (scan DEFAULT_CONFIG ex_sys "/proj")
  ∧ "/proj/old/app.py" ∈ used_files (scan DEFAULT_CONFIG ex_sys "/proj")
  ∧ "/usr/lib/python3/os.py" ∈ used_files (scan DEFAULT_CONFIG ex_sys "/proj").
Proof.
  destruct (every_entry_candidate_is_entry DEFAULT_CONFIG ex_sys "/proj")
    as (Hseed & Hunion & _).
  split; [exact (Hseed "/proj/app.py" ex_app_is_candidate) |].
  split; [exact (Hseed "/proj/old/app.py" ex_old_app_is_candidate) |].
  exact (proj2 (Hunion "/usr/lib/python3/os.py")
           (ex_intro _ "/proj/app.py" (conj ex_app_is_candidate ex_os_contributed))).
Defined.

(** ** The inventory and what is reported (X1 to X7) *)

(** X1.  A path is in the inventory exactly when the traversal yields it,
    it is not the tool's own file under [EXCLUDE_SELF], the ignore filter
    lets it pass and it ends with one of the configured extensions. *)
Theorem inventory_is_filtered_walk (CONFIG : config) (E : system)
    (directory : path) (p : path) :
  p ∈ dom (all_files (scan CONFIG E directory)) ↔ inventoried CONFIG E directory p.
Proof. apply inventory_spec. Qed.

(** X2.  The unused set and the large set hold inventoried files only.  So
    the tool's own file (under [EXCLUDE_SELF]), a file whose relative path
    starts with the text of an ignored directory name, and a file that
    matches a pattern of [.gitignore] are in neither of them. *)
Theorem excluded_files_are_never_reported (CONFIG : config) (E : system)
    (directory : path) :
  let st := scan CONFIG E directory in
  let reported p := p ∈ dom (all_files st) ∨ p ∈ unused_files st ∨ p ∈ large_files st in
  unused_files st ⊆ dom (all_files st)
  ∧ large_files st ⊆ dom (all_files st)
  ∧ (EXCLUDE_SELF CONFIG = true → ¬ reported (current_script E))
  ∧ (∀ p d, d ∈ IGNORE_DIRS CONFIG →
       startswith (relpath E p (getcwd E)) d = true → ¬ reported p)
  ∧ (∀ p pattern, pattern ∈ parse_gitignore E directory →
       fnmatch E (relpath E p (getcwd E)) pattern = true → ¬ reported p).
Proof.
  intros st reported.
  assert (Hunused : unused_files st ⊆ dom (all_files st)).
  { unfold unused_files. set_solver. }
  assert (Hlarge : large_files st ⊆ dom (all_files st)).
  { intros p Hp. by apply (large_inv_scan CONFIG E directory) in Hp as [Hp _]. }
  assert (Hrep : ∀ p, ¬ inventoried CONFIG E directory p → ¬ reported p).
  { intros p Hno [H | [H | H]]; apply Hno, inventory_spec; auto. }
  split; [done |]. split; [done |]. split; [| split].
  - intros Hself. apply Hrep. intros (_ & Hnot & _). by apply Hnot.
  - intros p d Hd Hstart. apply Hrep. intros (_ & _ & Hign & _).
    unfold should_ignore in Hign. apply orb_false_elim in Hign as [Hign _].
    assert (existsb (λ ignore, startswith (relpath E p (getcwd E)) ignore)
                    (elements (IGNORE_DIRS CONFIG)) = true) as Hex
      by (apply existsb_elements; eauto).
    congruence.
  - intros p pattern Hpat Hmatch. apply Hrep. intros (_ & _ & Hign & _).
    unfold should_ignore in Hign. apply orb_false_elim in Hign as [_ Hign].
    assert (existsb (λ pat, fnmatch E (relpath E p (getcwd E)) pat)
                    (elements (parse_gitignore E directory)) = true) as Hex
      by (apply existsb_elements; eauto).
    congruence.
Qed.

Lemma excluded_files_are_never_reported_witness :
  "/proj/PyClutterCutter.py" ∉ unused_files (scan DEFAULT_CONFIG ex_sys "/proj").
Proof.
  destruct (excluded_files_are_never_reported DEFAULT_CONFIG ex_sys "/proj")
    as (_ & _ & Hself & _).
  intros H. apply (Hself eq_refl). right. left. exact H.
Defined.

(** X3.  When no walked file carries the entry name, nothing is used,
    nothing is problematic, nothing is printed, and every inventoried file
    is reported unused. *)
Theorem no_entry_file_everything_unused (CONFIG : config) (E : system)
    (directory : path) :
  (∀ p, p ∈ os_walk E directory → basename p ≠ MAIN_FILE CONFIG) →
  let st := scan CONFIG E directory in
  used_files st = ∅
  ∧ problematic_imports st = ∅
  ∧ scan_printed st = []
  ∧ unused_files st = dom (all_files st).
Proof.
  intros Hno st.
  destruct (foldl_without_entry CONFIG E (scan_results CONFIG E directory) initial_scan)
    as (Hu & Hp & Hpr).
  { intros p info b H. apply elem_of_scan_results in H as ((Hwalk & _) & _ & ->).
    apply String.eqb_neq. by apply Hno. }
  fold (scan CONFIG E directory) in Hu, Hp, Hpr. fold st in Hu, Hp, Hpr.
  split; [done |]. split; [done |]. split; [done |].
  unfold unused_files. rewrite Hu. set_solver.
Qed.

Lemma ex_no_file_named_main p :
  p ∈ os_walk ex_sys "/proj" → basename p ≠ MAIN_FILE ex_config_no_entry.
Proof.
  intros Hp. apply String.eqb_neq.
  assert (Hall : Forall (λ q, String.eqb (basename q) (MAIN_FILE ex_config_no_entry) = false)
                        (os_walk ex_sys "/proj")).
  { apply (bool_decide_unpack _). vm_compute. exact I. }
  rewrite Forall_forall in Hall. by apply Hall.
Qed.

Lemma no_entry_file_everything_unused_witness :
  used_files (scan ex_config_no_entry ex_sys "/proj") = ∅
  ∧ unused_files (scan ex_config_no_entry ex_sys "/proj")
    = dom (all_files (scan ex_config_no_entry ex_sys "/proj")).
Proof.
  destruct (no_entry_file_everything_unused ex_config_no_entry ex_sys "/proj"
              ex_no_file_named_main) as (Hu & _ & _ & Hun).
  exact (conj Hu Hun).
Defined.

(** X4.  When none of the entry files can be read or parsed, the used set
    is exactly the entry files and no import is reported as problematic:
    the run goes on with what it has. *)
Theorem unparsable_entries_contribute_themselves (CONFIG : config) (E : system)
    (directory : path) :
  (∀ p, p ∈ entry_candidates CONFIG E directory →
        ∃ e, read_and_parse E p = Raise e) →
  let st := scan CONFIG E directory in
  (∀ x, x ∈ used_files st ↔ x ∈ entry_candidates CONFIG E directory)
  ∧ problematic_imports st = ∅
  ∧ unused_files st
    = dom (all_files st) ∖ list_to_set (entry_candidates CONFIG E directory).
Proof.
  intros Hfail st.
  destruct (scan_sets_decompose CONFIG E directory) as [Hu Hp]. fold st in Hu, Hp.
  assert (Hown : ∀ p, p ∈ entry_candidates CONFIG E directory →
            used_files (process_main E p initial_scan) = {[ p ]}
            ∧ problematic_imports (process_main E p initial_scan) = ∅).
  { intros p Hp'. destruct (Hfail p Hp') as [e He].
    unfold process_main, get_imported_modules. rewrite He. simpl.
    split; [set_solver | done]. }
  assert (Hused : ∀ x, x ∈ used_files st ↔ x ∈ entry_candidates CONFIG E directory).
  { intros x. rewrite Hu. split.
    - intros (p & Hp' & Hx). destruct (Hown p Hp') as [Hown1 _].
      rewrite Hown1 in Hx. by apply elem_of_singleton in Hx as ->.
    - intros Hx. exists x. split; [done |]. destruct (Hown x Hx) as [-> _].
      by apply elem_of_singleton. }
  split; [done |]. split.
  - apply set_eq. intros y. rewrite Hp. split; [| by intros H%not_elem_of_empty].
    intros (p & Hp' & Hy). destruct (Hown p Hp') as [_ Hown2]. by rewrite Hown2 in Hy.
  - unfold unused_files. apply set_eq. intros x.
    rewrite !elem_of_difference, elem_of_list_to_set, Hused. tauto.
Qed.

Lemma ex_broken_entries_fail p :
  p ∈ entry_candidates DEFAULT_CONFIG ex_sys_broken_entry "/proj" →
  ∃ e, read_and_parse ex_sys_broken_entry p = Raise e.
Proof. intros _. by eexists. Qed.

Lemma unparsable_entries_contribute_themselves_witness :
  problematic_imports (scan DEFAULT_CONFIG ex_sys_broken_entry "/proj") = ∅.
Proof.
  destruct (unparsable_entries_contribute_themselves DEFAULT_CONFIG
              ex_sys_broken_entry "/proj" ex_broken_entries_fail) as (_ & Hp & _).
  exact Hp.
Defined.

(** X5.  The used set of a scan is the union of what each entry file
    contributes on its own (itself and the origins of its imports), and the
    problematic imports are the union of what each entry file reports:
    what one entry file adds does not depend on what was collected before
    it. *)
Theorem used_is_union_of_entry_contributions (CONFIG : config) (E : system)
    (directory : path) :
  (∀ x, x ∈ used_files (scan CONFIG E directory)
        ↔ ∃ p, p ∈ entry_candidates CONFIG E directory
               ∧ x ∈ used_files (process_main E p initial_scan))
  ∧ (∀ y, y ∈ problematic_imports (scan CONFIG E directory)
          ↔ ∃ p, p ∈ entry_candidates CONFIG E directory
                 ∧ y ∈ problematic_imports (process_main E p initial_scan)).
Proof. apply scan_sets_decompose. Qed.

Lemma inventoried_with_walk CONFIG E directory walk p :
  walk directory ≡ₚ os_walk E directory →
  inventoried CONFIG (with_walk E walk) directory p ↔ inventoried CONFIG E directory p.
Proof.
  intros Hperm. unfold inventoried. simpl.
  change (should_ignore (with_walk E walk) p) with (should_ignore E p).
  by rewrite Hperm.
Qed.

Lemma entry_candidates_with_walk CONFIG E directory walk p :
  walk directory ≡ₚ os_walk E directory →
  p ∈ entry_candidates CONFIG (with_walk E walk) directory
  ↔ p ∈ entry_candidates CONFIG E directory.
Proof.
  intros Hperm. rewrite !elem_of_entry_candidates.
  setoid_rewrite elem_of_scan_results.
  setoid_rewrite (inventoried_with_walk CONFIG E directory walk _ Hperm). done.
Qed.

(** X6.  The order in which the traversal yields the files does not
    matter: a scan of the same files in another order gives the same
    inventory and the same used, problematic, large and unused sets. *)
Theorem traversal_order_does_not_matter (CONFIG : config) (E : system)
    (directory : path) (walk : path → list path) :
  walk directory ≡ₚ os_walk E directory →
  let st := scan CONFIG E directory in
  let st' := scan CONFIG (with_walk E walk) directory in
  all_files st' = all_files st
  ∧ used_files st' = used_files st
  ∧ problematic_imports st' = problematic_imports st
  ∧ large_files st' = large_files st
  ∧ unused_files st' = unused_files st.
Proof.
  intros Hperm st st'.
  assert (Hdom : ∀ p, p ∈ dom (all_files st') ↔ p ∈ dom (all_files st)).
  { intros p. unfold st, st'. rewrite !inventory_spec.
    by apply inventoried_with_walk. }
  assert (Hall : all_files st' = all_files st).
  { apply map_eq. intros p.
    destruct (large_inv_scan CONFIG E directory) as [_ Hinfo].
    destruct (large_inv_scan CONFIG (with_walk E walk) directory) as [_ Hinfo'].
    fold st in Hinfo. fold st' in Hinfo'. specialize (Hdom p).
    rewrite !elem_of_dom in Hdom.
    destruct (all_files st' !! p) as [i' |] eqn:H', (all_files st !! p) as [i |] eqn:H.
    - by rewrite (Hinfo' p i' H'), (Hinfo p i H).
    - destruct Hdom as [Hd _]. destruct Hd as [? ?]; [eauto | discriminate].
    - destruct Hdom as [_ Hd]. destruct Hd as [? ?]; [eauto | discriminate].
    - done. }
  assert (Hused : used_files st' = used_files st).
  { apply set_eq. intros x. unfold st, st'.
    rewrite (proj1 (scan_sets_decompose _ _ _) x), (proj1 (scan_sets_decompose _ _ _) x).
    by setoid_rewrite (entry_candidates_with_walk CONFIG E directory walk _ Hperm). }
  split; [done |]. split; [done |]. split; [| split].
  - apply set_eq. intros y. unfold st, st'.
    rewrite (proj2 (scan_sets_decompose _ _ _) y), (proj2 (scan_sets_decompose _ _ _) y).
    by setoid_rewrite (entry_candidates_with_walk CONFIG E directory walk _ Hperm).
  - apply set_eq. intros p.
    destruct (large_inv_scan CONFIG E directory) as [Hl _].
    destruct (large_inv_scan CONFIG (with_walk E walk) directory) as [Hl' _].
    fold st in Hl. fold st' in Hl'. rewrite Hl, Hl', Hall. done.
  - unfold unused_files. by rewrite Hall, Hused.
Qed.

Lemma ex_reversed_walk :
  os_walk ex_sys_reversed "/proj" ≡ₚ os_walk ex_sys "/proj".
Proof. apply reverse_Permutation. Qed.

Lemma traversal_order_does_not_matter_witness :
  unused_files (scan DEFAULT_CONFIG ex_sys_reversed "/proj")
  = unused_files (scan DEFAULT_CONFIG ex_sys "/proj").
Proof.
  destruct (traversal_order_does_not_matter DEFAULT_CONFIG ex_sys "/proj"
              (λ d, reverse (os_walk ex_sys d)) ex_reversed_walk)
    as (_ & _ & _ & _ & Hunused).
  exact Hunused.
Defined.

(** X7.  A lookup that raises an exception outside [ImportError],
    [ModuleNotFoundError] and [AttributeError] ends the resolution of that
    entry file: the names before it in iteration order have been processed,
    the names after it are never looked up, and one error line is printed
    for the file. *)
Theorem stray_exception_stops_resolution (E : system) (file_path : path)
    (tree : node) (st : scan_state) (pre : list string) (n : string)
    (post : list string) (e : exn) :
  read_and_parse E file_path = Ok tree →
  set_order E (imports_of_tree tree) = pre ++ n :: post →
  Forall (no_stray_exception E) pre →
  find_spec E (split_dot_head n) = Raise e →
  ¬ import_failure e →
  let st' := process_main E file_path st in
  (∀ p, p ∈ used_files st' ↔
     p ∈ used_files st ∨ p = file_path ∨ ∃ m, m ∈ pre ∧ resolves_to E m p)
  ∧ (∀ m r, (m, r) ∈ problematic_imports st' ↔
       (m, r) ∈ problematic_imports st ∨ (m ∈ pre ∧ fails_with E m r))
  ∧ scan_printed st'
    = scan_printed st ++ [ MsgErrorProcessing file_path (exn_str e) ].
Proof.
  intros Hparse Horder Hpre Hn He st'. subst st'.
  unfold process_main, get_imported_modules. rewrite Hparse, Horder.
  rewrite (resolve_imports_stray E pre n post e _ Hpre Hn He).
  destruct (resolve_imports_spec E pre (set_used (λ u, u ∪ {[ file_path ]}) st) Hpre)
    as (st1 & -> & Hu & Hp & _ & _ & Hpr).
  simpl. split; [| split].
  - intros p. rewrite Hu. simpl. rewrite elem_of_union, elem_of_singleton. tauto.
  - intros m r. by rewrite Hp.
  - by rewrite Hpr.
Qed.

Lemma ex_stray_order :
  set_order ex_sys_stray (imports_of_tree ex_stray_tree)
  = [] ++ "__main__" :: [ "os"; "big" ].
Proof. vm_compute. reflexivity. Qed.

Lemma ex_main_is_stray : ¬ import_failure (Exn ValueError "__main__.__spec__ is None").
Proof. intros [H | [H | H]]; discriminate. Qed.

(** [import __main__] is met first and stops the resolution before [os]
    and [big] are looked up, so neither origin is in the used set. *)
Lemma stray_exception_stops_resolution_witness :
  ("/proj/big.py" ∉ used_files (process_main ex_sys_stray "/proj/app.py" initial_scan))
  ∧ scan_printed (process_main ex_sys_stray "/proj/app.py" initial_scan)
    = [] ++ [ MsgErrorProcessing "/proj/app.py" "__main__.__spec__ is None" ].
Proof.
  destruct (stray_exception_stops_resolution ex_sys_stray "/proj/app.py"
              ex_stray_tree initial_scan [] "__main__" [ "os"; "big" ]
              (Exn ValueError "__main__.__spec__ is None")
              eq_refl ex_stray_order (List.Forall_nil _) eq_refl ex_main_is_stray)
    as (Hu & _ & Hprinted).
  split; [| exact Hprinted].
  intros H. apply Hu in H as [H | [H | (m & Hm & _)]].
  - by apply not_elem_of_empty in H.
  - discriminate.
  - by apply elem_of_nil in Hm.
Defined.

(** ** More about the menu (X8 to X11) *)

Lemma sum_selected_acc (acc : Z) (l : list bool) :
  foldl (λ acc (b : bool), if b then acc + 1 else acc)%Z acc l
  = (acc + sum_selected l)%Z.
Proof.
  unfold sum_selected. revert acc. induction l as [| b l IH]; intros acc; simpl; [lia |].
  destruct b; [rewrite (IH (acc + 1)%Z), (IH (0 + 1)%Z) | rewrite (IH acc)]; lia.
Qed.

Lemma sum_selected_cons (b : bool) (l : list bool) :
  sum_selected (b :: l) = ((if b then 1 else 0) + sum_selected l)%Z.
Proof.
  unfold sum_selected at 1. simpl. destruct b; rewrite sum_selected_acc; lia.
Qed.

Lemma sum_selected_replicate (n : nat) (b : bool) :
  sum_selected (replicate n b) = if b then Z.of_nat n else 0%Z.
Proof.
  induction n as [| n IH]; [by destruct b |].
  simpl. rewrite sum_selected_cons, IH. destruct b; lia.
Qed.

Lemma sum_selected_insert (l : list bool) (i : nat) (b : bool) :
  l !! i = Some b →
  sum_selected (<[ i := negb b ]> l) = (sum_selected l + if b then -1 else 1)%Z.
Proof.
  revert i. induction l as [| x l IH]; intros [| i] Hi; simpl in *; try discriminate.
  - injection Hi as ->. rewrite !sum_selected_cons. destruct b; simpl; lia.
  - rewrite !sum_selected_cons, (IH i Hi). lia.
Qed.

Lemma flagged_length (options : list string) (flags : list bool) :
  length flags = length options →
  Z.of_nat (length (flagged options flags)) = sum_selected flags.
Proof.
  revert flags. induction options as [| o options IH]; intros [| b flags] Hlen;
    simpl in *; try discriminate; [done |].
  rewrite sum_selected_cons. destruct b; simpl; rewrite <- IH by lia; lia.
Qed.

Lemma flagged_sublist (options : list string) (flags : list bool) :
  flagged options flags `sublist_of` options.
Proof.
  revert flags. induction options as [| o options IH]; intros [| b flags]; simpl;
    try apply sublist_nil_l.
  destruct b; [by apply sublist_skip | by apply sublist_cons].
Qed.

Lemma flagged_all (options : list string) :
  flagged options (replicate (length options) true) = options.
Proof. induction options as [| o options IH]; simpl; [done | by rewrite IH]. Qed.

Lemma flagged_none (options : list string) :
  flagged options (replicate (length options) false) = [].
Proof. induction options as [| o options IH]; simpl; [done | exact IH]. Qed.

Lemma elem_of_flagged (options : list string) (flags : list bool) i o :
  options !! i = Some o → flags !! i = Some true → o ∈ flagged options flags.
Proof.
  revert flags i. induction options as [| x options IH]; intros [| b flags] [| i] Ho Hb;
    simpl in *; try discriminate.
  - injection Ho as ->. injection Hb as ->. left.
  - destruct b; [right |]; by eapply IH.
Qed.

(** The comprehension over the indices computes [flagged]. *)
Lemma selected_options_flagged (options : list string) (flags : list bool) :
  length flags = length options →
  selected_options options flags = Ok (flagged options flags).
Proof.
  intros Hlen. unfold selected_options.
  assert (Hgen : ∀ (rest_o : list string) (rest_f : list bool)
                   (pre_o : list string) (pre_f : list bool),
    length pre_f = length pre_o → length rest_f = length rest_o →
    foldr (λ i acc,
             match (pre_f ++ rest_f) !! i, (pre_o ++ rest_o) !! i, acc with
             | Some true, Some o, Ok l => Ok (o :: l)
             | Some false, _, Ok l => Ok l
             | Some _, _, Raise e => Raise e
             | _, _, _ => Raise index_error
             end) (Ok []) (seq (length pre_o) (length rest_o))
    = Ok (flagged rest_o rest_f)).
  { induction rest_o as [| o rest_o IH]; intros [| b rest_f] pre_o pre_f Hpre Hrest;
      simpl in *; try discriminate; [done |].
    specialize (IH rest_f (pre_o ++ [o]) (pre_f ++ [b])).
    rewrite !length_app in IH. simpl in IH.
    rewrite <- !app_assoc in IH. simpl in IH.
    replace (length pre_o + 1) with (S (length pre_o)) in IH by lia.
    rewrite IH by lia.
    rewrite (lookup_app_r pre_f) by lia. rewrite (lookup_app_r pre_o) by lia.
    rewrite Hpre, Nat.sub_diag. simpl. by destruct b. }
  apply (Hgen options flags [] []); done.
Qed.

(** X8.  The delete key and the archive key return exactly the options
    whose flag is set, in the order of the menu: the result is a
    subsequence of the options, it holds every flagged option, and its
    length is the count the menu displays. *)
Theorem returned_selection_is_the_flagged_options (options : list string)
    (m : menu) (key : string) :
  length (selected m) = length options →
  (String.eqb (lower key) "d" = true →
     on_key options key m = Return (Some (flagged options (selected m), delete)))
  ∧ (String.eqb (lower key) "m" = true →
       on_key options key m = Return (Some (flagged options (selected m), archive)))
  ∧ flagged options (selected m) `sublist_of` options
  ∧ Z.of_nat (length (flagged options (selected m))) = sum_selected (selected m)
  ∧ (∀ i o, options !! i = Some o → selected m !! i = Some true →
       o ∈ flagged options (selected m)).
Proof.
  intros Hlen. split; [| split; [| split; [| split]]].
  - intros Hkey. rewrite (on_key_letter options key m _ Hkey) by done. simpl.
    unfold return_selected. by rewrite selected_options_flagged.
  - intros Hkey. rewrite (on_key_letter options key m _ Hkey) by done. simpl.
    unfold return_selected. by rewrite selected_options_flagged.
  - apply flagged_sublist.
  - by apply flagged_length.
  - intros i o. apply elem_of_flagged.
Qed.

Lemma returned_selection_is_the_flagged_options_witness :
  on_key ex_options "D" (Menu [ false; true ] 1)
  = Return (Some ([ "helpers.py" ], delete)).
Proof.
  destruct (returned_selection_is_the_flagged_options ex_options
              (Menu [ false; true ] 1) "D" eq_refl) as (Hd & _).
  exact (Hd eq_refl).
Defined.

(** X9.  The space key flips the flag under the cursor and nothing else:
    the count moves by one, the cursor stays, and a second press restores
    the state. *)
Theorem toggle_flips_one_flag (options : list string) (m : menu) :
  menu_ok options m →
  ∃ b m1,
    selected m !! Z.to_nat (current m) = Some b
    ∧ on_key options " " m = Redraw m1
    ∧ current m1 = current m
    ∧ selected m1 !! Z.to_nat (current m) = Some (negb b)
    ∧ (∀ j, j ≠ Z.to_nat (current m) → selected m1 !! j = selected m !! j)
    ∧ sum_selected (selected m1)
      = (sum_selected (selected m) + if b then -1 else 1)%Z
    ∧ on_key options " " m1 = Redraw m.
Proof.
  intros Hok. destruct (toggle_redraws options m Hok) as (b & Hb & Htoggle).
  pose proof Hok as (Hlen & Hcur & _).
  set (i := Z.to_nat (current m)) in *.
  set (m1 := Menu (<[ i := negb b ]> (selected m)) (current m)).
  assert (Hi : i < length (selected m)) by (unfold i; lia).
  exists b, m1. split; [done |]. split; [exact Htoggle |]. split; [done |].
  split; [by apply list_lookup_insert_eq |].
  split; [intros j Hj; by apply list_lookup_insert_ne |].
  split; [by apply sum_selected_insert |].
  assert (Hok1 : menu_ok options m1).
  { apply menu_ok_intro; [by rewrite length_insert | done]. }
  destruct (toggle_redraws options m1 Hok1) as (b1 & Hb1 & Htoggle1).
  change (on_key options " " m1) with (toggle m1). rewrite Htoggle1.
  simpl in Hb1. fold i in Hb1. rewrite list_lookup_insert_eq in Hb1 by done.
  injection Hb1 as <-. simpl. fold i.
  rewrite list_insert_insert_eq, negb_involutive, list_insert_id by done.
  by destruct m.
Qed.

Lemma ex_menu_ok : menu_ok ex_options (Menu [ false; true ] 1).
Proof. apply menu_ok_intro; simpl; [done | lia]. Qed.

Lemma toggle_flips_one_flag_witness :
  ∃ m1, on_key ex_options " " (Menu [ false; true ] 1) = Redraw m1
        ∧ on_key ex_options " " m1 = Redraw (Menu [ false; true ] 1).
Proof.
  destruct (toggle_flips_one_flag ex_options (Menu [ false; true ] 1) ex_menu_ok)
    as (b & m1 & _ & H1 & _ & _ & _ & _ & H2).
  exists m1. exact (conj H1 H2).
Defined.

(** X10.  From any state, the select-all key sets every flag, after which
    the delete key returns all the options in order; the deselect-all key
    clears every flag, after which the delete key returns the empty list.
    Neither moves the cursor. *)
Theorem select_all_and_deselect_all (options : list string) (m : menu)
    (key_a key_n key_d : string) :
  String.eqb (lower key_a) "a" = true →
  String.eqb (lower key_n) "n" = true →
  String.eqb (lower key_d) "d" = true →
  let all := Menu (replicate (length options) true) (current m) in
  let none := Menu (replicate (length options) false) (current m) in
  on_key options key_a m = Redraw all
  ∧ sum_selected (selected all) = Z.of_nat (length options)
  ∧ on_key options key_d all = Return (Some (options, delete))
  ∧ on_key options key_n m = Redraw none
  ∧ sum_selected (selected none) = 0%Z
  ∧ on_key options key_d none = Return (Some ([], delete)).
Proof.
  intros Ha Hn Hd all none.
  rewrite (on_key_letter options key_a m _ Ha) by done.
  rewrite (on_key_letter options key_n m _ Hn) by done.
  rewrite !(on_key_letter options key_d _ _ Hd) by done. simpl.
  unfold return_selected.
  rewrite !selected_options_flagged by apply length_replicate.
  rewrite !sum_selected_replicate, flagged_all, flagged_none. done.
Qed.

Lemma select_all_and_deselect_all_witness :
  on_key ex_options "d" (Menu (replicate (length ex_options) true) 1)
  = Return (Some (ex_options, delete)).
Proof.
  destruct (select_all_and_deselect_all ex_options (Menu [ false; true ] 1)
              "A" "n" "d" eq_refl eq_refl eq_refl) as (_ & _ & H & _).
  exact H.
Defined.

Lemma lower_single (c : ascii) (s : string) :
  String.eqb (lower (String c EmptyString)) s = true →
  s = String (lower_char c) EmptyString.
Proof. intros H%String.eqb_eq. by rewrite <- H. Qed.

(** A key makes the loop return only if it is q, d or m. *)
Lemma on_key_return options (c : ascii) m r :
  on_key options (String c EmptyString) m = Return r →
  terminating c = true
  ∧ (r = None ↔ lower_char c = "q"%char).
Proof.
  unfold on_key, toggle, return_selected, terminating.
  destruct (String.eqb (String c EmptyString) " ").
  { destruct (py_index _ _); [destruct (_ !! _) |]; discriminate. }
  destruct (String.eqb (lower (String c EmptyString)) "a"); [discriminate |].
  destruct (String.eqb (lower (String c EmptyString)) "n"); [discriminate |].
  destruct (String.eqb (lower (String c EmptyString)) "q") eqn:Hq.
  { apply lower_single in Hq. injection Hq as Hq. rewrite <- Hq. simpl.
    intros [= <-]. done. }
  assert (Hnq : lower_char c ≠ "q"%char).
  { intros Heq. simpl in Hq. rewrite Heq in Hq. discriminate. }
  destruct (String.eqb (lower (String c EmptyString)) "d") eqn:Hd.
  { apply lower_single in Hd. injection Hd as Hd. rewrite <- Hd. simpl.
    destruct (selected_options _ _); [| discriminate]. intros [= <-].
    split; [done |]. split; [discriminate | intros Heq; discriminate]. }
  destruct (String.eqb (lower (String c EmptyString)) "m") eqn:Hm; [| discriminate].
  apply lower_single in Hm. injection Hm as Hm. rewrite <- Hm. simpl.
  destruct (selected_options _ _); [| discriminate]. intros [= <-].
  split; [done |]. split; [discriminate | intros Heq; discriminate].
Qed.

Lemma select_loop_returns options :
  ∀ keys m printed r rest printed' m',
    select_loop options keys m printed = (Val r, rest, printed', m') →
    ∃ pre c, keys = pre ++ c :: rest
             ∧ terminating c = true
             ∧ (r = None ↔ lower_char c = "q"%char).
Proof.
  intros keys. remember (length keys) as n eqn:Hn. revert keys Hn.
  induction n as [n IH] using lt_wf_ind.
  intros keys Hn m printed r rest printed' m' Hloop.
  destruct keys as [| c keys1]; simpl in Hloop; [discriminate |].
  destruct (Ascii.eqb c ESC).
  - destruct keys1 as [| c1 [| c2 keys3]]; try discriminate.
    apply (IH (length keys3)) in Hloop as (pre & c' & -> & Hc'); [| simpl in Hn; lia | done].
    exists (c :: c1 :: c2 :: pre), c'. done.
  - destruct (on_key options (String c EmptyString) m) as [m1 | r1 | e] eqn:Hkey.
    + apply (IH (length keys1)) in Hloop as (pre & c' & -> & Hc'); [| simpl in Hn; lia | done].
      exists (c :: pre), c'. done.
    + injection Hloop as <- <- _ _. exists [], c. split; [done |].
      by apply (on_key_return options c m).
    + discriminate.
Qed.

(** X11.  The menu returns only when q, d or m is typed, in either case
    and outside an escape sequence: the characters after that key are left
    unread, [None] is returned exactly for q, and without such a character
    the call never returns a result. *)
Theorem menu_returns_only_on_q_d_m (options : list string) (keys : list ascii) :
  (∀ r rest printed m,
     interactive_select options keys = (Val r, rest, printed, m) →
     ∃ pre c, keys = pre ++ c :: rest
              ∧ terminating c = true
              ∧ (r = None ↔ lower_char c = "q"%char))
  ∧ (Forall (λ c, terminating c = false) keys →
     ∀ r, (interactive_select options keys).1.1.1 ≠ Val r).
Proof.
  split.
  - intros r rest printed m. apply select_loop_returns.
  - intros Hnone r Hval.
    destruct (interactive_select options keys) as [[[out rest] printed] m] eqn:Hsel.
    simpl in Hval. subst out.
    apply select_loop_returns in Hsel as (pre & c & -> & Hc & _).
    apply Forall_app in Hnone as [_ Hnone]. apply Forall_cons in Hnone as [Hnone _].
    congruence.
Qed.

Lemma ex_keys_not_terminating : Forall (λ c, terminating c = false) ex_keys.
Proof. apply (bool_decide_unpack _). vm_compute. exact I. Qed.

Lemma menu_returns_only_on_q_d_m_witness :
  ¬ ∃ r, (interactive_select ex_options ex_keys).1.1.1 = Val r.
Proof.
  intros [r Hr].
  exact (proj2 (menu_returns_only_on_q_d_m ex_options ex_keys)
               ex_keys_not_terminating r Hr).
Defined.

(** ** More about the disposition (X12 to X14) *)

Lemma answers_app evs1 evs2 : answers (evs1 ++ evs2) = answers evs1 ++ answers evs2.
Proof. unfold answers. apply omap_app. Qed.

Lemma answers_attempts (attempt : path → event) files reports :
  (∀ f, match attempt f with EvInput _ _ => False | _ => True end) →
  answers (attempts attempt files reports) = [].
Proof.
  intros Hatt. revert reports.
  induction files as [| f files IH]; intros [| r reports]; simpl; try done.
  unfold answers in *. simpl. specialize (Hatt f).
  destruct (attempt f); try done; apply IH.
Qed.

Section DisposeRuns.
Variable M : machine.

#[local] Arguments delete_files : simpl never.
#[local] Arguments move_to_archive : simpl never.

(** [dispose] step by step, for a selection that is not empty. *)
Lemma dispose_first_answer app_directory archive_path sel a w :
  sel ≠ [] →
  let files := path_join app_directory <$> sel in
  match lines w with
  | [] =>
      dispose M app_directory archive_path (Some (sel, a)) w
      = (Blocked, World (fs w) (keys w) []
                        (trace w ++ [ EvPrint (MsgFilesSelected a files) ]))
  | a1 :: rest =>
      affirmative a1 = false →
      dispose M app_directory archive_path (Some (sel, a)) w
      = (Val true, World (fs w) (keys w) rest
                         (trace w ++ [ EvPrint (MsgFilesSelected a files);
                                       EvInput (PromptConfirm a) a1;
                                       EvPrint (MsgActionCancelled a) ]))
  end.
Proof.
  intros Hsel files. unfold dispose. fold files.
  destruct files as [| f files'] eqn:Hfiles.
  { destruct sel; [done | discriminate]. }
  unfold bind, print, emit, input, ret. simpl.
  destruct (lines w) as [| a1 rest] eqn:Hl; simpl.
  - done.
  - intros Ha1. rewrite Ha1. simpl. by rewrite <- !app_assoc.
Qed.

Lemma dispose_second_answer app_directory archive_path sel a w a1 rest :
  sel ≠ [] →
  lines w = a1 :: rest →
  affirmative a1 = true →
  let files := path_join app_directory <$> sel in
  let asked :=
    trace w ++ [ EvPrint (MsgFilesSelected a files); EvInput (PromptConfirm a) a1;
                 EvPrint match a with
                         | delete => MsgPreparingDelete files
                         | archive => MsgPreparingArchive archive_path
                         end ] in
  match rest with
  | [] =>
      dispose M app_directory archive_path (Some (sel, a)) w
      = (Blocked, World (fs w) (keys w) [] asked)
  | a2 :: rest' =>
      affirmative a2 = false →
      dispose M app_directory archive_path (Some (sel, a)) w
      = (Val true, World (fs w) (keys w) rest'
                         (asked ++ [ EvInput match a with
                                             | delete => PromptFinalDelete
                                             | archive => PromptFinalArchive
                                             end a2;
                                     EvPrint match a with
                                             | delete => MsgDeletionCancelled
                                             | archive => MsgArchivingCancelled
                                             end ]))
  end.
Proof.
  intros Hsel Hl Ha1 files asked. unfold dispose. fold files.
  destruct files as [| f files'] eqn:Hfiles.
  { destruct sel; [done | discriminate]. }
  subst asked. unfold bind, print, emit, input, ret. simpl. rewrite Hl. simpl.
  rewrite Ha1. destruct a; simpl; (destruct rest as [| a2 rest']; simpl;
    [by rewrite <- !app_assoc | intros Ha2; rewrite Ha2; simpl; by rewrite <- !app_assoc]).
Qed.

Lemma dispose_confirmed_delete app_directory archive_path sel w a1 a2 rest :
  sel ≠ [] →
  lines w = a1 :: a2 :: rest →
  affirmative a1 = true → affirmative a2 = true →
  let files := path_join app_directory <$> sel in
  ∃ fs' reports,
    dispose M app_directory archive_path (Some (sel, delete)) w
    = (Val true,
       World fs' (keys w) rest
             (trace w ++ confirmed_prefix delete files archive_path a1 a2
                      ++ attempts EvRemove files reports
                      ++ [ EvPrint MsgCleanupComplete ]))
    ∧ Forall2 delete_report files reports.
Proof.
  intros Hsel Hl Ha1 Ha2 files. unfold dispose. fold files.
  destruct files as [| f files'] eqn:Hfiles.
  { destruct sel; [done | discriminate]. }
  unfold bind, print, emit, input, ret. simpl. rewrite Hl. simpl.
  rewrite Ha1. simpl. rewrite Ha2.
  match goal with |- context [delete_files M (f :: files') ?w1] =>
    destruct (delete_files_spec M (f :: files') w1) as (fs' & reports & Heq & Hrep) end.
  rewrite Heq. simpl. exists fs', reports. split; [| done].
  by rewrite <- !app_assoc.
Qed.

Lemma dispose_confirmed_archive app_directory archive_path sel w a1 a2 rest :
  sel ≠ [] →
  lines w = a1 :: a2 :: rest →
  affirmative a1 = true → affirmative a2 = true →
  let files := path_join app_directory <$> sel in
  let asked := trace w ++ confirmed_prefix archive files archive_path a1 a2 in
  (os_path_exists M archive_path (fs w) = true →
     ∃ fs' reports,
       dispose M app_directory archive_path (Some (sel, archive)) w
       = (Val true,
          World fs' (keys w) rest
                (asked ++ attempts (move_event archive_path) files reports
                       ++ [ EvPrint MsgArchivingComplete ]))
       ∧ Forall2 move_report files reports)
  ∧ (os_path_exists M archive_path (fs w) = false →
     (os_makedirs M archive_path (fs w)).2 = None →
     ∃ fs' reports,
       dispose M app_directory archive_path (Some (sel, archive)) w
       = (Val true,
          World fs' (keys w) rest
                (asked ++ EvMakedirs archive_path
                       :: attempts (move_event archive_path) files reports
                       ++ [ EvPrint MsgArchivingComplete ]))
       ∧ Forall2 move_report files reports)
  ∧ (os_path_exists M archive_path (fs w) = false →
     ∀ e, (os_makedirs M archive_path (fs w)).2 = Some e →
     dispose M app_directory archive_path (Some (sel, archive)) w
     = (Raised e,
        World (os_makedirs M archive_path (fs w)).1 (keys w) rest
              (asked ++ [ EvMakedirs archive_path ]))).
Proof.
  intros Hsel Hl Ha1 Ha2 files asked. unfold dispose. fold files.
  destruct files as [| f files'] eqn:Hfiles.
  { destruct sel; [done | discriminate]. }
  subst asked. unfold bind, print, emit, input, ret. simpl. rewrite Hl. simpl.
  rewrite Ha1. simpl. rewrite Ha2.
  match goal with |- context [move_to_archive M (f :: files') archive_path ?w1] =>
    destruct (move_to_archive_spec M (f :: files') archive_path w1)
      as (Hex & Hmk & Hfail) end.
  simpl in Hex, Hmk, Hfail. split; [| split].
  - intros Hexists. destruct (Hex Hexists) as (fs' & reports & -> & Hrep).
    simpl. exists fs', reports. split; [| done]. by rewrite <- !app_assoc.
  - intros Habsent Hok. destruct (Hmk Habsent Hok) as (fs' & reports & -> & Hrep).
    simpl. exists fs', reports. split; [| done]. by rewrite <- !app_assoc.
  - intros Habsent e He. rewrite (Hfail Habsent e He). simpl.
    by rewrite <- !app_assoc.
Qed.

End DisposeRuns.

(** X12.  The confirmation stage reads one input line for each prompt it
    shows, never more than two, in the order typed, and never reads a
    key. *)
Theorem dispose_reads_one_line_per_prompt (M : machine)
    (app_directory archive_path : path) (result : option (list string * action))
    (w : world M) :
  let w' := (dispose M app_directory archive_path result w).2 in
  ∃ evs, trace w' = trace w ++ evs
    ∧ keys w' = keys w
    ∧ lines w = answers evs ++ lines w'
    ∧ (length (answers evs) ≤ 2)%nat.
Proof.
  intros w'. subst w'.
  destruct result as [[sel a] |];
    [| exists [ EvPrint MsgOperationCancelled ]; simpl; split; [done |];
       split; [done |]; split; [done | lia] ].
  destruct sel as [| s sel'] eqn:Hsel;
    [ exists [ EvPrint MsgNoFilesSelected ]; simpl; split; [done |];
      split; [done |]; split; [done | lia] |].
  assert (Hne : s :: sel' ≠ []) by done.
  pose proof (dispose_first_answer M app_directory archive_path (s :: sel') a w Hne)
    as Hfirst. cbv zeta in Hfirst.
  destruct (lines w) as [| a1 rest] eqn:Hl.
  { rewrite Hfirst. cbn [snd trace keys lines]. eexists.
    split; [reflexivity |]. split; [done |]. split; [done | simpl; lia]. }
  destruct (affirmative a1) eqn:Ha1.
  2:{ rewrite (Hfirst eq_refl). cbn [snd trace keys lines]. eexists.
      split; [reflexivity |]. split; [done |]. split; [done | simpl; lia]. }
  pose proof (dispose_second_answer M app_directory archive_path (s :: sel') a w a1 rest
                Hne Hl Ha1) as Hsecond. cbv zeta in Hsecond.
  destruct rest as [| a2 rest'].
  { rewrite Hsecond. cbn [snd trace keys lines]. eexists.
    split; [reflexivity |]. split; [done |]. split; [done | simpl; lia]. }
  destruct (affirmative a2) eqn:Ha2.
  2:{ rewrite (Hsecond eq_refl). cbn [snd trace keys lines]. rewrite <- app_assoc.
      eexists. split; [reflexivity |]. split; [done |]. split; [done | simpl; lia]. }
  destruct a.
  - destruct (dispose_confirmed_delete M app_directory archive_path (s :: sel') w a1 a2
                rest' Hne Hl Ha1 Ha2) as (fs' & reports & -> & _).
    cbn [snd trace keys lines]. eexists. split; [reflexivity |]. split; [done |].
    rewrite !answers_app, answers_attempts by done. simpl. split; [done | lia].
  - destruct (dispose_confirmed_archive M app_directory archive_path (s :: sel') w a1 a2
                rest' Hne Hl Ha1 Ha2) as (Hex & Hmk & Hfail).
    destruct (os_path_exists M archive_path (fs w)).
    + destruct (Hex eq_refl) as (fs' & reports & -> & _).
      cbn [snd trace keys lines]. rewrite <- app_assoc. eexists.
      split; [reflexivity |]. split; [done |].
      rewrite !answers_app, answers_attempts by done. simpl. split; [done | lia].
    + destruct ((os_makedirs M archive_path (fs w)).2) as [e |] eqn:Herr.
      * rewrite (Hfail eq_refl e eq_refl). cbn [snd trace keys lines].
        rewrite <- app_assoc. eexists.
        split; [reflexivity |]. split; [done |].
        rewrite !answers_app. simpl. split; [done | lia].
      * destruct (Hmk eq_refl eq_refl) as (fs' & reports & -> & _).
        cbn [snd trace keys lines]. rewrite <- app_assoc. eexists.
        split; [reflexivity |]. split; [done |].
        rewrite (app_comm_cons _ _ (EvMakedirs archive_path)).
        change (EvMakedirs archive_path :: attempts (move_event archive_path)
                  (path_join app_directory <$> s :: sel') reports)
          with ([ EvMakedirs archive_path ] ++ attempts (move_event archive_path)
                  (path_join app_directory <$> s :: sel') reports).
        rewrite !answers_app, answers_attempts by done. simpl. split; [done | lia].
Qed.

(** X13.  After two affirmative answers a delete is carried out on exactly
    the selected files: [main] joins each selected relative path to the
    application directory and [os.remove] is attempted once on each of
    them, in order, each with its report, before the completion message;
    both lines are consumed and the branch runs to its end. *)
Theorem confirmed_delete_attempts_every_selected_file (M : machine)
    (app_directory archive_path : path) (sel : list string) (w : world M)
    (a1 a2 : string) (rest : list string) :
  sel ≠ [] →
  lines w = a1 :: a2 :: rest →
  affirmative a1 = true → affirmative a2 = true →
  let files := path_join app_directory <$> sel in
  ∃ fs' reports,
    dispose M app_directory archive_path (Some (sel, delete)) w
    = (Val true,
       World fs' (keys w) rest
             (trace w ++ confirmed_prefix delete files archive_path a1 a2
                      ++ attempts EvRemove files reports
                      ++ [ EvPrint MsgCleanupComplete ]))
    ∧ Forall2 delete_report files reports.
Proof. apply dispose_confirmed_delete. Qed.

Lemma ex_options_selected : [ "unrelated.py" ] ≠ ([] : list string).
Proof. discriminate. Qed.

Lemma confirmed_delete_attempts_every_selected_file_witness :
  ∃ fs' reports,
    dispose ex_machine "/proj" "/proj/Guido_Gallery" (Some ([ "unrelated.py" ], delete))
            (ex_world [] [ "y"; "Y"; "later" ])
    = (Val true,
       World (M := ex_machine) fs' [] [ "later" ]
             ([] ++ confirmed_prefix delete [ "/proj/unrelated.py" ]
                                     "/proj/Guido_Gallery" "y" "Y"
                 ++ attempts EvRemove [ "/proj/unrelated.py" ] reports
                 ++ [ EvPrint MsgCleanupComplete ]))
    ∧ Forall2 delete_report [ "/proj/unrelated.py" ] reports.
Proof.
  exact (confirmed_delete_attempts_every_selected_file ex_machine "/proj"
           "/proj/Guido_Gallery" [ "unrelated.py" ] (ex_world [] [ "y"; "Y"; "later" ])
           "y" "Y" [ "later" ] ex_options_selected eq_refl eq_refl eq_refl).
Defined.

(** X14.  After two affirmative answers an archive is carried out on
    exactly the selected files: the archive directory is created first when
    it does not exist, then [shutil.move] is attempted once on each file,
    in order, into the archive directory under the file's base name.  When
    the directory cannot be created the exception leaves [main] before any
    file is moved. *)
Theorem confirmed_archive_moves_every_selected_file (M : machine)
    (app_directory archive_path : path) (sel : list string) (w : world M)
    (a1 a2 : string) (rest : list string) :
  sel ≠ [] →
  lines w = a1 :: a2 :: rest →
  affirmative a1 = true → affirmative a2 = true →
  let files := path_join app_directory <$> sel in
  let asked := trace w ++ confirmed_prefix archive files archive_path a1 a2 in
  (os_path_exists M archive_path (fs w) = true →
     ∃ fs' reports,
       dispose M app_directory archive_path (Some (sel, archive)) w
       = (Val true,
          World fs' (keys w) rest
                (asked ++ attempts (move_event archive_path) files reports
                       ++ [ EvPrint MsgArchivingComplete ]))
       ∧ Forall2 move_report files reports)
  ∧ (os_path_exists M archive_path (fs w) = false →
     (os_makedirs M archive_path (fs w)).2 = None →
     ∃ fs' reports,
       dispose M app_directory archive_path (Some (sel, archive)) w
       = (Val true,
          World fs' (keys w) rest
                (asked ++ EvMakedirs archive_path
                       :: attempts (move_event archive_path) files reports
                       ++ [ EvPrint MsgArchivingComplete ]))
       ∧ Forall2 move_report files reports)
  ∧ (os_path_exists M archive_path (fs w) = false →
     ∀ e, (os_makedirs M archive_path (fs w)).2 = Some e →
     dispose M app_directory archive_path (Some (sel, archive)) w
     = (Raised e,
        World (os_makedirs M archive_path (fs w)).1 (keys w) rest
              (asked ++ [ EvMakedirs archive_path ]))).
Proof. apply dispose_confirmed_archive. Qed.

Lemma ex_archive_absent_with_lines ls :
  os_path_exists ex_machine "/proj/Guido_Gallery" (fs (ex_world [] ls)) = false.
Proof. vm_compute. reflexivity. Qed.

Lemma confirmed_archive_moves_every_selected_file_witness :
  ∃ fs' reports,
    dispose ex_machine "/proj" "/proj/Guido_Gallery" (Some ([ "unrelated.py" ], archive))
            (ex_world [] [ "Y"; "y" ])
    = (Val true,
       World (M := ex_machine) fs' [] []
             (([] ++ confirmed_prefix archive [ "/proj/unrelated.py" ]
                                      "/proj/Guido_Gallery" "Y" "y")
              ++ EvMakedirs "/proj/Guido_Gallery"
              :: attempts (move_event "/proj/Guido_Gallery") [ "/proj/unrelated.py" ]
                          reports
              ++ [ EvPrint MsgArchivingComplete ]))
    ∧ Forall2 move_report [ "/proj/unrelated.py" ] reports.
Proof.
  destruct (confirmed_archive_moves_every_selected_file ex_machine "/proj"
              "/proj/Guido_Gallery" [ "unrelated.py" ] (ex_world [] [ "Y"; "y" ])
              "Y" "y" [] ex_options_selected eq_refl eq_refl eq_refl)
    as (_ & Hmk & _).
  exact (Hmk (ex_archive_absent_with_lines _) eq_refl).
Defined.

(** ** More about [main] (X15 to X18) *)

Section NoMenuFacts.
Variable M : machine.
Variable CONFIG : config.

(** On a dry run, or with nothing unused, [main] never shows the menu: it
    only prints and falls through to its last lines. *)
Lemma main_body_no_menu dry_run w :
  dry_run = true ∨ unused_found M CONFIG w = ∅ →
  ∃ ms, main_body M CONFIG dry_run w
        = (Val true, say w (ms ++ [ no_menu_message dry_run; MsgRemember ])).
Proof.
  unfold unused_found. cbv zeta.
  set (E := observe M (fs w)). set (app_directory := getcwd E).
  set (unused := unused_files (scan CONFIG E app_directory)).
  intros Hcase. unfold main_body.
  unfold bind at 1. unfold read_fs at 1. cbn beta iota.
  rewrite bind_print, bind_find. cbn beta iota zeta. rewrite !fs_say.
  fold E. fold app_directory. fold unused.
  assert (Hcond : bool_decide (unused ≠ ∅) && negb dry_run = false).
  { destruct Hcase as [-> | Hempty]; [apply andb_false_r |].
    rewrite bool_decide_eq_false_2; [done |]. by intros Hne. }
  rewrite Hcond.
  destruct (bool_decide (unused ≠ ∅)); rewrite bind_print;
    (destruct (bool_decide (problematic_imports (scan CONFIG E app_directory) ≠ ∅));
     [rewrite bind_print | rewrite bind_ret]);
    (destruct (bool_decide (large_files (scan CONFIG E app_directory) ≠ ∅));
     [rewrite bind_print | rewrite bind_ret]);
    rewrite bind_print; destruct dry_run;
    rewrite bind_assoc, bind_print; cbn beta; rewrite bind_ret; cbn beta iota;
    rewrite bind_print, ?say_say; unfold no_menu_message, ret;
    rewrite !app_assoc;
    match goal with
    | |- context [say w ((?pre ++ [?a]) ++ [?b])] =>
        exists pre; by rewrite <- (app_assoc pre [a] [b])
    end.
Qed.

Lemma main_no_menu name dry_run depth w :
  String.eqb name "__main__" = false →
  dry_run = true ∨ unused_found M CONFIG w = ∅ →
  ∃ ms, main M CONFIG name dry_run (S depth) w
        = (Val tt, say w (ms ++ [ no_menu_message dry_run; MsgRemember ])).
Proof.
  intros Hname Hcase. destruct (main_body_no_menu dry_run w Hcase) as [ms Hbody].
  exists ms. simpl. unfold bind. by rewrite Hbody, Hname.
Qed.

Lemma unused_found_say (w : world M) ms :
  unused_found M CONFIG (say w ms) = unused_found M CONFIG w.
Proof. reflexivity. Qed.

(** Under [__main__] such a pass ends by calling [main] again, in the
    same world but for what was printed. *)
Lemma main_no_menu_again dry_run depth w :
  dry_run = true ∨ unused_found M CONFIG w = ∅ →
  ∃ ms, main M CONFIG "__main__" dry_run (S depth) w
        = main M CONFIG "__main__" dry_run depth
               (say w (ms ++ [ no_menu_message dry_run; MsgRemember ])).
Proof.
  intros Hcase. destruct (main_body_no_menu dry_run w Hcase) as [ms Hbody].
  exists ms. simpl. unfold bind. by rewrite Hbody.
Qed.

Lemma main_no_menu_never_returns dry_run depth w :
  dry_run = true ∨ unused_found M CONFIG w = ∅ →
  ∃ e ms, main M CONFIG "__main__" dry_run depth w = (Raised e, say w ms).
Proof.
  revert w. induction depth as [| depth IH]; intros w Hcase.
  - eexists _, []. by rewrite say_nil.
  - destruct (main_no_menu_again dry_run depth w Hcase) as [ms ->].
    destruct (IH (say w (ms ++ [ no_menu_message dry_run; MsgRemember ])))
      as (e & ms' & ->).
    { by rewrite unused_found_say. }
    eexists e, _. by rewrite say_say.
Qed.

End NoMenuFacts.

(** [dispose] returns out of [main] only after one of two messages. *)
Lemma bind_ret_true_not_false {M : machine} {A} (c : prog M A) (w w' : world M) :
  bind c (λ _, ret true) w ≠ (Val false, w').
Proof. unfold bind, ret. destruct (c w) as [[a | | e] w1]; congruence. Qed.

Lemma dispose_returns_false (M : machine) app_directory archive_path result
    (w w' : world M) :
  dispose M app_directory archive_path result w = (Val false, w') →
  w' = say w [ MsgOperationCancelled ] ∨ w' = say w [ MsgNoFilesSelected ].
Proof.
  unfold dispose. destruct result as [[sel a] |].
  - destruct (path_join app_directory <$> sel) as [| f files].
    + intros [= <-]. by right.
    + rewrite bind_print. intros H. unfold bind at 1 in H.
      destruct (input _ _) as [[confirm | | e] w1]; [| done | done].
      by apply bind_ret_true_not_false in H.
  - intros [= <-]. by left.
Qed.

Section ReturnFacts.
Variable M : machine.
Variable CONFIG : config.

(** [main] returns before its last lines only from the menu stage, right
    after one of the two messages. *)
Lemma main_body_returns_false dry_run (w w' : world M) :
  main_body M CONFIG dry_run w = (Val false, w') →
  ∃ msg, last (trace w') = Some (EvPrint msg)
         ∧ (msg = MsgOperationCancelled ∨ msg = MsgNoFilesSelected).
Proof.
  intros Hbody.
  destruct (decide (unused_found M CONFIG w = ∅)) as [Hempty | Hne].
  { destruct (main_body_no_menu M CONFIG dry_run w (or_intror Hempty)) as [ms Hno].
    congruence. }
  destruct dry_run.
  { destruct (main_body_no_menu M CONFIG true w (or_introl eq_refl)) as [ms Hno].
    congruence. }
  destruct (main_body_menu M CONFIG w Hne) as [ms Hmenu].
  rewrite Hmenu in Hbody. unfold bind at 1 in Hbody.
  destruct (bind (run_interactive_select M _) _ _) as [[[|] | | e] w1] eqn:Hstage;
    try discriminate.
  unfold ret in Hbody. injection Hbody as <-.
  unfold bind at 1 in Hstage.
  destruct (run_interactive_select M _ _) as [[r | | e] w2]; try discriminate.
  apply dispose_returns_false in Hstage as [-> | ->]; eexists;
    (split; [apply last_snoc |]); auto.
Qed.

(** When the module is [__main__], every normal return of [main] is one of
    these early returns. *)
Lemma main_returns_only_early dry_run depth (w : world M) :
  (main M CONFIG "__main__" dry_run depth w).1 = Val tt →
  ∃ msg, last (trace (main M CONFIG "__main__" dry_run depth w).2) = Some (EvPrint msg)
         ∧ (msg = MsgOperationCancelled ∨ msg = MsgNoFilesSelected).
Proof.
  revert w. induction depth as [| depth IH]; intros w; [discriminate |].
  simpl. unfold bind.
  destruct (main_body M CONFIG dry_run w) as [[[|] | | e] w1] eqn:Hbody;
    try discriminate.
  - apply IH.
  - intros _. by apply (main_body_returns_false dry_run w).
Qed.

End ReturnFacts.

(** ** Which files a run may touch *)

Lemma selected_options_subset options sel l :
  selected_options options sel = Ok l → Forall (λ o, o ∈ options) l.
Proof.
  unfold selected_options. generalize (seq 0 (length options)) as idx.
  intros idx. revert l. induction idx as [| i idx IH]; intros l; simpl.
  - intros [= <-]. constructor.
  - destruct (foldr _ _ idx) as [l' | e].
    + destruct (sel !! i) as [[|] |]; [| intros [= <-]; by apply IH | discriminate].
      destruct (options !! i) as [o |] eqn:Ho; [| discriminate].
      intros [= <-]. constructor; [by eapply list_elem_of_lookup_2 | by apply IH].
    + destruct (sel !! i) as [[|] |]; [destruct (options !! i) | |]; discriminate.
Qed.

Lemma on_key_selection options key m sel a :
  on_key options key m = Return (Some (sel, a)) → Forall (λ o, o ∈ options) sel.
Proof.
  unfold on_key, toggle, return_selected.
  repeat case_match; try discriminate; intros [= <- <-];
    by eapply selected_options_subset.
Qed.

Lemma select_loop_selection options :
  ∀ keys m printed sel a rest printed' m',
    select_loop options keys m printed = (Val (Some (sel, a)), rest, printed', m') →
    Forall (λ o, o ∈ options) sel.
Proof.
  intros keys. remember (length keys) as n eqn:Hn. revert keys Hn.
  induction n as [n IH] using lt_wf_ind.
  intros keys Hn m printed sel a rest printed' m' Hloop.
  destruct keys as [| c keys1]; simpl in Hloop; [discriminate |].
  destruct (Ascii.eqb c ESC).
  - destruct keys1 as [| c1 [| c2 keys3]]; try discriminate.
    eapply (IH (length keys3)); [simpl in Hn; lia | done | exact Hloop].
  - destruct (on_key options (String c EmptyString) m) as [m1 | r1 | e] eqn:Hkey.
    + eapply (IH (length keys1)); [simpl in Hn; lia | done | exact Hloop].
    + injection Hloop as -> _ _ _. by eapply on_key_selection.
    + discriminate.
Qed.

Section Targets.
Variable M : machine.
Variable allowed : path → Prop.
Variable archive_path : path.

Lemma quiet_targets {A} (c : prog M A) : quiet c → targets allowed archive_path c.
Proof.
  intros Hc w. destruct (Hc w) as (_ & _ & ms & Ht). exists (EvPrint <$> ms).
  split; [done |]. apply Forall_fmap, Forall_true. done.
Qed.

Lemma targets_input p : targets allowed archive_path (input (M := M) p).
Proof.
  intros w. unfold input. destruct (lines w) as [| answer rest]; simpl.
  - exists []. by rewrite app_nil_r.
  - eexists. split; [done |]. by constructor.
Qed.

Lemma targets_syscall e op :
  targets_ok allowed archive_path e → targets allowed archive_path (syscall (M := M) e op).
Proof.
  intros He w. unfold syscall. destruct (op (fs w)) as [fs' err]. simpl.
  exists [e]. split; [done |]. by constructor.
Qed.

Lemma targets_bind {A B} (c : prog M A) (k : A → prog M B) :
  targets allowed archive_path c → (∀ a, targets allowed archive_path (k a)) →
  targets allowed archive_path (bind c k).
Proof.
  intros Hc Hk w. unfold bind. specialize (Hc w).
  destruct (c w) as [[a | | e] w1]; simpl in Hc; [| done | done].
  destruct Hc as (evs1 & Ht1 & H1). destruct (Hk a w1) as (evs2 & Ht2 & H2).
  exists (evs1 ++ evs2). split; [by rewrite Ht2, Ht1, app_assoc |].
  by apply Forall_app.
Qed.

Lemma delete_files_targets files :
  Forall allowed files → targets allowed archive_path (delete_files M files).
Proof.
  induction 1 as [| file rest Hfile Hrest IH]; simpl.
  - apply quiet_targets, quiet_ret.
  - apply targets_bind; [| intros _; exact IH].
    apply targets_bind; [by apply targets_syscall |].
    intros [e |]; apply quiet_targets, quiet_print.
Qed.

Lemma move_each_targets files :
  Forall allowed files → targets allowed archive_path (move_each M files archive_path).
Proof.
  induction 1 as [| file rest Hfile Hrest IH]; simpl.
  - apply quiet_targets, quiet_ret.
  - apply targets_bind; [| intros _; exact IH].
    apply targets_bind; [by apply targets_syscall |].
    intros [e |]; apply quiet_targets, quiet_print.
Qed.

Lemma move_to_archive_targets files :
  Forall allowed files →
  targets allowed archive_path (move_to_archive M files archive_path).
Proof.
  intros Hfiles. unfold move_to_archive.
  apply targets_bind; [apply quiet_targets, quiet_read_fs | intros pexists].
  apply targets_bind; [| intros _; by apply move_each_targets].
  destruct pexists; simpl; [apply quiet_targets, quiet_ret |].
  apply targets_bind; [by apply targets_syscall |].
  intros [e |]; [apply quiet_targets, quiet_raise | apply quiet_targets, quiet_ret].
Qed.

Lemma dispose_targets app_directory result :
  (∀ sel a, result = Some (sel, a) → Forall allowed (path_join app_directory <$> sel)) →
  targets allowed archive_path (dispose M app_directory archive_path result).
Proof.
  intros Hsel. unfold dispose. destruct result as [[sel a] |].
  2:{ apply quiet_targets, quiet_bind; [apply quiet_print | intros; apply quiet_ret]. }
  specialize (Hsel sel a eq_refl).
  destruct (path_join app_directory <$> sel) as [| f files].
  { apply quiet_targets, quiet_bind; [apply quiet_print | intros; apply quiet_ret]. }
  apply targets_bind; [apply quiet_targets, quiet_print | intros _].
  apply targets_bind; [apply targets_input | intros confirm].
  apply targets_bind; [| intros _; apply quiet_targets, quiet_ret].
  destruct (affirmative confirm); [| apply quiet_targets, quiet_print].
  destruct a.
  - apply targets_bind; [apply quiet_targets, quiet_print | intros _].
    apply targets_bind; [apply targets_input | intros final_confirm].
    destruct (affirmative final_confirm); [| apply quiet_targets, quiet_print].
    apply targets_bind; [by apply delete_files_targets | intros _].
    apply quiet_targets, quiet_print.
  - apply targets_bind; [apply quiet_targets, quiet_print | intros _].
    apply targets_bind; [apply targets_input | intros final_confirm].
    destruct (affirmative final_confirm); [| apply quiet_targets, quiet_print].
    apply targets_bind; [by apply move_to_archive_targets | intros _].
    apply quiet_targets, quiet_print.
Qed.

Lemma targets_bind_at {A B} (c : prog M A) (k : A → prog M B) (w : world M) :
  (∃ evs, trace (c w).2 = trace w ++ evs ∧ Forall (targets_ok allowed archive_path) evs) →
  (∀ a, (c w).1 = Val a → targets allowed archive_path (k a)) →
  ∃ evs, trace (bind c k w).2 = trace w ++ evs
         ∧ Forall (targets_ok allowed archive_path) evs.
Proof.
  intros Hc Hk. unfold bind.
  destruct (c w) as [[a | | e] w1]; simpl in *; [| done | done].
  destruct Hc as (evs1 & Ht1 & H1). destruct (Hk a eq_refl w1) as (evs2 & Ht2 & H2).
  exists (evs1 ++ evs2). split; [by rewrite Ht2, Ht1, app_assoc |].
  by apply Forall_app.
Qed.

End Targets.

(** X15.  One pass of [main] removes or moves only files of the unused set
    it has just reported, creates no directory but the archive, and moves a
    file only into the archive under its base name, provided joining the
    application directory with a file's relative path gives the file's
    path back. *)
Theorem only_unused_files_are_removed_or_moved (M : machine) (CONFIG : config)
    (dry_run : bool) (w : world M) :
  (∀ p, p ∈ unused_found M CONFIG w →
        path_join (getcwd (observe M (fs w)))
                  (relpath (observe M (fs w)) p (getcwd (observe M (fs w)))) = p) →
  ∃ evs, trace (main_body M CONFIG dry_run w).2 = trace w ++ evs
    ∧ Forall (targets_ok (λ p, p ∈ unused_found M CONFIG w) (archive_path_of M CONFIG w))
             evs.
Proof.
  intros Hround.
  assert (Hprints : ∀ ms, Forall (targets_ok (λ p, p ∈ unused_found M CONFIG w)
                                    (archive_path_of M CONFIG w)) (EvPrint <$> ms)).
  { intros ms. apply Forall_fmap, Forall_true. done. }
  destruct (decide (unused_found M CONFIG w = ∅)) as [Hempty | Hne].
  { destruct (main_body_no_menu M CONFIG dry_run w (or_intror Hempty)) as [ms ->].
    eexists. split; [reflexivity | apply Hprints]. }
  destruct dry_run.
  { destruct (main_body_no_menu M CONFIG true w (or_introl eq_refl)) as [ms ->].
    eexists. split; [reflexivity | apply Hprints]. }
  destruct (main_body_menu M CONFIG w Hne) as [ms ->].
  set (allowed := λ p, p ∈ unused_found M CONFIG w).
  set (c := bind (bind _ _) _).
  assert (Hc : targets allowed (archive_path_of M CONFIG w) c).
  2:{ destruct (Hc (say w ms)) as (evs & Ht & Hevs).
      exists ((EvPrint <$> ms) ++ evs). split; [rewrite Ht; unfold say; cbn [trace]; by rewrite <- app_assoc |].
      apply Forall_app. split; [apply Hprints | done]. }
  subst c. apply targets_bind.
  2:{ intros [|]; apply quiet_targets;
        [apply quiet_bind; [apply quiet_print | intros; apply quiet_ret] | apply quiet_ret]. }
  intros w0. apply targets_bind_at.
  { destruct (quiet_select M (menu_options M CONFIG w) w0) as (_ & _ & ms0 & Ht).
    exists (EvPrint <$> ms0). split; [done |]. apply Forall_fmap, Forall_true. done. }
  intros result Hresult. apply dispose_targets. intros sel a ->.
  unfold run_interactive_select in Hresult.
  destruct (interactive_select _ _) as [[[out rest] printed] m] eqn:Hsel.
  simpl in Hresult. subst out. apply select_loop_selection in Hsel.
  apply Forall_fmap. eapply Forall_impl; [exact Hsel |].
  intros rel Hrel. unfold menu_options in Hrel. cbv zeta in Hrel.
  apply list_elem_of_fmap in Hrel as (p & -> & Hp).
  apply elem_of_set_order in Hp. simpl. rewrite Hround by done. done.
Qed.

Lemma ex_relpath_round_trip ks ls p :
  p ∈ unused_found ex_machine DEFAULT_CONFIG (ex_world ks ls) →
  path_join (getcwd (observe ex_machine (fs (ex_world ks ls))))
            (relpath (observe ex_machine (fs (ex_world ks ls))) p
                     (getcwd (observe ex_machine (fs (ex_world ks ls))))) = p.
Proof.
  intros Hp. apply elem_of_elements in Hp.
  replace (elements (unused_found ex_machine DEFAULT_CONFIG (ex_world ks ls)))
    with [ "/proj/unrelated.py"; "/proj/helpers.py" ] in Hp by (vm_compute; reflexivity).
  repeat apply elem_of_cons in Hp as [-> | Hp]; try reflexivity.
  by apply elem_of_nil in Hp.
Qed.

Lemma only_unused_files_are_removed_or_moved_witness :
  ∃ evs,
    trace (main_body ex_machine DEFAULT_CONFIG false
             (ex_world [ "a"; "d" ]%char [ "y"; "y" ])).2 = [] ++ evs
    ∧ Forall (targets_ok
                (λ p, p ∈ unused_found ex_machine DEFAULT_CONFIG
                            (ex_world [ "a"; "d" ]%char [ "y"; "y" ]))
                (archive_path_of ex_machine DEFAULT_CONFIG
                   (ex_world [ "a"; "d" ]%char [ "y"; "y" ])))
             evs.
Proof.
  exact (only_unused_files_are_removed_or_moved ex_machine DEFAULT_CONFIG false
           (ex_world [ "a"; "d" ]%char [ "y"; "y" ]) (ex_relpath_round_trip _ _)).
Defined.

(** Select all, delete, confirm twice: the two unused files are removed
    and the entry file stays. *)
Example ex_delete_run :
  let w := (main_body ex_machine DEFAULT_CONFIG false
              (ex_world [ "a"; "d" ]%char [ "y"; "y" ])).2 in
  filter (λ e, is_mutation e = true) (trace w)
  = [ EvRemove "/proj/unrelated.py"; EvRemove "/proj/helpers.py" ]
  ∧ ("/proj/helpers.py" ∉ fs w) ∧ "/proj/app.py" ∈ fs w.
Proof.
  split; [vm_compute; reflexivity |]. split; decide_by_computation.
Qed.

(** X16.  Called from a module that is not [__main__], on a dry run or
    when nothing is unused, [main] returns normally having only printed:
    the file system is as before, no key and no line is read, and the last
    two messages are the closing message of that branch and the reminder. *)
Theorem run_without_menu_only_prints (M : machine) (CONFIG : config) (name : string)
    (dry_run : bool) (depth : nat) (w : world M) :
  String.eqb name "__main__" = false →
  dry_run = true ∨ unused_found M CONFIG w = ∅ →
  ∃ ms, main M CONFIG name dry_run (S depth) w
        = (Val tt, say w (ms ++ [ no_menu_message dry_run; MsgRemember ])).
Proof. apply main_no_menu. Qed.

Lemma run_without_menu_only_prints_witness :
  ∃ ms, main ex_machine DEFAULT_CONFIG "PyClutterCutter" true 1
             (ex_world [ "a"; "d" ]%char [ "y"; "y" ])
        = (Val tt, say (ex_world [ "a"; "d" ]%char [ "y"; "y" ])
                       (ms ++ [ MsgDryRunCompleted; MsgRemember ])).
Proof.
  exact (run_without_menu_only_prints ex_machine DEFAULT_CONFIG "PyClutterCutter" true 0
           (ex_world [ "a"; "d" ]%char [ "y"; "y" ]) eq_refl (or_introl eq_refl)).
Defined.

(** X17.  When [__name__] is [__main__], the last two lines of [main] call
    [main] again.  On a dry run, or when nothing is unused, a pass only
    prints and then starts the next pass with the file system, the keys and
    the lines as they were.  So the call never returns normally, however
    deep the calls may nest, and it changes and reads nothing. *)
Theorem run_without_menu_as_main_never_returns (M : machine) (CONFIG : config)
    (dry_run : bool) (depth : nat) (w : world M) :
  dry_run = true ∨ unused_found M CONFIG w = ∅ →
  (∃ ms, main M CONFIG "__main__" dry_run (S depth) w
         = main M CONFIG "__main__" dry_run depth
                (say w (ms ++ [ no_menu_message dry_run; MsgRemember ])))
  ∧ (∀ r, (main M CONFIG "__main__" dry_run depth w).1 ≠ Val r)
  ∧ fs (main M CONFIG "__main__" dry_run depth w).2 = fs w
  ∧ keys (main M CONFIG "__main__" dry_run depth w).2 = keys w
  ∧ lines (main M CONFIG "__main__" dry_run depth w).2 = lines w.
Proof.
  intros Hcase. split; [by apply main_no_menu_again |].
  destruct (main_no_menu_never_returns M CONFIG dry_run depth w Hcase)
    as (e & ms & ->).
  simpl. done.
Qed.

Lemma run_without_menu_as_main_never_returns_witness :
  (∃ ms, main ex_machine DEFAULT_CONFIG "__main__" true 4 (ex_world [] [])
         = main ex_machine DEFAULT_CONFIG "__main__" true 3
                (say (ex_world [] []) (ms ++ [ MsgDryRunCompleted; MsgRemember ])))
  ∧ (∀ r, (main ex_machine DEFAULT_CONFIG "__main__" true 3 (ex_world [] [])).1 ≠ Val r)
  ∧ fs (main ex_machine DEFAULT_CONFIG "__main__" true 3 (ex_world [] [])).2
    = fs (ex_world [] [])
  ∧ keys (main ex_machine DEFAULT_CONFIG "__main__" true 3 (ex_world [] [])).2
    = keys (ex_world [] [])
  ∧ lines (main ex_machine DEFAULT_CONFIG "__main__" true 3 (ex_world [] [])).2
    = lines (ex_world [] []).
Proof.
  exact (run_without_menu_as_main_never_returns ex_machine DEFAULT_CONFIG true 3
           (ex_world [] []) (or_introl eq_refl)).
Defined.

(** X18.  When [__name__] is [__main__], [main] returns normally only
    through one of its two [return] statements: the last thing printed is
    the cancellation message of the menu or the message for an empty
    selection.  A run that reaches the end of the body starts over. *)
Theorem main_as_main_returns_only_early (M : machine) (CONFIG : config)
    (dry_run : bool) (depth : nat) (w : world M) :
  (main M CONFIG "__main__" dry_run depth w).1 = Val tt →
  ∃ msg, last (trace (main M CONFIG "__main__" dry_run depth w).2) = Some (EvPrint msg)
         ∧ (msg = MsgOperationCancelled ∨ msg = MsgNoFilesSelected).
Proof. apply main_returns_only_early. Qed.

Lemma ex_main_quits :
  (main ex_machine DEFAULT_CONFIG "__main__" false 1
        (ex_world [ "q"%char ] [ "y"; "y" ])).1 = Val tt.
Proof.
  destruct (main_returns_early ex_machine DEFAULT_CONFIG "__main__" 0
              (ex_world [ "q"%char ] [ "y"; "y" ]) None [] _ _ MsgOperationCancelled
              (ex_unused_nonempty _ _) (ex_menu_quit _)) as [ms ->]; [| reflexivity].
  intros w'. reflexivity.
Qed.

Lemma main_as_main_returns_only_early_witness :
  ∃ msg,
    last (trace (main ex_machine DEFAULT_CONFIG "__main__" false 1
                      (ex_world [ "q"%char ] [ "y"; "y" ])).2) = Some (EvPrint msg)
    ∧ (msg = MsgOperationCancelled ∨ msg = MsgNoFilesSelected).
Proof.
  exact (main_as_main_returns_only_early ex_machine DEFAULT_CONFIG false 1
           (ex_world [ "q"%char ] [ "y"; "y" ]) ex_main_quits).
Defined.

(** ** The table printer (X19, X20) *)

Lemma sum_widths_acc (acc : Z) (widths : list Z) :
  foldl Z.add acc widths = (acc + foldl Z.add 0 widths)%Z.
Proof.
  revert acc. induction widths as [| x widths IH]; intros acc; cbn [foldl]; [lia |].
  rewrite (IH (acc + x)%Z), (IH (0 + x)%Z). lia.
Qed.

Lemma total_width_cons (w : Z) (widths : list Z) :
  total_width (w :: widths) = (w + 3 + total_width widths)%Z.
Proof.
  unfold total_width. cbn [foldl length]. rewrite sum_widths_acc. lia.
Qed.

Lemma total_width_one (w : Z) : total_width [ w ] = (w + 4)%Z.
Proof. unfold total_width. simpl. lia. Qed.

Lemma join_cons (sep part : text) (rest : list text) :
  rest ≠ [] → join sep (part :: rest) = part ++ sep ++ join sep rest.
Proof. destruct rest; [done | reflexivity]. Qed.

(** The length of a separator is the width the function computes. *)
Lemma print_separator_length widths corner_left corner_right intersection :
  widths ≠ [] → Forall (λ w, (0 ≤ w)%Z) widths →
  Z.of_nat (length (print_separator widths corner_left corner_right intersection))
  = total_width widths.
Proof.
  intros Hne Hpos. unfold print_separator.
  rewrite !length_app. cbn [length].
  assert (Hjoin : Z.of_nat (length (join [ intersection ]
            ((λ w, replicate (Z.to_nat (w + 2)) BOX_HORIZONTAL) <$> widths)))
          = (total_width widths - 2)%Z); [| lia].
  induction Hpos as [| w widths Hw Hpos IH]; [done |].
  destruct widths as [| w' widths'].
  - simpl. rewrite length_replicate, total_width_one. lia.
  - rewrite fmap_cons, join_cons by done.
    rewrite !length_app, length_replicate. cbn [length].
    rewrite total_width_cons.
    rewrite !Nat2Z.inj_add, IH by done. lia.
Qed.

(** The length of a row, when it has one cell for each column: each cell
    takes the larger of its own length and the column's width. *)
Lemma print_row_length (columns : list text) (widths : list Z) :
  length columns = length widths → widths ≠ [] →
  Forall (λ w, (0 ≤ w)%Z) widths →
  ∃ line, print_row columns widths = Ok line
    ∧ (total_width widths ≤ Z.of_nat (length line))%Z
    ∧ (Z.of_nat (length line) = total_width widths ↔ fits columns widths).
Proof.
  intros Hlen Hne Hpos. unfold print_row.
  assert (Hcells : ∃ cells, format_cells columns widths = Ok cells
            ∧ length cells = length widths
            ∧ (total_width widths - 4
               ≤ Z.of_nat (length (join [ SPACE; BOX_VERTICAL; SPACE ] cells)))%Z
            ∧ (Z.of_nat (length (join [ SPACE; BOX_VERTICAL; SPACE ] cells))
               = (total_width widths - 4)%Z ↔ fits columns widths)).
  2:{ destruct Hcells as (cells & -> & _ & Hle & Hiff). eexists. split; [done |].
      rewrite !length_app. cbn [length]. split; [lia |]. rewrite <- Hiff. lia. }
  revert columns Hlen.
  induction Hpos as [| w widths Hw Hpos IH]; intros [| col columns] Hlen;
    try done; simpl in Hlen.
  cbn [format_cells]. unfold format_left. destruct (Z.ltb_spec w 0); [lia |].
  set (cell := col ++ replicate (Z.to_nat w - length col) SPACE).
  assert (Hcell : (w ≤ Z.of_nat (length cell))%Z
                  ∧ (Z.of_nat (length cell) = w ↔ (Z.of_nat (length col) ≤ w)%Z)).
  { unfold cell. rewrite length_app, length_replicate. lia. }
  destruct widths as [| w' widths'].
  - destruct columns; [| done]. cbn [format_cells]. eexists. split; [done |].
    split; [done |]. change (join _ [ cell ]) with cell.
    rewrite total_width_one. split; [lia |]. unfold fits. split.
    + intros Heq. constructor; [lia | constructor].
    + intros Hfit. apply Forall2_cons in Hfit as [Hfit _]. lia.
  - destruct (IH ltac:(done) columns ltac:(lia)) as (cells & -> & Hcount & Hle & Hiff).
    eexists. split; [done |]. split; [simpl in *; lia |].
    rewrite join_cons by (intros ->; discriminate).
    rewrite !length_app. cbn [length]. rewrite total_width_cons.
    rewrite !Nat2Z.inj_add. split; [lia |]. unfold fits in *. split.
    + intros Heq. constructor; [lia | apply Hiff; lia].
    + intros Hfit. apply Forall2_cons in Hfit as [Hfit Hrest].
      apply Hiff in Hrest. lia.
Qed.

Lemma print_rows_fit (rows : list (list text)) (widths : list Z) :
  widths ≠ [] → Forall (λ w, (0 ≤ w)%Z) widths →
  Forall (λ row, fits row widths) rows →
  ∃ lines, print_rows rows widths = (lines, None)
    ∧ Forall2 (λ row line, print_row row widths = Ok line) rows lines
    ∧ Forall (λ line, Z.of_nat (length line) = total_width widths) lines.
Proof.
  intros Hne Hpos. induction 1 as [| row rows Hrow Hrows IH]; simpl.
  - exists []. done.
  - destruct (print_row_length row widths) as (line & Hline & _ & Hiff);
      [by eapply Forall2_length | done | done |].
    rewrite Hline.
    destruct IH as (lines & -> & Hlen & Hall). exists (line :: lines).
    split; [done |]. split; constructor; try done. by apply Hiff.
Qed.

(** X19.  A table whose cells all fit is a rectangle.  With at least one
    column, widths that are not negative, and a header and rows that have
    one cell for each column, none longer than the column's width,
    [print_table] raises nothing and prints the title, the top border, the
    header, the middle border, one line for each row in order and the
    bottom border; every line after the title is exactly as long as the
    total width the function computes. *)
Theorem table_of_fitting_cells_is_aligned (title : text) (headers : list text)
    (rows : list (list text)) (widths : list Z) :
  widths ≠ [] → Forall (λ w, (0 ≤ w)%Z) widths →
  fits headers widths → Forall (λ row, fits row widths) rows →
  ∃ header_line lines,
    let table :=
      [ print_separator widths BOX_TOP_LEFT BOX_TOP_RIGHT BOX_TOP_TEE;
        header_line;
        print_separator widths BOX_LEFT_TEE BOX_RIGHT_TEE BOX_CROSS ]
      ++ lines
      ++ [ print_separator widths BOX_BOTTOM_LEFT BOX_BOTTOM_RIGHT BOX_BOTTOM_TEE ] in
    print_table title headers rows widths
    = (([ NEWLINE ] ++ title ++ [ COLON ]) :: table, None)
    ∧ print_row headers widths = Ok header_line
    ∧ Forall2 (λ row line, print_row row widths = Ok line) rows lines
    ∧ Forall (λ line, Z.of_nat (length line) = total_width widths) table.
Proof.
  intros Hne Hpos Hheaders Hrows.
  destruct (print_row_length headers widths) as (header_line & Hheader & _ & Hiff);
    [by eapply Forall2_length | done | done |].
  destruct (print_rows_fit rows widths Hne Hpos Hrows) as (lines & Hlines & Hall & Hlen).
  exists header_line, lines. cbv zeta. unfold print_table. rewrite Hheader, Hlines.
  split; [done |]. split; [done |]. split; [done |].
  repeat first [ apply Forall_cons; split | apply Forall_app; split ];
    first [ by apply print_separator_length | by apply Hiff | done | constructor ].
Qed.

Lemma ex_widths_nonempty : ex_widths ≠ [].
Proof. discriminate. Qed.

Lemma ex_widths_nonnegative : Forall (λ w, (0 ≤ w)%Z) ex_widths.
Proof. repeat constructor; done. Qed.

Lemma ex_headers_fit : fits ex_headers ex_widths.
Proof. repeat constructor; simpl; lia. Qed.

Lemma ex_rows_fit : Forall (λ row, fits row ex_widths) ex_rows.
Proof. repeat constructor; simpl; lia. Qed.

Lemma table_of_fitting_cells_is_aligned_witness :
  ∃ header_line lines,
    let table :=
      [ print_separator ex_widths BOX_TOP_LEFT BOX_TOP_RIGHT BOX_TOP_TEE;
        header_line;
        print_separator ex_widths BOX_LEFT_TEE BOX_RIGHT_TEE BOX_CROSS ]
      ++ lines
      ++ [ print_separator ex_widths BOX_BOTTOM_LEFT BOX_BOTTOM_RIGHT BOX_BOTTOM_TEE ] in
    print_table [] ex_headers ex_rows ex_widths
    = (([ NEWLINE ] ++ [] ++ [ COLON ]) :: table, None)
    ∧ print_row ex_headers ex_widths = Ok header_line
    ∧ Forall2 (λ row line, print_row row ex_widths = Ok line) ex_rows lines
    ∧ Forall (λ line, Z.of_nat (length line) = total_width ex_widths) table.
Proof.
  exact (table_of_fitting_cells_is_aligned [] ex_headers ex_rows ex_widths
           ex_widths_nonempty ex_widths_nonnegative ex_headers_fit ex_rows_fit).
Defined.

(** X20.  A cell is never cut.  A row with one cell for each column is at
    least as long as the borders, and exactly as long if and only if every
    cell fits its column: a cell that is too long pushes the rest of its
    row out of line. *)
Theorem row_is_aligned_iff_cells_fit (columns : list text) (widths : list Z) :
  length columns = length widths → widths ≠ [] →
  Forall (λ w, (0 ≤ w)%Z) widths →
  ∃ line, print_row columns widths = Ok line
    ∧ (total_width widths ≤ Z.of_nat (length line))%Z
    ∧ (Z.of_nat (length line) = total_width widths ↔ fits columns widths).
Proof. apply print_row_length. Qed.

Lemma row_is_aligned_iff_cells_fit_witness :
  ∃ line, print_row ex_long_row ex_widths = Ok line
    ∧ (total_width ex_widths ≤ Z.of_nat (length line))%Z
    ∧ (Z.of_nat (length line) = total_width ex_widths ↔ fits ex_long_row ex_widths).
Proof.
  exact (row_is_aligned_iff_cells_fit ex_long_row ex_widths eq_refl
           ex_widths_nonempty ex_widths_nonnegative).
Defined.

(** A path of nine characters in a column of six: the row is three longer
    than the borders. *)
Example ex_long_row_overflows :
  ∃ line, print_row ex_long_row ex_widths = Ok line
          ∧ Z.of_nat (length line) = (total_width ex_widths + 3)%Z.
Proof. eexists. split; reflexivity. Qed.

(** ** Sizes as they are shown (X21, X22) *)

(** [hundredths] is a nearest number of hundredths. *)
Lemma hundredths_nearest (n d : N) :
  (0 < d)%N →
  (2 * (hundredths (Fraction n d) * d) ≤ 200 * n + d
   ∧ 200 * n ≤ 2 * (hundredths (Fraction n d) * d) + d)%N.
Proof.
  intros Hd. unfold hundredths. cbn [numerator denominator].
  pose proof (N.div_mod (100 * n) d ltac:(lia)) as Hdiv.
  pose proof (N.mod_lt (100 * n) d ltac:(lia)) as Hmod.
  set (q := (100 * n / d)%N) in *. set (r := ((100 * n) mod d)%N) in *.
  destruct (N.ltb_spec d (2 * r)); [nia |].
  destruct (N.eqb_spec (2 * r) d); simpl; [destruct (N.odd q) |]; nia.
Qed.

Lemma format_size_loop_spec (units : list string) (size : N) (k : N) :
  ∃ j : nat,
    (j ≤ length units)%nat
    ∧ format_size_loop units (Fraction size (1024 ^ k))
      = shown (hundredths (Fraction size (1024 ^ (k + N.of_nat j))))
              (default "TB" (units !! j))
    ∧ (j = 0%nat ∨ (1024 ^ (k + N.of_nat j) ≤ size)%N)
    ∧ (j = length units ∨ (size < 1024 ^ (k + N.of_nat j + 1))%N).
Proof.
  revert k. induction units as [| unit units IH]; intros k.
  { exists 0%nat. rewrite N.add_0_r. simpl. auto. }
  cbn [format_size_loop]. unfold below_1024, div_1024. cbn [numerator denominator].
  destruct (N.ltb_spec size (1024 * 1024 ^ k)) as [Hlt | Hge].
  - exists 0%nat. rewrite N.add_0_r. simpl. split; [lia |]. split; [done |].
    split; [by left |]. right. rewrite N.pow_add_r. simpl. lia.
  - replace (1024 ^ k * 1024)%N with (1024 ^ (k + 1))%N by (rewrite N.pow_add_r; simpl; lia).
    destruct (IH (k + 1)%N) as (j & Hj & -> & Hlow & Hhigh).
    exists (S j). replace (k + N.of_nat (S j))%N with (k + 1 + N.of_nat j)%N by lia.
    split; [simpl; lia |]. split; [done |]. split.
    + right. destruct Hlow as [-> | Hlow]; [| done].
      rewrite N.add_0_r, N.pow_add_r. simpl. lia.
    + destruct Hhigh as [-> | Hhigh]; [by left | by right].
Qed.

(** X21.  [format_size] shows a size, below [2 ^ 53] bytes, in the largest
    unit among B, KB, MB, GB and TB that does not exceed it, in powers of
    1024, and bytes for a size below 1024.  The number shown is a nearest
    one with two decimal places to the size divided by the unit.  It is
    therefore at least 1.00 for every unit above bytes, and at most
    1024.00 for every unit below TB: a size just under the next unit shows
    as 1024.00 of the unit below. *)
Theorem format_size_unit_and_value (size : N) :
  (size < 2 ^ 53)%N →
  ∃ (k : nat) (h : N) (unit : string),
    format_size size = shown h unit
    ∧ size_units !! k = Some unit
    ∧ (k = 0%nat ∨ (1024 ^ N.of_nat k ≤ size)%N)
    ∧ (k = 4%nat ∨ (size < 1024 ^ N.of_nat (S k))%N)
    ∧ (2 * (h * 1024 ^ N.of_nat k) ≤ 200 * size + 1024 ^ N.of_nat k)%N
    ∧ (200 * size ≤ 2 * (h * 1024 ^ N.of_nat k) + 1024 ^ N.of_nat k)%N
    ∧ (k ≠ 0%nat → (100 ≤ h)%N)
    ∧ (k ≠ 4%nat → (h ≤ 102400)%N).
Proof.
  intros _.
  destruct (format_size_loop_spec [ "B"; "KB"; "MB"; "GB" ] size 0)
    as (j & Hj & Heq & Hlow & Hhigh).
  rewrite !N.add_0_l in *. change (1024 ^ 0)%N with 1%N in Heq.
  set (P := (1024 ^ N.of_nat j)%N) in *.
  assert (HP : (0 < P)%N) by (apply N.neq_0_lt_0, N.pow_nonzero; lia).
  assert (HP' : (1024 ^ N.of_nat (S j) = 1024 * P)%N).
  { unfold P. rewrite Nat2N.inj_succ, N.pow_succ_r'. done. }
  replace (1024 ^ (N.of_nat j + 1))%N with (1024 * P)%N in Hhigh
    by (rewrite <- HP'; f_equal; lia).
  destruct (hundredths_nearest size P HP) as [Hup Hdown].
  exists j, (hundredths (Fraction size P)), (default "TB" ([ "B"; "KB"; "MB"; "GB" ] !! j)).
  split; [exact Heq |].
  split; [simpl in Hj; do 5 (destruct j as [| j]; [reflexivity |]); lia |].
  split; [exact Hlow |]. rewrite HP'.
  split; [simpl in Hhigh; tauto |].
  split; [exact Hup |]. split; [exact Hdown |]. split.
  - intros Hk. destruct Hlow as [-> | Hlow]; [done | nia].
  - intros Hk. simpl in Hhigh. destruct Hhigh as [-> | Hhigh]; [done | nia].
Qed.

Lemma ex_size_in_range : (1048575 < 2 ^ 53)%N.
Proof. reflexivity. Qed.

Lemma format_size_unit_and_value_witness :
  ∃ (k : nat) (h : N) (unit : string),
    format_size 1048575 = shown h unit
    ∧ size_units !! k = Some unit
    ∧ (k = 0%nat ∨ (1024 ^ N.of_nat k ≤ 1048575)%N)
    ∧ (k = 4%nat ∨ (1048575 < 1024 ^ N.of_nat (S k))%N)
    ∧ (2 * (h * 1024 ^ N.of_nat k) ≤ 200 * 1048575 + 1024 ^ N.of_nat k)%N
    ∧ (200 * 1048575 ≤ 2 * (h * 1024 ^ N.of_nat k) + 1024 ^ N.of_nat k)%N
    ∧ (k ≠ 0%nat → (100 ≤ h)%N)
    ∧ (k ≠ 4%nat → (h ≤ 102400)%N).
Proof. exact (format_size_unit_and_value 1048575 ex_size_in_range). Defined.

(** The default threshold, and the size one byte below it. *)
Example ex_format_size :
  format_size (1024 * 1024) = "1.00 MB" ∧ format_size (1024 * 1024 - 1) = "1024.00 KB".
Proof. split; vm_compute; reflexivity. Qed.

(** X22.  A size below 1024 is shown as that number of bytes, exactly. *)
Theorem format_size_of_bytes (size : N) :
  (size < 1024)%N → format_size size = pretty size +:+ ".00 B".
Proof.
  intros Hsize. unfold format_size. cbn [format_size_loop].
  unfold below_1024. cbn [numerator denominator].
  destruct (N.ltb_spec size (1024 * 1)); [| lia].
  assert (Hh : hundredths (Fraction size 1) = (size * 100)%N).
  { unfold hundredths. cbn [numerator denominator].
    rewrite N.div_1_r, N.mod_1_r. simpl. lia. }
  rewrite Hh. unfold shown. rewrite N.div_mul, N.Div0.mod_mul by done. reflexivity.
Qed.

Lemma ex_size_in_bytes : (1023 < 1024)%N.
Proof. reflexivity. Qed.

Lemma format_size_of_bytes_witness : format_size 1023 = pretty 1023%N +:+ ".00 B".
Proof. exact (format_size_of_bytes 1023 ex_size_in_bytes). Defined.

(** ** The ignore file (X23) *)

Lemma lstrip_suffix (s : text) : lstrip s `suffix_of` s.
Proof.
  induction s as [| c s IH]; simpl; [done |].
  destruct (isspace c); [by apply suffix_cons_r | done].
Qed.

Lemma lstrip_head (s : text) (c : N) : head (lstrip s) = Some c → isspace c = false.
Proof.
  induction s as [| c' s IH]; simpl; [done |].
  destruct (isspace c') eqn:Hc'; [exact IH |]. simpl. by intros [= <-].
Qed.

Lemma rstrip_prefix (s : text) : rstrip s `prefix_of` s.
Proof.
  unfold rstrip. destruct (lstrip_suffix (reverse s)) as [k Hk].
  exists (reverse k). apply (inj reverse). by rewrite reverse_app, !reverse_involutive.
Qed.

Lemma rstrip_last (s : text) (c : N) : last (rstrip s) = Some c → isspace c = false.
Proof. unfold rstrip. rewrite last_reverse. apply lstrip_head. Qed.

Lemma strip_ends (s : text) :
  (∀ c, head (strip s) = Some c → isspace c = false)
  ∧ (∀ c, last (strip s) = Some c → isspace c = false).
Proof.
  split; [| intros c; apply rstrip_last].
  intros c Hc. unfold strip in Hc. apply (lstrip_head s).
  destruct (rstrip_prefix (lstrip s)) as [k Hk]. rewrite Hk.
  destruct (rstrip (lstrip s)); [done | exact Hc].
Qed.

Lemma elem_of_foldl_add_line (lines : list text) (acc : gset text) (p : text) :
  p ∈ foldl add_line acc lines
  ↔ p ∈ acc ∨ ∃ line, line ∈ lines ∧ p = strip line ∧ p ≠ [] ∧ is_comment p = false.
Proof.
  revert acc. induction lines as [| l lines IH]; intros acc; simpl.
  - split; [by left | intros [H | (line & H & _)]; [done | by apply elem_of_nil in H]].
  - rewrite IH. unfold add_line. cbv zeta.
    destruct (bool_decide (strip l ≠ [])) eqn:Hne; simpl;
      [destruct (is_comment (strip l)) eqn:Hcomment; simpl |].
    + split; [intros [H | (line & H & Hrest)]; [by left | right; exists line; by split; [right |]] |].
      intros [H | (line & [-> | H]%elem_of_cons & Heq & Hp & Hc)]; [by left | | right; by exists line].
      subst p. congruence.
    + apply bool_decide_eq_true in Hne. rewrite elem_of_union, elem_of_singleton. split.
      * intros [[H | ->] | (line & H & Hrest)]; [by left | | right; exists line; by split; [right |]].
        right. exists l. split; [left | done].
      * intros [H | (line & [-> | H]%elem_of_cons & Heq & Hp & Hc)];
          [by left; left | left; by right | right; by exists line].
    + apply bool_decide_eq_false in Hne. split;
        [intros [H | (line & H & Hrest)]; [by left | right; exists line; by split; [right |]] |].
      intros [H | (line & [-> | H]%elem_of_cons & Heq & Hp & Hc)]; [by left | | right; by exists line].
      subst p. destruct Hne. done.
Qed.

(** X23.  The patterns read from [.gitignore] are the lines of the file,
    stripped of white space at both ends, that are then neither empty nor
    begin with [#]; without the file there is none.  So no pattern is
    empty, none begins or ends with white space, and none begins with [#],
    while a [#] further into a line does not start a comment. *)
Theorem gitignore_patterns_are_stripped_lines (gitignore_file : option (list text))
    (p : text) :
  (p ∈ parse_gitignore_lines gitignore_file
   ↔ ∃ lines line, gitignore_file = Some lines ∧ line ∈ lines
                   ∧ p = strip line ∧ p ≠ [] ∧ is_comment p = false)
  ∧ (p ∈ parse_gitignore_lines gitignore_file →
     p ≠ []
     ∧ (∀ c, head p = Some c → isspace c = false ∧ c ≠ HASH)
     ∧ (∀ c, last p = Some c → isspace c = false)).
Proof.
  assert (Hiff : p ∈ parse_gitignore_lines gitignore_file
    ↔ ∃ lines line, gitignore_file = Some lines ∧ line ∈ lines
                    ∧ p = strip line ∧ p ≠ [] ∧ is_comment p = false).
  { destruct gitignore_file as [lines |]; simpl.
    - rewrite elem_of_foldl_add_line. split.
      + intros [H | (line & H)]; [by apply elem_of_empty in H |]. by exists lines, line.
      + intros (lines' & line & [= <-] & H). right. by exists line.
    - split; [intros H; by apply elem_of_empty in H | intros (? & ? & ? & _); done]. }
  split; [exact Hiff |].
  intros (lines & line & _ & _ & -> & Hne & Hcomment)%Hiff.
  destruct (strip_ends line) as [Hhead Hlast].
  split; [done |]. split; [| exact Hlast].
  intros c Hc. split; [by apply Hhead |].
  destruct (strip line) as [| c' rest]; [done |]. simpl in *.
  injection Hc as ->. by apply N.eqb_neq.
Qed.

(** ** What counts as a confirmation (X24) *)

Lemma lower_char_y (c : ascii) :
  lower_char c = "y"%char ↔ c = "y"%char ∨ c = "Y"%char.
Proof.
  destruct c as [[] [] [] [] [] [] [] []]; vm_compute;
    (split; [intros H; first [discriminate H | by left | by right]
            | intros [H | H]; first [discriminate H | reflexivity]]).
Qed.

(** X24.  An answer confirms exactly when it is the single letter [y] or
    [Y]: [yes], an answer with a space around the letter, and the empty
    line are all refusals. *)
Theorem only_y_confirms (answer : string) :
  affirmative answer = true ↔ answer = "y" ∨ answer = "Y".
Proof.
  unfold affirmative. destruct answer as [| c [| c' rest]].
  - split; [discriminate | intros [H | H]; discriminate].
  - change (lower (String c EmptyString)) with (String (lower_char c) EmptyString).
    rewrite String.eqb_eq. split.
    + intros [= H]. apply lower_char_y in H as [-> | ->]; auto.
    + intros [[= ->] | [= ->]]; reflexivity.
  - split; [| intros [H | H]; discriminate].
    simpl. destruct (Ascii.eqb (lower_char c) "y"); discriminate.
Qed.
